(** * ArchScale: the selective state-space layer [lit_gpt/mamba_simple.py]

    A shallow embedding of the [Mamba] layer: its constructor, the
    full-sequence [forward] and the single-token [step], together with the
    properties of the layer's written description that they decide, and
    further properties that the code itself shows.  The prompt functions of
    [eval_reason.py] are embedded in the module [EvalReason].

    Conventions of the embedding.
    - Floating-point tensors are lists of real numbers ([R]); dtype casts
      ([.float()], [.to(dtype)]) are the identity.  Every equation below is
      therefore an exact equation of real arithmetic.
    - The batch axis is dropped: every tensor operation of the layer acts on
      each batch row independently, and the embedding follows one row.  A
      tensor [(B, L, D)] is a [list vec] of length [L], a tensor [(B, D, L)]
      a [mat] with [D] rows.
    - The optional packages [causal_conv1d] and [mamba_ssm] are absent, so
      [causal_conv1d_fn], [causal_conv1d_update] and [selective_state_update]
      are [None] (lines 18-26) and the reference branches run.
    - [forward] is the call with [support_init_states = False], the
      default: the branch of lines 256-274 runs
      [triton_selective_scan_sequential], which neither the sources nor the
      description contain.
    - Tensor operations are total: where the library raises on operands of
      mismatched shapes, the lists are cut to the shorter operand.  The
      theorems that depend on shapes assume them ([shaped],
      [cache_shaped]); [__init__] establishes them.
    - The Python [float] whose rounding decides an outcome, the factor
      [expand] of [int(expand * d_model)], is an IEEE binary64 number.
    - Tensors live in a store and are named by locations, so that the
      in-place updates [copy_] and indexed assignment are visible as writes. *)

From Stdlib Require Import ZArith Bool String Ascii Arith Reals Lra Lia List.
From Stdlib Require SpecFloat.
From Stdlib Require Import FunctionalExtensionality.
Import ListNotations.
Open Scope R_scope.

(* ================================================================== *)
(** ** Tensor operations used by the layer *)
(* ================================================================== *)

Module Torch.

(** Vectors and matrices (lists of rows) of reals. *)
Abbreviation vec := (list R).
Abbreviation mat := (list (list R)).

Fixpoint zipWith {A B C : Type} (f : A -> B -> C) (l1 : list A) (l2 : list B)
  : list C :=
  match l1, l2 with
  | a :: l1', b :: l2' => f a b :: zipWith f l1' l2'
  | _, _ => []
  end.

(** [torch.zeros(n)] and [torch.zeros(m, n)]. *)
Definition zeros (n : nat) : vec := repeat 0 n.
Definition zeros2 (m n : nat) : mat := repeat (zeros n) m.

(** [torch.ones(n)]. *)
Definition ones (n : nat) : vec := repeat 1 n.

(** [torch.sum(v, dim=-1)]. *)
Definition vsum (v : vec) : R := fold_right Rplus 0 v.

(** Elementwise [u * v] and [u + v] of two vectors of one length. *)
Definition mul (u v : vec) : vec := zipWith Rmult u v.
Definition add (u v : vec) : vec := zipWith Rplus u v.

Definition dot (u v : vec) : R := vsum (mul u v).

(** [F.linear(x, W, b)], also [nn.Linear.__call__]: [x W^T + b]. *)
Definition linear (W : mat) (b : option vec) (x : vec) : vec :=
  let y := map (fun w => dot x w) W in
  match b with
  | Some b => add y b
  | None => y
  end.

(** [W @ X^T] for [X] given by its rows: entry [(i, t)] is [W_i . X_t].
    It is the product [W @ rearrange(X, "b l d -> d (b l)")] of [forward]
    and [W @ X.t()]. *)
Definition matmul_T (W : mat) (X : list vec) : mat :=
  map (fun w => map (fun x => dot w x) X) W.

(** [M + rearrange(b, "d -> d 1")]: [b_d] is added along row [d]. *)
Definition add_rows (M : mat) (b : vec) : mat :=
  zipWith (fun row bd => map (fun v => v + bd) row) M b.

(** [t.chunk(2)] along the axis of the list: the first half has
    [ceil(n / 2)] entries. *)
Definition chunk2 {A : Type} (l : list A) : list A * list A :=
  let h := Nat.div (length l + 1) 2 in (firstn h l, skipn h l).

(** [torch.split(v, [r, n, n], dim=-1)]. *)
Definition split3 (r n : nat) (v : vec) : vec * vec * vec :=
  (firstn r v, firstn n (skipn r v), firstn n (skipn (r + n) v)).

(** [torch.roll(v, shifts=-1)]: every entry moves one place to the left and
    the first entry wraps round to the end. *)
Definition roll_left (v : vec) : vec :=
  match v with
  | [] => []
  | a :: t => t ++ [a]
  end.

(** [v[-1] = x]. *)
Definition set_last (v : vec) (x : R) : vec :=
  match v with
  | [] => []
  | _ :: _ => removelast v ++ [x]
  end.

(** Column [t] of a matrix, and [rearrange(M, "r c -> c r")] for a matrix of
    [n] columns. *)
Definition column (t : nat) (M : mat) : vec := map (fun row => nth t row 0) M.
Definition transpose (n : nat) (M : mat) : mat :=
  map (fun t => column t M) (seq 0 n).

(** [F.pad(v, (n, 0))]: [n] zeros on the left; a negative [n] crops. *)
Definition pad_left (n : Z) (v : vec) : vec :=
  if (0 <=? n)%Z then zeros (Z.to_nat n) ++ v else skipn (Z.to_nat (- n)) v.

(** One channel of [nn.Conv1d] with [groups] equal to the channel count: the
    input is zero-padded by [padding] on both sides and output [t] is the
    filter applied to the window starting at [t], plus the bias when the
    module has one. *)
Definition conv1d_channel (w : vec) (b : option R) (padding : nat) (x : vec)
  : vec :=
  let xp := zeros padding ++ x ++ zeros padding in
  map (fun t =>
         let acc := vsum (mul w (firstn (length w) (skipn t xp))) in
         match b with Some b => acc + b | None => acc end)
      (seq 0 (length xp + 1 - length w)).

(** [nn.SiLU] and [F.softplus] (with the library's default [beta = 1],
    [threshold = 20]: above the threshold the function is the identity). *)
Definition silu (x : R) : R := x * (1 / (1 + exp (- x))).
Definition softplus (x : R) : R :=
  if Rlt_dec 20 x then x else ln (1 + exp x).

End Torch.
Import Torch.

(* ================================================================== *)
(** ** The store, exceptions and the monad of the layer's methods *)
(* ================================================================== *)

(** The exceptions the layer's code can raise. *)
Inductive exn : Type :=
| AssertionError (msg : string)
| NotImplementedError
| ZeroDivisionError
| ValueError
| ImportError
| AttributeError
| RuntimeError
| OverflowError.

Definition loc := nat.

Inductive tensor : Type :=
| T1 (v : vec)
| T2 (m : mat).

(** The heap of tensors, the next free location, and the
    [key_value_memory_dict] of the inference cache: layer index to the pair
    of locations of that layer's [conv_state] and [ssm_state]. *)
Record store : Type := mkStore {
  heap : loc -> tensor;
  next : loc;
  kv : nat -> option (loc * loc)
}.

Definition upd (h : loc -> tensor) (l : loc) (t : tensor) : loc -> tensor :=
  fun l' => if Nat.eqb l' l then t else h l'.

(** A method either raises or returns; the store survives both. *)
Definition M (A : Type) : Type := store -> (exn + A) * store.

Definition ret {A : Type} (a : A) : M A := fun s => (inr a, s).

Definition bind {A B : Type} (m : M A) (k : A -> M B) : M B :=
  fun s =>
    match m s with
    | (inl e, s') => (inl e, s')
    | (inr a, s') => k a s'
    end.

Definition raise {A : Type} (e : exn) : M A := fun s => (inl e, s).

Declare Scope monad_scope.
Delimit Scope monad_scope with monad.
Notation "x <- m ;; k" := (bind m (fun x => k))
  (at level 61, m at next level, right associativity) : monad_scope.
Notation "' p <- m ;; k" := (bind m (fun x => let p := x in k))
  (at level 61, p pattern, m at next level, right associativity) : monad_scope.
Notation "m ;; k" := (bind m (fun _ => k))
  (at level 61, right associativity) : monad_scope.
Open Scope monad_scope.

(** [assert c, msg]. *)
Definition assert_ (c : bool) (msg : string) : M unit :=
  if c then ret tt else raise (AssertionError msg).

Definition as_vec (t : tensor) : vec :=
  match t with T1 v => v | T2 _ => [] end.
Definition as_mat (t : tensor) : mat :=
  match t with T2 m => m | T1 _ => [] end.

Definition read_vec (l : loc) : M vec := fun s => (inr (as_vec (heap s l)), s).
Definition read_mat (l : loc) : M mat := fun s => (inr (as_mat (heap s l)), s).

(** An optional parameter ([bias] of a module built with [bias=False] is
    [None]). *)
Definition read_opt (l : option loc) : M (option vec) :=
  match l with
  | Some l => v <- read_vec l ;; ret (Some v)
  | None => ret None
  end.

(** In-place update of the tensor at [l]: [t.copy_(...)], [t[...] = ...]. *)
Definition write (l : loc) (t : tensor) : M unit :=
  fun s => (inr tt, mkStore (upd (heap s) l t) (next s) (kv s)).

(** A fresh tensor: [torch.zeros], [nn.Parameter], a module's weight. *)
Definition alloc (t : tensor) : M loc :=
  fun s => (inr (next s), mkStore (upd (heap s) (next s) t) (S (next s)) (kv s)).

(* ================================================================== *)
(** ** The layer object *)
(* ================================================================== *)

(** The attributes [__init__] sets: the configuration and, for every
    parameter tensor, its location.  [conv1d_weight] is the filter as
    [rearrange(self.conv1d.weight, "d 1 w -> d w")] reads it.  The three
    [*_layernorm] weights exist only when [jamba_norm] is set. *)
Record Mamba : Type := mkMamba {
  d_model : nat;
  d_state : nat;
  d_conv : nat;
  d_inner : nat;
  dt_rank : nat;
  use_fast_path : bool;
  layer_idx : nat;
  jamba_norm : bool;
  gmu_save : bool;
  in_proj_weight : loc;
  in_proj_bias : option loc;
  conv1d_weight : loc;
  conv1d_bias : option loc;
  x_proj_weight : loc;
  dt_proj_weight : loc;
  dt_proj_bias : loc;
  A_log : loc;
  D : loc;
  out_proj_weight : loc;
  out_proj_bias : option loc;
  dt_layernorm : option loc;
  b_layernorm : option loc;
  c_layernorm : option loc
}.

(** The locations of the layer's parameter tensors. *)
Definition opt_loc (l : option loc) : list loc :=
  match l with Some l => [l] | None => [] end.

Definition parameters (self : Mamba) : list loc :=
  [in_proj_weight self; conv1d_weight self; x_proj_weight self;
   dt_proj_weight self; dt_proj_bias self; A_log self; D self;
   out_proj_weight self]
  ++ opt_loc (in_proj_bias self) ++ opt_loc (conv1d_bias self)
  ++ opt_loc (out_proj_bias self) ++ opt_loc (dt_layernorm self)
  ++ opt_loc (b_layernorm self) ++ opt_loc (c_layernorm self).

(* ================================================================== *)
(** ** [Mamba.step] (lines 313-358) *)
(* ================================================================== *)

(** [-torch.exp(self.A_log.float())]. *)
Definition neg_exp (A_log : mat) : mat := map (map (fun a => - exp a)) A_log.

(** [torch.exp(torch.einsum("bd,dn->bdn", dt, A))]: the decay factors. *)
Definition discretize_A (dt : vec) (A : mat) : mat :=
  zipWith (fun dt_d A_d => map (fun a => exp (dt_d * a)) A_d) dt A.

(** [torch.einsum("bd,bn->bdn", dt, B)]: the input gains. *)
Definition discretize_B (dt B : vec) : mat :=
  map (fun dt_d => map (fun b => dt_d * b) B) dt.

Definition step (self : Mamba) (hidden_states : list vec)
    (conv_state ssm_state : loc) : M (list vec * loc * loc) :=
  assert_ (length hidden_states =? 1)%nat
    "Only support decoding with 1 token at a time for now" ;;
  in_w <- read_mat (in_proj_weight self) ;;
  in_b <- read_opt (in_proj_bias self) ;;
  let xz := linear in_w in_b (hd [] hidden_states) in
  let '(x, z) := chunk2 xz in
  (* Conv step *)
  cs <- read_mat conv_state ;;
  write conv_state (T2 (map roll_left cs)) ;;
  cs <- read_mat conv_state ;;
  write conv_state (T2 (zipWith set_last cs x)) ;;
  cs <- read_mat conv_state ;;
  conv_w <- read_mat (conv1d_weight self) ;;
  let x := map vsum (zipWith mul cs conv_w) in
  conv_b <- read_opt (conv1d_bias self) ;;
  let x := match conv_b with Some b => add x b | None => x end in
  let x := map silu x in
  x_w <- read_mat (x_proj_weight self) ;;
  let x_db := linear x_w None x in
  let '(dt, B, C) := split3 (dt_rank self) (d_state self) x_db in
  (* Don't add dt_bias here *)
  dt_w <- read_mat (dt_proj_weight self) ;;
  let dt := linear dt_w None dt in
  a_log <- read_mat (A_log self) ;;
  let A := neg_exp a_log in
  (* SSM step: discretize A and B *)
  dt_b <- read_vec (dt_proj_bias self) ;;
  let dt := map softplus (add dt dt_b) in
  let dA := discretize_A dt A in
  let dB := discretize_B dt B in
  ss <- read_mat ssm_state ;;
  write ssm_state
    (T2 (zipWith add (zipWith mul ss dA)
                     (zipWith (fun x_d dB_d => map (fun g => x_d * g) dB_d) x dB))) ;;
  ss <- read_mat ssm_state ;;
  let y := map (fun s_d => dot s_d C) ss in
  skip <- read_vec (D self) ;;
  let y := add y (mul skip x) in
  let y := mul y (map silu z) in
  out_w <- read_mat (out_proj_weight self) ;;
  out_b <- read_opt (out_proj_bias self) ;;
  let out := linear out_w out_b y in
  ret ([out], conv_state, ssm_state).

(* ================================================================== *)
(** ** Collaborators of [forward] that live in other files *)
(* ================================================================== *)

(** Modelled from the spec: [FusedRMSNorm] of [lit_gpt/rmsnorm.py], the
    "RMS-style normalization" collaborator, a shape-preserving map on the
    last axis: each entry is divided by the root of the mean square (plus
    [eps]) and scaled by the module's weight. *)
Definition FusedRMSNorm (weight : vec) (eps : R) (x : vec) : vec :=
  let ms := vsum (mul x x) / INR (length x) in
  zipWith (fun xi wi => xi * (1 / sqrt (ms + eps)) * wi) x weight.

(** Modelled from the spec: [swiglu] of [lit_gpt/gated_memory_unit.py], the
    gated combine [y * silu(z)] of 4.5, on tensors [(L, E)]. *)
Definition swiglu (z y : list vec) : list vec :=
  zipWith (fun z_t y_t => mul y_t (map silu z_t)) z y.

(** Modelled from the spec: the recurrence of 4.4 at one time step,
    elementwise over channel and state:
    [state_t = state_{t-1} * exp(delta A) + x_t * (delta B_t)] and
    [y_t = sum_over_state(state_t * C_t) + D * x_t]. *)
Fixpoint zip3 (f : R -> R -> R -> R) (l1 l2 l3 : vec) : vec :=
  match l1, l2, l3 with
  | a :: l1', b :: l2', c :: l3' => f a b c :: zip3 f l1' l2' l3'
  | _, _, _ => []
  end.

Definition channel_state (x_d dl : R) (A_d B s_d : vec) : vec :=
  zip3 (fun s a b => s * exp (dl * a) + x_d * (dl * b)) s_d A_d B.

Fixpoint recurrence_state (A state : mat) (x delta B : vec) : mat :=
  match A, state, x, delta with
  | A_d :: A', s_d :: state', x_d :: x', dl :: delta' =>
      channel_state x_d dl A_d B s_d :: recurrence_state A' state' x' delta' B
  | _, _, _, _ => []
  end.

Definition recurrence_output (skip : vec) (state : mat) (x C : vec) : vec :=
  zip3 (fun sC D_d x_d => sC + D_d * x_d)
       (map (fun s_d => vsum (mul s_d C)) state) skip x.

(** The recurrence over the time axis, from a carried state; it returns the
    outputs and the final state. *)
Fixpoint recurrence (A : mat) (skip : vec) (state : mat)
    (xs deltas Bs Cs : list vec) : list vec * mat :=
  match xs, deltas, Bs, Cs with
  | x :: xs', dl :: deltas', B :: Bs', C :: Cs' =>
      let state' := recurrence_state A state x dl B in
      let y := recurrence_output skip state' x C in
      let '(ys, last) := recurrence A skip state' xs' deltas' Bs' Cs' in
      (y :: ys, last)
  | _, _, _, _ => ([], state)
  end.

(** Modelled from the spec: [selective_scan_fn] of
    [lit_gpt/selective_scan_interface.py], the full-sequence mode of 4.4.
    [u] and [delta] are [(E, L)], [A] is [(E, N)], [B] and [C] are [(N, L)].
    The step size is [softplus(delta + delta_bias)], the state starts at
    zero, the gate [z] (when given) multiplies the output by [silu(z)], and
    the result is the output [(E, L)] with the final state [(E, N)]. *)
Definition selective_scan_fn (u delta A B C : mat) (skip : vec)
    (z : option mat) (delta_bias : vec) : mat * mat :=
  let seqlen := length (hd [] u) in
  let deltas := map (fun dl => map softplus (add dl delta_bias))
                    (transpose seqlen delta) in
  let '(ys, last_state) :=
    recurrence A skip (map (fun A_d => zeros (length A_d)) A)
               (transpose seqlen u) deltas
               (transpose seqlen B) (transpose seqlen C) in
  let out := transpose (length u) ys in
  let out := match z with
             | Some z => zipWith (fun o_d z_d => mul o_d (map silu z_d)) out z
             | None => out
             end in
  (out, last_state).

(** The stateless causal convolution of 4.2 as [forward] writes it:
    [self.act(self.conv1d(x)[..., :seqlen])], with [padding = d_conv - 1]. *)
Definition conv1d (weight : mat) (bias : option vec) (padding : nat) (x : mat)
  : mat :=
  match bias with
  | Some b =>
      zipWith (fun wb x_d => conv1d_channel (fst wb) (Some (snd wb)) padding x_d)
              (combine weight b) x
  | None => zipWith (fun w x_d => conv1d_channel w None padding x_d) weight x
  end.

Definition conv_act (weight : mat) (bias : option vec) (d_conv seqlen : nat)
    (x : mat) : mat :=
  map (fun x_d => map silu (firstn seqlen x_d))
      (conv1d weight bias (d_conv - 1) x).

(** [x * mask.unsqueeze(1)] when a mask is given. *)
Definition apply_mask (mask : option vec) (x : mat) : mat :=
  match mask with
  | Some m => map (fun x_d => mul x_d m) x
  | None => x
  end.

(** Lines 245-254: the recurrence inputs from the convolved branch. *)
Definition ssm_inputs (jamba : option (vec * vec * vec)) (d_state dt_rank seqlen : nat)
    (x_w dt_w : mat) (x : mat) : mat * mat * mat :=
  let x_dbl := map (linear x_w None) (transpose seqlen x) in
  let dt := map (fun r => fst (fst (split3 dt_rank d_state r))) x_dbl in
  let B := map (fun r => snd (fst (split3 dt_rank d_state r))) x_dbl in
  let C := map (fun r => snd (split3 dt_rank d_state r)) x_dbl in
  let '(dt, B, C) :=
    match jamba with
    | Some (wdt, wb, wc) =>
        (map (FusedRMSNorm wdt (1 / 100000)) dt,
         map (FusedRMSNorm wb (1 / 100000)) B,
         map (FusedRMSNorm wc (1 / 100000)) C)
    | None => (dt, B, C)
    end in
  (matmul_T dt_w dt, transpose d_state B, transpose d_state C).

(** Lines 203-310 without the cache writes: from the projected input [xz] to
    the layer output, the tensor [ox] that feeds the convolution, the final
    recurrence state and the pre-gate export. *)
Definition reference_path (d_state dt_rank d_conv seqlen : nat) (gmu_save : bool)
    (jamba : option (vec * vec * vec))
    (conv_w : mat) (conv_b : option vec) (x_w dt_w : mat) (dt_b : vec)
    (A : mat) (skip : vec) (out_w : mat) (out_b : option vec)
    (mask : option vec) (gmu_mems : option (list vec)) (xz : mat)
  : list vec * mat * mat * option (list vec) :=
  let '(x, z) := chunk2 xz in
  let z := if gmu_save then transpose seqlen z else z in
  let x := apply_mask mask x in
  let ox := x in
  let x := conv_act conv_w conv_b d_conv seqlen x in
  let x := apply_mask mask x in
  let '(dt, B, C) := ssm_inputs jamba d_state dt_rank seqlen x_w dt_w x in
  let '(y, last_state) :=
    selective_scan_fn x dt A B C skip (if gmu_save then None else Some z) dt_b in
  let y := transpose seqlen y in
  let '(gmu_mems, y) :=
    if gmu_save then (Some y, swiglu z y) else (gmu_mems, y) in
  (map (linear out_w out_b) y, ox, last_state, gmu_mems).

(** Modelled from the spec: [mamba_inner_fn] of
    [lit_gpt/selective_scan_interface.py], the accelerated substitute of
    4.4, whose selection "must not change any observable output": it is the
    reference computation with the gate inside the scan. *)
Definition mamba_inner_fn (d_state dt_rank d_conv seqlen : nat)
    (xz conv_w : mat) (conv_b : option vec) (x_w dt_w out_w : mat)
    (out_b : option vec) (A : mat) (skip dt_b : vec) (mask : option vec)
  : list vec :=
  fst (fst (fst (reference_path d_state dt_rank d_conv seqlen false None
                   conv_w conv_b x_w dt_w dt_b A skip out_w out_b mask None xz))).

(** Modelled from the spec: [_get_states_from_cache], the [get_or_create] of
    4.6.  The first call for a layer allocates a zeroed ring buffer
    [(E, K)] and a zeroed recurrence state [(E, N)] and records them under
    the layer's index; later calls return the recorded pair. *)
Definition _get_states_from_cache (self : Mamba) : M (loc * loc) :=
  fun s =>
    match kv s (layer_idx self) with
    | Some c => (inr c, s)
    | None =>
        let c := (next s, S (next s)) in
        (inr c,
         mkStore
           (upd (upd (heap s) (next s) (T2 (zeros2 (d_inner self) (d_conv self))))
                (S (next s)) (T2 (zeros2 (d_inner self) (d_state self))))
           (S (S (next s)))
           (fun i => if Nat.eqb i (layer_idx self) then Some c else kv s i))
    end.

(* ================================================================== *)
(** ** [Mamba.forward] (lines 139-311) *)
(* ================================================================== *)

(** The inference cache object a caller may attach. *)
Inductive InferenceParams : Type := KeyValueMemory.

(** [forward] returns a bare tensor on its early exit and the pair
    [(out, gmu_mems)] at its end. *)
Inductive forward_result : Type :=
| Single (out : list vec)
| Pair (out : list vec) (gmu_mems : option (list vec)).

(** A module attribute that [__init__] sets only under a flag. *)
Definition read_attr (l : option loc) : M vec :=
  match l with
  | Some l => read_vec l
  | None => raise AttributeError
  end.

Definition read_jamba (self : Mamba) : M (option (vec * vec * vec)) :=
  if jamba_norm self then
    wdt <- read_attr (dt_layernorm self) ;;
    wb <- read_attr (b_layernorm self) ;;
    wc <- read_attr (c_layernorm self) ;;
    ret (Some (wdt, wb, wc))
  else ret None.

(** The test of line 166: the fused kernel is used. *)
Definition fast_path (self : Mamba) (cache : option (loc * loc)) : bool :=
  negb (jamba_norm self) && negb (gmu_save self) && use_fast_path self
  && match cache with None => true | Some _ => false end.

(** Lines 155-311, for a layer built with [use_cu_seqlen = False] and a call
    with [support_init_states = False]. *)
Definition forward_full (self : Mamba) (hidden_states : list vec)
    (cache : option (loc * loc)) (mask : option vec)
    (gmu_mems : option (list vec)) : M forward_result :=
  let seqlen := length hidden_states in
  in_w <- read_mat (in_proj_weight self) ;;
  let xz := matmul_T in_w hidden_states in
  in_b <- read_opt (in_proj_bias self) ;;
  let xz := match in_b with Some b => add_rows xz b | None => xz end in
  a_log <- read_mat (A_log self) ;;
  let A := neg_exp a_log in
  if fast_path self cache then
    conv_w <- read_mat (conv1d_weight self) ;;
    conv_b <- read_opt (conv1d_bias self) ;;
    x_w <- read_mat (x_proj_weight self) ;;
    dt_w <- read_mat (dt_proj_weight self) ;;
    out_w <- read_mat (out_proj_weight self) ;;
    out_b <- read_opt (out_proj_bias self) ;;
    skip <- read_vec (D self) ;;
    dt_b <- read_vec (dt_proj_bias self) ;;
    ret (Pair (mamba_inner_fn (d_state self) (dt_rank self) (d_conv self) seqlen
                 xz conv_w conv_b x_w dt_w out_w out_b A skip dt_b mask)
              gmu_mems)
  else
    let '(x, z) := chunk2 xz in
    let z := if gmu_save self then transpose seqlen z else z in
    let x := apply_mask mask x in
    (* Compute short convolution *)
    let ox := x in
    conv_w <- read_mat (conv1d_weight self) ;;
    conv_b <- read_opt (conv1d_bias self) ;;
    let x := conv_act conv_w conv_b (d_conv self) seqlen x in
    match cache with
    | Some (conv_state, _) =>
        write conv_state
          (T2 (map (pad_left (Z.of_nat (d_conv self) - Z.of_nat seqlen)) ox))
    | None => ret tt
    end ;;
    let x := apply_mask mask x in
    jamba <- read_jamba self ;;
    x_w <- read_mat (x_proj_weight self) ;;
    dt_w <- read_mat (dt_proj_weight self) ;;
    let '(dt, B, C) :=
      ssm_inputs jamba (d_state self) (dt_rank self) seqlen x_w dt_w x in
    skip <- read_vec (D self) ;;
    dt_b <- read_vec (dt_proj_bias self) ;;
    let '(y, last_state) :=
      selective_scan_fn x dt A B C skip
        (if gmu_save self then None else Some z) dt_b in
    match cache with
    | Some (_, ssm_state) => write ssm_state (T2 last_state)
    | None => ret tt
    end ;;
    let y := transpose seqlen y in
    let '(gmu_mems, y) :=
      if gmu_save self then (Some y, swiglu z y) else (gmu_mems, y) in
    out_w <- read_mat (out_proj_weight self) ;;
    out_b <- read_opt (out_proj_bias self) ;;
    ret (Pair (map (linear out_w out_b) y) gmu_mems).

Definition forward (self : Mamba) (hidden_states : list vec)
    (seq_idx : option (list nat)) (inference_params : option InferenceParams)
    (mask : option vec) (gmu_mems : option (list vec)) : M forward_result :=
  match inference_params with
  | Some _ =>
      '(conv_state, ssm_state) <- _get_states_from_cache self ;;
      if (length hidden_states =? 1)%nat then
        (* The states are updated inplace *)
        '(out, _, _) <- step self hidden_states conv_state ssm_state ;;
        ret (Single out)
      else forward_full self hidden_states (Some (conv_state, ssm_state)) mask gmu_mems
  | None => forward_full self hidden_states None mask gmu_mems
  end.

(* ================================================================== *)
(** ** [Mamba.__init__] (lines 34-137) *)
(* ================================================================== *)

(** A Python number: an [int] or a [float] (IEEE binary64, as
    [SpecFloat] with 53 bits of mantissa and exponent bound 1024). *)
Inductive number : Type :=
| PyInt (z : Z)
| PyFloat (f : SpecFloat.spec_float).

(** [float(z)], rounded to nearest even; an [int] beyond the range of
    [float] raises [OverflowError]. *)
Definition float_of_int (z : Z) : exn + SpecFloat.spec_float :=
  match SpecFloat.binary_normalize 53 1024 z 0 false with
  | SpecFloat.S754_infinity _ => inl OverflowError
  | f => inr f
  end.

(** [int(f)]: truncation towards zero; [int(nan)] raises [ValueError] and
    [int(inf)] raises [OverflowError]. *)
Definition int_of_float (f : SpecFloat.spec_float) : exn + Z :=
  match f with
  | SpecFloat.S754_zero _ => inr 0%Z
  | SpecFloat.S754_finite sign m e =>
      let magnitude :=
        match e with
        | Zneg p => Z.shiftr (Zpos m) (Zpos p)
        | _ => Z.shiftl (Zpos m) e
        end in
      inr (if sign then (- magnitude)%Z else magnitude)
  | SpecFloat.S754_infinity _ => inl OverflowError
  | SpecFloat.S754_nan => inl ValueError
  end.

(** Line 62: [int(self.expand * self.d_model)].  The product of two [int]s
    is exact; with a [float] factor the [int] is converted and the product
    is the binary64 product. *)
Definition int_expand (expand : number) (d_model : Z) : exn + Z :=
  match expand with
  | PyInt e => inr (e * d_model)%Z
  | PyFloat f =>
      match float_of_int d_model with
      | inl e => inl e
      | inr d => int_of_float (SpecFloat.SFmul 53 1024 f d)
      end
  end.

Definition lift {A : Type} (r : exn + A) : M A :=
  match r with inl e => raise e | inr a => ret a end.

(** The constructor's arguments.  [dt_rank = None] is the default ["auto"];
    [use_cu_seqlen] is [config is not None and config.use_cu_seqlen]. *)
Record InitArgs : Type := mkInitArgs {
  arg_d_model : Z;
  arg_d_state : Z;
  arg_d_conv : Z;
  arg_expand : number;
  arg_dt_rank : option Z;
  arg_dt_min : R;
  arg_dt_max : R;
  arg_dt_init : string;
  arg_dt_scale : R;
  arg_dt_init_floor : R;
  arg_jamba_norm : bool;
  arg_conv_bias : bool;
  arg_bias : bool;
  arg_use_fast_path : bool;
  arg_layer_idx : nat;
  arg_gmu_save : bool;
  arg_use_cu_seqlen : bool
}.

(** The values the random initialisers draw, by position in the tensor:
    the default initialisation of each [nn.Linear] and of the [nn.Conv1d]
    (weight and bias), the [uniform_] draw for the step-size projection (in
    units of [dt_init_std]) and the [torch.rand] draw for the step-size
    bias.  The constructor decides the shapes. *)
Record Draws : Type := mkDraws {
  in_proj_init : (nat -> nat -> R) * (nat -> R);
  conv1d_init : (nat -> nat -> R) * (nat -> R);
  x_proj_init : nat -> nat -> R;
  dt_proj_uniform : nat -> nat -> R;
  dt_rand : nat -> R;
  out_proj_init : (nat -> nat -> R) * (nat -> R)
}.

(** A tensor of the shape [(n)] or [(m, n)] filled by position. *)
Definition tabulate (n : nat) (f : nat -> R) : vec := map f (seq 0 n).
Definition tabulate2 (m n : nat) (f : nat -> nat -> R) : mat :=
  map (fun i => tabulate n (f i)) (seq 0 m).

(** [math.ceil(n / 16)]; the quotient by 16 is exact in binary64 for every
    width below [2^53], and is taken exactly. *)
Definition ceil_div16 (n : Z) : Z := (- ((- n) / 16))%Z.

(** [torch.empty(dims)] and the like refuse a negative dimension. *)
Definition check_dims (dims : list Z) : M unit :=
  if forallb (fun d => (0 <=? d)%Z) dims then ret tt else raise RuntimeError.

(** A tensor that exists only under a flag: a module's optional bias, the
    weights of the [jamba_norm] norms. *)
Definition alloc_opt (present : bool) (v : vec) : M (option loc) :=
  if present then l <- alloc (T1 v) ;; ret (Some l) else ret None.

(** [torch.arange(1, n + 1)] as reals. *)
Definition arange1 (n : nat) : vec := map INR (seq 1 n).

(** Lines 114-119: the step-size bias [inv_dt] from one [torch.rand] draw
    [u]; [expm1(x)] is [exp x - 1]. *)
Definition inv_dt (dt_min dt_max dt_init_floor u : R) : R :=
  let dt := Rmax (exp (u * (ln dt_max - ln dt_min) + ln dt_min)) dt_init_floor in
  dt + ln (- (exp (- dt) - 1)).

Definition __init__ (a : InitArgs) (rng : Draws) : M Mamba :=
  let d_model := arg_d_model a in
  let d_state := arg_d_state a in
  let d_conv := arg_d_conv a in
  d_inner <- lift (int_expand (arg_expand a) d_model) ;;
  let dt_rank :=
    match arg_dt_rank a with None => ceil_div16 d_model | Some r => r end in
  (* the three norms of jamba_norm *)
  (if arg_jamba_norm a then check_dims [dt_rank; d_state] else ret tt) ;;
  dt_ln <- alloc_opt (arg_jamba_norm a) (ones (Z.to_nat dt_rank)) ;;
  b_ln <- alloc_opt (arg_jamba_norm a) (ones (Z.to_nat d_state)) ;;
  c_ln <- alloc_opt (arg_jamba_norm a) (ones (Z.to_nat d_state)) ;;
  (* use_cu_seqlen imports from mamba_ssm, which is absent *)
  (if arg_use_cu_seqlen a then raise ImportError else ret tt) ;;
  (* in_proj: weight (d_inner * 2, d_model) *)
  check_dims [d_model; (d_inner * 2)%Z] ;;
  in_w <- alloc (T2 (tabulate2 (Z.to_nat (d_inner * 2)) (Z.to_nat d_model)
                               (fst (in_proj_init rng)))) ;;
  in_b <- alloc_opt (arg_bias a)
                    (tabulate (Z.to_nat (d_inner * 2)) (snd (in_proj_init rng))) ;;
  (* conv1d: groups = d_inner, weight (d_inner, 1, d_conv) *)
  (if (d_inner <=? 0)%Z then raise ValueError else ret tt) ;;
  check_dims [d_conv] ;;
  conv_w <- alloc (T2 (tabulate2 (Z.to_nat d_inner) (Z.to_nat d_conv)
                                 (fst (conv1d_init rng)))) ;;
  conv_b <- alloc_opt (arg_conv_bias a)
                      (tabulate (Z.to_nat d_inner) (snd (conv1d_init rng))) ;;
  (* x_proj: weight (dt_rank + d_state * 2, d_inner), no bias *)
  check_dims [(dt_rank + d_state * 2)%Z] ;;
  x_w <- alloc (T2 (tabulate2 (Z.to_nat (dt_rank + d_state * 2))
                              (Z.to_nat d_inner) (x_proj_init rng))) ;;
  (* dt_proj: weight (d_inner, dt_rank); weight and bias are set below *)
  check_dims [dt_rank] ;;
  (* dt_init_std = self.dt_rank**-0.5 * dt_scale *)
  (if (dt_rank =? 0)%Z then raise ZeroDivisionError else ret tt) ;;
  let dt_init_std := 1 / sqrt (IZR dt_rank) * arg_dt_scale a in
  dt_weight <-
    (if String.eqb (arg_dt_init a) "constant" then
       ret (repeat (repeat dt_init_std (Z.to_nat dt_rank)) (Z.to_nat d_inner))
     else if String.eqb (arg_dt_init a) "random" then
       (* uniform_(-std, std) refuses a range whose lower end is above its
          upper end *)
       if Rlt_dec dt_init_std (- dt_init_std) then raise RuntimeError
       else ret (tabulate2 (Z.to_nat d_inner) (Z.to_nat dt_rank)
                           (fun i j => dt_proj_uniform rng i j * dt_init_std))
     else raise NotImplementedError) ;;
  dt_w <- alloc (T2 dt_weight) ;;
  (* math.log(dt_max), math.log(dt_min) *)
  (if Rle_dec (arg_dt_max a) 0 then raise ValueError else ret tt) ;;
  (if Rle_dec (arg_dt_min a) 0 then raise ValueError else ret tt) ;;
  dt_b <- alloc (T1 (tabulate (Z.to_nat d_inner)
                       (fun i => inv_dt (arg_dt_min a) (arg_dt_max a)
                                        (arg_dt_init_floor a) (dt_rand rng i)))) ;;
  (* S4D real initialization *)
  check_dims [d_state] ;;
  let A := repeat (arange1 (Z.to_nat d_state)) (Z.to_nat d_inner) in
  a_log <- alloc (T2 (map (map ln) A)) ;;
  (* D "skip" parameter *)
  skip <- alloc (T1 (ones (Z.to_nat d_inner))) ;;
  (* out_proj: weight (d_model, d_inner) *)
  out_w <- alloc (T2 (tabulate2 (Z.to_nat d_model) (Z.to_nat d_inner)
                                (fst (out_proj_init rng)))) ;;
  out_b <- alloc_opt (arg_bias a)
                     (tabulate (Z.to_nat d_model) (snd (out_proj_init rng))) ;;
  ret (mkMamba (Z.to_nat d_model) (Z.to_nat d_state) (Z.to_nat d_conv)
         (Z.to_nat d_inner) (Z.to_nat dt_rank) (arg_use_fast_path a)
         (arg_layer_idx a) (arg_jamba_norm a) (arg_gmu_save a)
         in_w in_b conv_w conv_b x_w dt_w dt_b a_log skip out_w out_b
         dt_ln b_ln c_ln).

(* ================================================================== *)
(** ** The methods as functions of the tensors they read *)
(* ================================================================== *)

(** The values of the layer's parameters in a heap. *)
Record Weights : Type := mkWeights {
  w_in : mat;
  b_in : option vec;
  w_conv : mat;
  b_conv : option vec;
  w_x : mat;
  w_dt : mat;
  b_dt : vec;
  a_log : mat;
  w_skip : vec;
  w_out : mat;
  b_out : option vec
}.

Definition opt_vec (h : loc -> tensor) (l : option loc) : option vec :=
  match l with Some l => Some (as_vec (h l)) | None => None end.

Definition weights (self : Mamba) (h : loc -> tensor) : Weights :=
  mkWeights (as_mat (h (in_proj_weight self))) (opt_vec h (in_proj_bias self))
            (as_mat (h (conv1d_weight self))) (opt_vec h (conv1d_bias self))
            (as_mat (h (x_proj_weight self)))
            (as_mat (h (dt_proj_weight self))) (as_vec (h (dt_proj_bias self)))
            (as_mat (h (A_log self))) (as_vec (h (D self)))
            (as_mat (h (out_proj_weight self))) (opt_vec h (out_proj_bias self)).

(** Lines 316-317 of [step]: the two branches of the input projection. *)
Definition step_xz (W : Weights) (h : vec) : vec * vec :=
  chunk2 (linear (w_in W) (b_in W) h).

(** Lines 321-322: the ring buffer after the roll and the append. *)
Definition conv_update (cs : mat) (x : vec) : mat :=
  zipWith set_last (map roll_left cs) x.

(** Lines 323-326: the convolution output read off the ring buffer. *)
Definition conv_out (W : Weights) (cs : mat) : vec :=
  let x := map vsum (zipWith mul cs (w_conv W)) in
  let x := match b_conv W with Some b => add x b | None => x end in
  map silu x.

(** Lines 336-345: the realized step size and the two coupling vectors. *)
Definition step_dt (self : Mamba) (W : Weights) (x : vec) : vec :=
  let x_db := linear (w_x W) None x in
  let dt := fst (fst (split3 (dt_rank self) (d_state self) x_db)) in
  map softplus (add (linear (w_dt W) None dt) (b_dt W)).
Definition step_B (self : Mamba) (W : Weights) (x : vec) : vec :=
  snd (fst (split3 (dt_rank self) (d_state self) (linear (w_x W) None x))).
Definition step_C (self : Mamba) (W : Weights) (x : vec) : vec :=
  snd (split3 (dt_rank self) (d_state self) (linear (w_x W) None x)).

(** Lines 346-348: the recurrence state after the update. *)
Definition ssm_update (A : mat) (dt B x : vec) (ss : mat) : mat :=
  let dA := discretize_A dt A in
  let dB := discretize_B dt B in
  zipWith add (zipWith mul ss dA)
          (zipWith (fun x_d dB_d => map (fun g => x_d * g) dB_d) x dB).

(** Lines 349-350: the recurrence output before the gate. *)
Definition ssm_y (W : Weights) (ss : mat) (C x : vec) : vec :=
  add (map (fun s_d => dot s_d C) ss) (mul (w_skip W) x).

(** The whole of [step] on one token: output, ring buffer, state. *)
Definition step_pure (self : Mamba) (W : Weights) (h : vec) (cs ss : mat)
  : vec * mat * mat :=
  let '(x0, z) := step_xz W h in
  let cs' := conv_update cs x0 in
  let x := conv_out W cs' in
  let ss' := ssm_update (neg_exp (a_log W)) (step_dt self W x)
                        (step_B self W x) x ss in
  let y := mul (ssm_y W ss' (step_C self W x) x) (map silu z) in
  (linear (w_out W) (b_out W) y, cs', ss').

(** The cache tensors are distinct from each other and from every
    parameter of the layer. *)
Definition separate (self : Mamba) (conv_state ssm_state : loc) : Prop :=
  conv_state <> ssm_state
  /\ ~ In conv_state (parameters self)
  /\ ~ In ssm_state (parameters self).

(** [L] successive calls of [step], one token each, on one cache; the
    outputs are collected in order. *)
Fixpoint decode (self : Mamba) (tokens : list vec) (conv_state ssm_state : loc)
  : M (list vec) :=
  match tokens with
  | [] => ret []
  | h :: tokens' =>
      '(out, _, _) <- step self [h] conv_state ssm_state ;;
      outs <- decode self tokens' conv_state ssm_state ;;
      ret (out ++ outs)
  end.

(** Lines 156-162 of [forward]: the projected input [(2E, L)]. *)
Definition in_proj_T (W : Weights) (hidden_states : list vec) : mat :=
  let xz := matmul_T (w_in W) hidden_states in
  match b_in W with Some b => add_rows xz b | None => xz end.

(** The weights of the three norms, when [jamba_norm] is set. *)
Definition norm_weights (self : Mamba) (h : loc -> tensor)
  : option (vec * vec * vec) :=
  match jamba_norm self, dt_layernorm self, b_layernorm self,
        c_layernorm self with
  | true, Some ldt, Some lb, Some lc =>
      Some (as_vec (h ldt), as_vec (h lb), as_vec (h lc))
  | _, _, _, _ => None
  end.

(** [__init__] creates the three norms whenever it sets [jamba_norm]. *)
Definition norms_present (self : Mamba) : Prop :=
  jamba_norm self = true ->
  dt_layernorm self <> None /\ b_layernorm self <> None
  /\ c_layernorm self <> None.

(** The reference branch of [forward] as a function of the tensors it
    reads: output, convolution input, final state, pre-gate export. *)
Definition forward_pure (self : Mamba) (W : Weights)
    (jamba : option (vec * vec * vec)) (hidden_states : list vec)
    (mask : option vec) (gmu_mems : option (list vec))
  : list vec * mat * mat * option (list vec) :=
  reference_path (d_state self) (dt_rank self) (d_conv self)
    (length hidden_states) (gmu_save self) jamba
    (w_conv W) (b_conv W) (w_x W) (w_dt W) (b_dt W) (neg_exp (a_log W))
    (w_skip W) (w_out W) (b_out W) mask gmu_mems (in_proj_T W hidden_states).

(** The store after [forward] has written the cache it was given. *)
Definition cache_store (s : store) (cache : option (loc * loc)) (conv last : mat) : store :=
  match cache with
  | Some (cl, sl) => mkStore (upd (upd (heap s) cl (T2 conv)) sl (T2 last)) (next s) (kv s)
  | None => s
  end.

(** A method writes to no tensor outside [ls]. *)
Definition modifies {A : Type} (ls : list loc) (m : M A) : Prop :=
  forall s l, ~ In l ls -> heap (snd (m s)) l = heap s l.

(** The cache tensors of the layer after [_get_states_from_cache]: the
    recorded pair, or the two fresh tensors of the first call. *)
Definition cache_of (self : Mamba) (s : store) : loc * loc :=
  match kv s (layer_idx self) with
  | Some c => c
  | None => (next s, S (next s))
  end.

(** The inner width and the rank that [__init__] computes (lines 62-63);
    the inner width is 0 where [int(expand * d_model)] raises. *)
Definition init_d_inner (a : InitArgs) : Z :=
  match int_expand (arg_expand a) (arg_d_model a) with
  | inr z => z
  | inl _ => 0%Z
  end.
Definition init_dt_rank (a : InitArgs) : Z :=
  match arg_dt_rank a with None => ceil_div16 (arg_d_model a) | Some r => r end.

(** The two values of [dt_init] that [__init__] knows (lines 106-111). *)
Definition supported_dt_init (a : InitArgs) : Prop :=
  arg_dt_init a = "constant"%string \/ arg_dt_init a = "random"%string.

(** The configurations on which every step of [__init__] goes through. *)
Record constructible (a : InitArgs) : Prop := mkConstructible {
  ok_model : (0 <= arg_d_model a)%Z;
  ok_inner : (0 < init_d_inner a)%Z;
  ok_state : (0 <= arg_d_state a)%Z;
  ok_conv : (0 <= arg_d_conv a)%Z;
  ok_rank : (0 < init_dt_rank a)%Z;
  ok_init : supported_dt_init a;
  ok_scale : arg_dt_init a = "random"%string -> 0 <= arg_dt_scale a;
  ok_min : 0 < arg_dt_min a;
  ok_max : 0 < arg_dt_max a;
  ok_cu : arg_use_cu_seqlen a = false
}.

(** [s'] has every tensor of [s], unchanged, and possibly new ones. *)
Definition extends (s s' : store) : Prop :=
  (next s <= next s')%nat /\ forall l, (l < next s)%nat -> heap s' l = heap s l.

(** The realized decay rate [-exp(A_log[d, n])] of a layer in a store. *)
Definition decay_rate (self : Mamba) (s : store) (d n : nat) : R :=
  nth n (nth d (neg_exp (as_mat (heap s (A_log self)))) []) 0.

(** A sequence of [N] reals that grows geometrically: each term is the
    previous one times a common ratio. *)
Definition geometric (f : nat -> R) (N : nat) : Prop :=
  exists r, forall n, (S n < N)%nat -> f (S n) = r * f n.

(** A store with nothing in it. *)
Definition empty_store : store := mkStore (fun _ => T1 []) 0%nat (fun _ => None).

(** A small configuration: model width 1, [expand = 1], convolution width
    2, rank ["auto"], the default step-size window, and a state width. *)
Definition small_args (d_state : Z) : InitArgs :=
  mkInitArgs 1 d_state 2 (PyInt 1) None (1 / 1000) (1 / 10) "random" 1
             (1 / 10000) false true false true 0 false false.

(** Draws that give every weight 1, every bias 0 and the middle of the
    step-size window. *)
Definition small_draws : Draws :=
  mkDraws (fun _ _ => 1, fun _ => 0) (fun _ _ => 1, fun _ => 0)
          (fun _ _ => 1) (fun _ _ => 1) (fun _ => 1 / 2)
          (fun _ _ => 1, fun _ => 0).

(** The [float] nearest to the fraction [n / d], which is what the decimal
    literal of that fraction denotes. *)
Definition float_lit (n d : Z) : SpecFloat.spec_float :=
  SpecFloat.SFdiv 53 1024 (SpecFloat.binary_normalize 53 1024 n 0 false)
                  (SpecFloat.binary_normalize 53 1024 d 0 false).

(** A configuration with a fractional [expand]: model width 10 and
    [expand = 0.7]. *)
Definition fractional_args : InitArgs :=
  mkInitArgs 10 1 2 (PyFloat (float_lit 7 10)) None (1 / 1000) (1 / 10)
             "random" 1 (1 / 10000) false true false true 0 false false.

(** A layer of width one in every dimension (model, inner, state, rank,
    convolution), with its parameters at locations 0 to 7, the norm weights
    at 10 to 12 and a zeroed cache at 8 and 9. *)
Definition tiny_heap (l : loc) : tensor :=
  match l with
  | 0%nat => T2 [[1]; [1]]
  | 1%nat => T2 [[1]]
  | 2%nat => T2 [[0]; [1]; [1]]
  | 3%nat => T2 [[1]]
  | 4%nat => T1 [0]
  | 5%nat => T2 [[0]]
  | 6%nat => T1 [1]
  | 7%nat => T2 [[1]]
  | 8%nat => T2 [[0]]
  | 9%nat => T2 [[0]]
  | 10%nat | 11%nat | 12%nat => T1 [1]
  | _ => T1 []
  end.

Definition tiny_store : store :=
  mkStore tiny_heap 13%nat
          (fun i => if Nat.eqb i 0 then Some (8%nat, 9%nat) else None).

Definition tiny_layer (jamba_norm : bool) : Mamba :=
  mkMamba 1 1 1 1 1 true 0 jamba_norm false
          0%nat None 1%nat None 2%nat 3%nat 4%nat 5%nat 6%nat 7%nat None
          (if jamba_norm then Some 10%nat else None)
          (if jamba_norm then Some 11%nat else None)
          (if jamba_norm then Some 12%nat else None).

(** Successive single-token steps as a function of the tensors read:
    outputs in order, final ring buffer, final state. *)
Fixpoint decode_pure (self : Mamba) (W : Weights) (tokens : list vec)
    (cs ss : mat) : list vec * mat * mat :=
  match tokens with
  | [] => ([], cs, ss)
  | h :: tokens' =>
      let '(out, cs', ss') := step_pure self W h cs ss in
      let '(outs, cs'', ss'') := decode_pure self W tokens' cs' ss' in
      (out :: outs, cs'', ss'')
  end.

(** A depthwise convolution of width four on one channel: filter, bias, a
    ring buffer with stale content and four tokens. *)
Definition conv4_layer : Mamba :=
  mkMamba 1 1 4 1 1 true 0 false false
          0%nat None 1%nat (Some 8%nat) 2%nat 3%nat 4%nat 5%nat 6%nat 7%nat
          None None None None.

Definition conv4_weights : Weights :=
  mkWeights [[1]; [1]] None [[1; 2; 3; 4]] (Some [1 / 2]) [[0]; [1]; [1]]
            [[1]] [0] [[0]] [1] [[1]] None.

Definition conv4_buffer : mat := [[9; 9; 9; 9]].
Definition conv4_tokens : list vec := [[1]; [2]; [3]; [5]].

(** The same layer in a store: its parameters at locations 0 to 8, the
    stale ring buffer at 9 and a recurrence state at 10. *)
Definition conv4_heap (l : loc) : tensor :=
  match l with
  | 0%nat => T2 [[1]; [1]]
  | 1%nat => T2 [[1; 2; 3; 4]]
  | 2%nat => T2 [[0]; [1]; [1]]
  | 3%nat => T2 [[1]]
  | 4%nat => T1 [0]
  | 5%nat => T2 [[0]]
  | 6%nat => T1 [1]
  | 7%nat => T2 [[1]]
  | 8%nat => T1 [1 / 2]
  | 9%nat => T2 conv4_buffer
  | 10%nat => T2 [[0]]
  | _ => T1 []
  end.

Definition conv4_store : store :=
  mkStore conv4_heap 11%nat
          (fun i => match i with 0%nat => Some (9%nat, 10%nat) | _ => None end).

(** The ring buffer along a sequence of tokens: the convolution output
    after each token, and the final buffer. *)
Fixpoint conv_scan (W : Weights) (xs : list vec) (cs : mat) : list vec * mat :=
  match xs with
  | [] => ([], cs)
  | x :: xs' =>
      let cs' := conv_update cs x in
      let '(outs, last) := conv_scan W xs' cs' in
      (conv_out W cs' :: outs, last)
  end.

(** The recurrence of [step] along a sequence of convolved tokens: the
    output before the gate after each token, and the final state. *)
Fixpoint ssm_scan (self : Mamba) (W : Weights) (xs : list vec) (ss : mat)
  : list vec * mat :=
  match xs with
  | [] => ([], ss)
  | x :: xs' =>
      let ss' := ssm_update (neg_exp (a_log W)) (step_dt self W x)
                            (step_B self W x) x ss in
      let '(ys, last) := ssm_scan self W xs' ss' in
      (ssm_y W ss' (step_C self W x) x :: ys, last)
  end.

(** The gate and the output projection on a whole sequence. *)
Definition gate_out (W : Weights) (ys zs : list vec) : list vec :=
  map (linear (w_out W) (b_out W))
      (zipWith (fun y z => mul y (map silu z)) ys zs).

(** [x * mask.unsqueeze(1)] on a tensor held token by token: token [t] is
    multiplied by [mask[t]]. *)
Definition scale_tokens (mask : option vec) (xs : list vec) : list vec :=
  match mask with
  | Some m => zipWith (fun x m_t => map (fun a => a * m_t) x) xs m
  | None => xs
  end.

(** The shapes [__init__] gives the parameters, and the shapes of the
    cache tensors [(E, K)] and [(E, N)]. *)
Definition rows (n : nat) (m : mat) : Prop := Forall (fun r => length r = n) m.

Definition opt_length (n : nat) (o : option vec) : Prop :=
  match o with Some b => length b = n | None => True end.

Record shaped (self : Mamba) (W : Weights) : Prop := mkShaped {
  sh_in : length (w_in W) = (2 * d_inner self)%nat;
  sh_in_b : opt_length (2 * d_inner self) (b_in W);
  sh_conv : length (w_conv W) = d_inner self;
  sh_conv_rows : rows (d_conv self) (w_conv W);
  sh_conv_b : opt_length (d_inner self) (b_conv W);
  sh_x : length (w_x W) = (dt_rank self + (d_state self + d_state self))%nat;
  sh_dt : length (w_dt W) = d_inner self;
  sh_dt_b : length (b_dt W) = d_inner self;
  sh_A : length (a_log W) = d_inner self;
  sh_A_rows : rows (d_state self) (a_log W);
  sh_D : length (w_skip W) = d_inner self
}.

Record cache_shaped (self : Mamba) (cs ss : mat) : Prop := mkCacheShaped {
  sh_cs : length cs = d_inner self;
  sh_cs_rows : rows (d_conv self) cs;
  sh_ss : length ss = d_inner self;
  sh_ss_rows : rows (d_state self) ss
}.

(* ================================================================== *)
(** ** Allocation and configuration bookkeeping *)
(* ================================================================== *)

(** The tensors at [ls] were allocated between [s] and [s']: they are
    pairwise distinct and new, every tensor of [s] is unchanged and the
    cache registry is the same. *)
Definition grows (s s' : store) (ls : list loc) : Prop :=
  extends s s' /\ kv s' = kv s /\ NoDup ls
  /\ Forall (fun l => (next s <= l < next s')%nat) ls.

(** An optional tensor of [__init__]: present with the value [v] exactly
    when the flag [b] is set. *)
Definition opt_held (s : store) (b : bool) (o : option loc) (v : vec) : Prop :=
  match o with
  | Some l => b = true /\ (l < next s)%nat /\ heap s l = T1 v
  | None => b = false
  end.

(** The layer [self] as it is built with another value of [gmu_save]. *)
Definition with_gmu_save (b : bool) (self : Mamba) : Mamba :=
  mkMamba (d_model self) (d_state self) (d_conv self) (d_inner self)
          (dt_rank self) (use_fast_path self) (layer_idx self)
          (jamba_norm self) b
          (in_proj_weight self) (in_proj_bias self) (conv1d_weight self)
          (conv1d_bias self) (x_proj_weight self) (dt_proj_weight self)
          (dt_proj_bias self) (A_log self) (D self) (out_proj_weight self)
          (out_proj_bias self) (dt_layernorm self) (b_layernorm self)
          (c_layernorm self).

(* ================================================================== *)
(** ** The evaluation prompts of [eval_reason.py] *)
(* ================================================================== *)

Module EvalReason.

(** The exceptions of the prompt functions: a missing column of the dataset
    row, and the errors of [str.format].  [NotModelled] marks a replacement
    field with a conversion, a format specification, an attribute or an
    index, which the templates of the file do not use. *)
Inductive error : Type :=
| KeyError (key : string)
| ValueError (msg : string)
| IndexError
| NotModelled.

Definition bindE {A B : Type} (m : error + A) (k : A -> error + B)
  : error + B :=
  match m with inl e => inl e | inr a => k a end.

Declare Scope error_scope.
Delimit Scope error_scope with error.
Notation "x <- m ;; k" := (bindE m (fun x => k))
  (at level 61, m at next level, right associativity) : error_scope.
Local Open Scope error_scope.
Local Open Scope string_scope.

(** A row of a dataset: column name to text.  [line[key]]. *)
Definition Row : Type := list (string * string).

Fixpoint getitem (line : Row) (key : string) : error + string :=
  match line with
  | [] => inl (KeyError key)
  | (k, v) :: rest => if String.eqb k key then inr v else getitem rest key
  end.

(** [l[i]] and [l.insert(i, x)] for a non-negative [i]; an index past the
    end appends. *)
Definition index (l : list string) (i : nat) : error + string :=
  match nth_error l i with Some x => inr x | None => inl IndexError end.

Definition insert (i : nat) (x : string) (l : list string) : list string :=
  firstn i l ++ x :: skipn i l.

(** The fields of [lighteval]'s [Doc] that the file sets. *)
Record Doc : Type := mkDoc {
  task_name : option string;
  query : string;
  choices : list string;
  gold_index : nat;
  instruction : option string
}.

(** [str.strip()] on ASCII text. *)
Definition is_space (c : ascii) : bool :=
  let n := nat_of_ascii c in
  ((9 <=? n) && (n <=? 13) || (28 <=? n) && (n <=? 32))%nat.

Fixpoint lstrip (s : string) : string :=
  match s with
  | String c rest => if is_space c then lstrip rest else s
  | EmptyString => s
  end.

Fixpoint rstrip (s : string) : string :=
  match s with
  | String c rest =>
      match rstrip rest with
      | EmptyString => if is_space c then EmptyString else String c EmptyString
      | r => String c r
      end
  | EmptyString => s
  end.

Definition strip (s : string) : string := rstrip (lstrip s).

(** [template.format(...)] called with keyword arguments only.  The template
    is read from left to right: [{{] and [}}] give one brace, [{name}] gives
    the argument of that name, copied as it is. *)
Inductive fstate : Type :=
| InText
| AfterOpen
| InField (name : string)
| AfterClose.

Definition is_digit (c : ascii) : bool :=
  let n := nat_of_ascii c in ((48 <=? n) && (n <=? 57))%nat.

Fixpoint all_digits (s : string) : bool :=
  match s with
  | String c rest => is_digit c && all_digits rest
  | EmptyString => true
  end.

Definition plain_name (c : ascii) : bool :=
  negb (Ascii.eqb c "!" || Ascii.eqb c ":" || Ascii.eqb c "."
        || Ascii.eqb c "[")%char.

Definition field_value (kwargs : Row) (name : string) : error + string :=
  if all_digits name then inl IndexError else getitem kwargs name.

Fixpoint format_from (st : fstate) (template : string) (kwargs : Row)
  : error + string :=
  match template with
  | EmptyString =>
      match st with
      | InText => inr EmptyString
      | AfterOpen => inl (ValueError "Single '{' encountered in format string")
      | InField _ => inl (ValueError "expected '}' before end of string")
      | AfterClose => inl (ValueError "Single '}' encountered in format string")
      end
  | String c rest =>
      match st with
      | InText =>
          if Ascii.eqb c "{" then format_from AfterOpen rest kwargs
          else if Ascii.eqb c "}" then format_from AfterClose rest kwargs
          else r <- format_from InText rest kwargs ;; inr (String c r)
      | AfterOpen =>
          if Ascii.eqb c "{" then
            r <- format_from InText rest kwargs ;; inr (String c r)
          else if Ascii.eqb c "}" then inl IndexError
          else if plain_name c then
            format_from (InField (String c EmptyString)) rest kwargs
          else inl NotModelled
      | InField name =>
          if Ascii.eqb c "}" then
            v <- field_value kwargs name ;;
            r <- format_from InText rest kwargs ;;
            inr (v ++ r)
          else if Ascii.eqb c "{" then
            inl (ValueError "unexpected '{' in field name")
          else if plain_name c then
            format_from (InField (name ++ String c EmptyString)) rest kwargs
          else inl NotModelled
      | AfterClose =>
          if Ascii.eqb c "}" then
            r <- format_from InText rest kwargs ;; inr (String c r)
          else inl (ValueError "Single '}' encountered in format string")
      end
  end.

Definition format (template : string) (kwargs : Row) : error + string :=
  format_from InText template kwargs.

Definition newline : string := String (ascii_of_nat 10) EmptyString.

(** Line 80. *)
Definition MATH_QUERY_TEMPLATE : string :=
  "Please reason step by step, and put your final answer within \boxed{{}}. {Question}".

(** Lines 82-85. *)
Definition get_prompt (user : string) : string := user.

(** Lines 87-95. *)
Definition prompt_fn (line : Row) (task : option string) : error + Doc :=
  problem <- getitem line "problem" ;;
  q <- format MATH_QUERY_TEMPLATE [("Question", problem)] ;;
  solution <- getitem line "solution" ;;
  inr (mkDoc task q [solution] 0 None).

(** Lines 98-105. *)
Definition aime_prompt_fn (line : Row) (task : option string) : error + Doc :=
  problem <- getitem line "problem" ;;
  q <- format MATH_QUERY_TEMPLATE [("Question", problem)] ;;
  answer <- getitem line "answer" ;;
  inr (mkDoc task q [answer] 0 None).

(** Lines 111-118: the text between the triple quotes, stripped. *)
Definition GPQA_QUERY_TEMPLATE : string :=
  strip ("  " ++ newline
         ++ "Please reason step by step, and put your final choice of one letter from A/B/C/D within \boxed{{}}. {Question}"
         ++ newline ++ newline
         ++ "A) {A}" ++ newline
         ++ "B) {B}" ++ newline
         ++ "C) {C}" ++ newline
         ++ "D) {D}" ++ newline).

(** Lines 120-133.  [randint] is the value that [random.randint(0, 3)]
    returns, between 0 and 3 inclusive. *)
Definition gpqa_prompt_fn (randint : nat) (line : Row) (task : option string)
  : error + Doc :=
  let gold := randint in
  i1 <- getitem line "Incorrect Answer 1" ;;
  i2 <- getitem line "Incorrect Answer 2" ;;
  i3 <- getitem line "Incorrect Answer 3" ;;
  correct <- getitem line "Correct Answer" ;;
  let cs := insert gold correct [i1; i2; i3] in
  a <- index cs 0 ;;
  b <- index cs 1 ;;
  c <- index cs 2 ;;
  d <- index cs 3 ;;
  question <- getitem line "Question" ;;
  q <- format GPQA_QUERY_TEMPLATE
         [("A", a); ("B", b); ("C", c); ("D", d); ("Question", question)] ;;
  inr (mkDoc task q ["A"; "B"; "C"; "D"] gold (Some q)).

End EvalReason.

(* ================================================================== *)
(** ** Stores *)
(* ================================================================== *)

Lemma upd_eq (h : loc -> tensor) l t : upd h l t l = t.
Proof. unfold upd. now rewrite Nat.eqb_refl. Qed.

Lemma upd_neq (h : loc -> tensor) l l' t : l' <> l -> upd h l t l' = h l'.
Proof.
  intros Hne. unfold upd.
  destruct (Nat.eqb_spec l' l); [contradiction | reflexivity].
Qed.

Lemma upd_upd (h : loc -> tensor) l t t' : upd (upd h l t) l t' = upd h l t'.
Proof.
  apply functional_extensionality. intros l'. unfold upd.
  now destruct (Nat.eqb l' l).
Qed.

Lemma opt_vec_upd h l t o :
  ~ In l (opt_loc o) -> opt_vec (upd h l t) o = opt_vec h o.
Proof.
  destruct o as [l'|]; simpl; [|reflexivity].
  intros Hn. rewrite upd_neq; [reflexivity|]. intros ->. apply Hn. now left.
Qed.

(** A write outside the parameters leaves their values alone. *)
Lemma weights_upd self h l t :
  ~ In l (parameters self) -> weights self (upd h l t) = weights self h.
Proof.
  unfold parameters. intros Hn.
  assert (Hp : forall p, In p [in_proj_weight self; conv1d_weight self;
                 x_proj_weight self; dt_proj_weight self; dt_proj_bias self;
                 A_log self; D self; out_proj_weight self] -> p <> l).
  { intros p Hp ->. apply Hn. apply in_or_app. now left. }
  assert (Ho : forall o, In o [in_proj_bias self; conv1d_bias self;
                 out_proj_bias self] -> ~ In l (opt_loc o)).
  { intros o Ho Hl. apply Hn. apply in_or_app. right.
    simpl in Ho.
    repeat (apply in_or_app;
            destruct Ho as [<- | Ho]; [now left | right]).
    contradiction. }
  unfold weights.
  rewrite !opt_vec_upd by (apply Ho; simpl; auto).
  rewrite !upd_neq by (apply Hp; simpl; auto 10).
  reflexivity.
Qed.

Lemma read_opt_run o s : read_opt o s = (inr (opt_vec (heap s) o), s).
Proof. destruct o; reflexivity. Qed.

Lemma params_fixed self l :
  In l [in_proj_weight self; conv1d_weight self; x_proj_weight self;
        dt_proj_weight self; dt_proj_bias self; A_log self; D self;
        out_proj_weight self] -> In l (parameters self).
Proof. intros H. unfold parameters. apply in_or_app. now left. Qed.

Lemma params_opt self o l :
  In o [in_proj_bias self; conv1d_bias self; out_proj_bias self;
        dt_layernorm self; b_layernorm self; c_layernorm self] ->
  In l (opt_loc o) -> In l (parameters self).
Proof.
  intros Ho Hl. unfold parameters. apply in_or_app. right. simpl in Ho.
  repeat (destruct Ho as [<- | Ho];
          [repeat (first [assumption
                         | apply in_or_app; (left; assumption) || right]) | ]).
  contradiction.
Qed.

(** Side conditions of heap rewriting: a cache location is no parameter. *)
Ltac sep_side :=
  match goal with
  | Hn : ~ In ?c (parameters ?self) |- ?l <> ?c =>
      let E := fresh in
      intros E; apply Hn; rewrite <- E; apply params_fixed; simpl; auto 12
  | Hn : ~ In ?c (parameters ?self) |- ~ In ?c (opt_loc ?o) =>
      let E := fresh in
      intros E; apply Hn; apply (params_opt self o); [simpl; auto 12 | exact E]
  | |- _ <> _ => congruence
  end.

Ltac heap_norm :=
  repeat first
    [ rewrite upd_eq
    | rewrite upd_upd
    | rewrite upd_neq by sep_side
    | rewrite opt_vec_upd by sep_side ].

(** What one call of [step] does to the store when the cache is separate
    from the parameters. *)
Lemma step_run self h conv_state ssm_state s :
  separate self conv_state ssm_state ->
  step self [h] conv_state ssm_state s =
  let W := weights self (heap s) in
  let r := step_pure self W h (as_mat (heap s conv_state))
                     (as_mat (heap s ssm_state)) in
  (inr ([fst (fst r)], conv_state, ssm_state),
   mkStore (upd (upd (heap s) conv_state (T2 (snd (fst r))))
                ssm_state (T2 (snd r)))
           (next s) (kv s)).
Proof.
  intros (Hcs & Hc & Hs).
  unfold step, bind, assert_, ret, read_mat, read_vec, write.
  simpl.
  repeat (rewrite read_opt_run; simpl).
  heap_norm.
  unfold step_pure, step_xz, conv_update, conv_out, ssm_update, ssm_y,
    step_dt, step_B, step_C, weights.
  simpl. reflexivity.
Qed.

(** The three norm weights are read without any write. *)
Lemma read_jamba_run self s :
  norms_present self ->
  read_jamba self s = (inr (norm_weights self (heap s)), s).
Proof.
  unfold norms_present, read_jamba, norm_weights. intros H.
  destruct (jamba_norm self); [|reflexivity].
  destruct (H eq_refl) as (H1 & H2 & H3).
  destruct (dt_layernorm self); [|congruence].
  destruct (b_layernorm self); [|congruence].
  destruct (c_layernorm self); [|congruence].
  reflexivity.
Qed.

Lemma norm_weights_upd self h l t :
  ~ In l (parameters self) -> norm_weights self (upd h l t) = norm_weights self h.
Proof.
  intros Hn. unfold norm_weights.
  destruct (jamba_norm self); [|reflexivity].
  destruct (dt_layernorm self) as [a|] eqn:Ha; [|reflexivity].
  destruct (b_layernorm self) as [b|] eqn:Hb; [|reflexivity].
  destruct (c_layernorm self) as [c|] eqn:Hc; [|reflexivity].
  rewrite !upd_neq; [reflexivity| | |].
  - intros ->. apply Hn. apply (params_opt self (c_layernorm self)); [simpl; auto 12|]. rewrite Hc. now left.
  - intros ->. apply Hn. apply (params_opt self (b_layernorm self)); [simpl; auto 12|]. rewrite Hb. now left.
  - intros ->. apply Hn. apply (params_opt self (dt_layernorm self)); [simpl; auto 12|]. rewrite Ha. now left.
Qed.

(** What [forward_full] does to the store: the reference branch writes the
    cache, the fast path writes nothing. *)
Lemma forward_full_run self hs cache mask gmu s :
  norms_present self ->
  match cache with Some (cl, sl) => separate self cl sl | None => True end ->
  forward_full self hs cache mask gmu s =
  let W := weights self (heap s) in
  if fast_path self cache then
    (inr (Pair (mamba_inner_fn (d_state self) (dt_rank self) (d_conv self)
                  (length hs) (in_proj_T W hs) (w_conv W) (b_conv W) (w_x W)
                  (w_dt W) (w_out W) (b_out W) (neg_exp (a_log W)) (w_skip W)
                  (b_dt W) mask) gmu), s)
  else
    let r := forward_pure self W (norm_weights self (heap s)) hs mask gmu in
    (inr (Pair (fst (fst (fst r))) (snd r)),
     cache_store s cache
       (map (pad_left (Z.of_nat (d_conv self) - Z.of_nat (length hs)))
            (snd (fst (fst r))))
       (snd (fst r))).
Proof.
  intros Hn Hsep.
  unfold forward_full, bind, ret, read_mat, read_vec. cbv zeta.
  rewrite !read_opt_run. cbn [heap].
  destruct (fast_path self cache) eqn:Hfp.
  - rewrite !read_opt_run. reflexivity.
  - unfold forward_pure, reference_path, in_proj_T, weights.
    cbn [w_in b_in w_conv b_conv w_x w_dt b_dt a_log w_skip w_out b_out].
    destruct (chunk2 _) as [x z] eqn:Hxz. rewrite !read_opt_run.
    destruct cache as [[cl sl]|].
    + destruct Hsep as (Hcs & Hc & Hs).
      unfold write. cbn [heap next kv].
      rewrite read_jamba_run by assumption. cbn [heap].
      rewrite norm_weights_upd by assumption. heap_norm.
      destruct (ssm_inputs _ _ _ _ _ _ _) as [[dt B] C].
      cbn [heap]. heap_norm.
      destruct (selective_scan_fn _ _ _ _ _ _ _ _) as [y last].
      cbn [heap next kv].
      destruct (gmu_save self); rewrite read_opt_run; cbn [heap fst snd];
        heap_norm; unfold cache_store; reflexivity.
    + rewrite read_jamba_run by assumption.
      destruct (ssm_inputs _ _ _ _ _ _ _) as [[dt B] C].
      destruct (selective_scan_fn _ _ _ _ _ _ _ _) as [y last].
      destruct (gmu_save self); rewrite read_opt_run; reflexivity.
Qed.

(* ================================================================== *)
(** ** Lists and vectors *)
(* ================================================================== *)

Section ZipWith.
Context {A B C : Type} (f : A -> B -> C).

Lemma zipWith_length (l1 : list A) (l2 : list B) :
  length (zipWith f l1 l2) = Nat.min (length l1) (length l2).
Proof.
  revert l2. induction l1 as [|a l1 IH]; intros [|b l2]; simpl; auto.
Qed.

Lemma nth_zipWith (l1 : list A) (l2 : list B) i da db dc :
  (i < length l1)%nat -> (i < length l2)%nat ->
  nth i (zipWith f l1 l2) dc = f (nth i l1 da) (nth i l2 db).
Proof.
  revert l2 i. induction l1 as [|a l1 IH]; intros [|b l2] [|i]; simpl;
    intros H1 H2; try lia; auto.
  apply IH; lia.
Qed.

Lemma Forall_zipWith (PA : A -> Prop) (PB : B -> Prop) (PC : C -> Prop)
      (l1 : list A) (l2 : list B) :
  (forall a b, PA a -> PB b -> PC (f a b)) ->
  Forall PA l1 -> Forall PB l2 -> Forall PC (zipWith f l1 l2).
Proof.
  intros Hf H1. revert l2. induction H1 as [|a l1 Ha _ IH];
    intros l2 H2; simpl; [constructor|].
  destruct H2 as [|b l2 Hb H2]; constructor; auto.
Qed.
End ZipWith.

Lemma nth_map_in {A B : Type} (f : A -> B) (l : list A) i da db :
  (i < length l)%nat -> nth i (map f l) db = f (nth i l da).
Proof.
  revert i. induction l as [|a l IH]; intros [|i]; simpl; intros H;
    try lia; auto.
  apply IH; lia.
Qed.

Lemma nth_firstn_lt {A : Type} (l : list A) i n d :
  (i < n)%nat -> nth i (firstn n l) d = nth i l d.
Proof.
  revert i n. induction l as [|a l IH]; intros i [|n] H; try lia.
  - now destruct i.
  - destruct i; simpl; [reflexivity|]. apply IH. lia.
Qed.

Lemma mul_comm (u v : vec) : mul u v = mul v u.
Proof.
  unfold mul. revert v. induction u as [|a u IH]; intros [|b v]; simpl; auto.
  now rewrite IH, Rmult_comm.
Qed.

Lemma dot_comm (u v : vec) : dot u v = dot v u.
Proof. unfold dot. now rewrite mul_comm. Qed.

(** The sum of a vector is the sum of its entries by index. *)
Lemma vsum_nth (v : vec) :
  vsum v = vsum (map (fun n => nth n v 0) (seq 0 (length v))).
Proof.
  induction v as [|a v IH]; simpl; [reflexivity|].
  rewrite <- seq_shift, map_map. now rewrite <- IH.
Qed.

(* ================================================================== *)
(** ** The activations *)
(* ================================================================== *)

Lemma softplus_pos (x : R) : 0 < softplus x.
Proof.
  unfold softplus. destruct (Rlt_dec 20 x) as [H|H]; [lra|].
  rewrite <- ln_1. apply ln_increasing; [lra|].
  pose proof (exp_pos x). lra.
Qed.

Lemma decay_range (dt a : R) : 0 < dt -> a < 0 -> 0 < exp (dt * a) <= 1.
Proof.
  intros Hdt Ha. split; [apply exp_pos|].
  left. rewrite <- exp_0. apply exp_increasing. nra.
Qed.

(* ================================================================== *)
(** ** The stability invariant *)
(* ================================================================== *)

Lemma neg_exp_negative (A_log : mat) :
  Forall (Forall (fun a => a < 0)) (neg_exp A_log).
Proof.
  unfold neg_exp. apply Forall_map, Forall_forall. intros row _.
  apply Forall_map, Forall_forall. intros a _.
  pose proof (exp_pos a). lra.
Qed.

Lemma step_dt_positive self W x : Forall (fun dt => 0 < dt) (step_dt self W x).
Proof.
  unfold step_dt. apply Forall_map, Forall_forall. intros v _.
  apply softplus_pos.
Qed.

(** Over the reals, the step size [softplus(dt + dt_bias)] is strictly
    positive in every channel, the decay parameter [A = -exp(A_log)] is
    strictly negative in every entry, and every decay factor
    [exp(dt * A)] lies in [(0, 1]].  The strict bounds are facts of real
    arithmetic: in [float32] the exponential and [softplus] underflow to
    zero at finite arguments, which this embedding does not express. *)
Lemma decay_factor_real_bounds (self : Mamba) (W : Weights) (x : vec) :
  Forall (fun dt => 0 < dt) (step_dt self W x)
  /\ Forall (Forall (fun a => a < 0)) (neg_exp (a_log W))
  /\ Forall (Forall (fun dA => 0 < dA <= 1))
            (discretize_A (step_dt self W x) (neg_exp (a_log W))).
Proof.
  split; [apply step_dt_positive|]. split; [apply neg_exp_negative|].
  unfold discretize_A.
  apply (Forall_zipWith _ (fun dt => 0 < dt) (Forall (fun a => a < 0)));
    [|apply step_dt_positive|apply neg_exp_negative].
  intros dt A_d Hdt HA. apply Forall_map.
  eapply Forall_impl; [|exact HA]. intros a Ha. now apply decay_range.
Qed.

(* ================================================================== *)
(** ** Shapes along [step] *)
(* ================================================================== *)

Lemma add_length (u v : vec) : length (add u v) = Nat.min (length u) (length v).
Proof. apply zipWith_length. Qed.

Lemma mul_length (u v : vec) : length (mul u v) = Nat.min (length u) (length v).
Proof. apply zipWith_length. Qed.

Lemma linear_length W b x :
  opt_length (length W) b -> length (linear W b x) = length W.
Proof.
  unfold linear. destruct b as [b|]; simpl; intros H.
  - rewrite add_length, length_map. lia.
  - now rewrite length_map.
Qed.

Lemma rows_nth n m d : rows n m -> (d < length m)%nat -> length (nth d m []) = n.
Proof.
  unfold rows. rewrite Forall_forall. intros H Hd. apply H, nth_In, Hd.
Qed.

Section StepShapes.
Variables (self : Mamba) (W : Weights) (h : vec) (cs ss : mat).
Hypothesis HW : shaped self W.
Hypothesis HC : cache_shaped self cs ss.

Lemma step_xz_length :
  length (linear (w_in W) (b_in W) h) = (2 * d_inner self)%nat.
Proof.
  rewrite linear_length; [apply (sh_in _ _ HW)|].
  rewrite (sh_in _ _ HW). apply (sh_in_b _ _ HW).
Qed.

Lemma half_double n : ((2 * n + 1) / 2)%nat = n.
Proof. symmetry. apply Nat.div_unique with (r := 1%nat); lia. Qed.

Lemma step_x0_length : length (fst (step_xz W h)) = d_inner self.
Proof.
  unfold step_xz, chunk2. cbn [fst].
  rewrite length_firstn, step_xz_length, half_double. lia.
Qed.

Lemma step_z_length : length (snd (step_xz W h)) = d_inner self.
Proof.
  unfold step_xz, chunk2. cbn [snd].
  rewrite length_skipn, step_xz_length, half_double. lia.
Qed.

Lemma conv_update_length x0 :
  length x0 = d_inner self -> length (conv_update cs x0) = d_inner self.
Proof.
  intros Hx. unfold conv_update.
  rewrite zipWith_length, length_map, (sh_cs _ _ _ HC). lia.
Qed.

Lemma conv_out_length cs' :
  length cs' = d_inner self -> length (conv_out W cs') = d_inner self.
Proof.
  intros Hc. unfold conv_out. rewrite length_map.
  pose proof (sh_conv_b _ _ HW) as Hb.
  destruct (b_conv W) as [b|]; simpl in Hb;
    rewrite ?add_length, length_map, zipWith_length, Hc, (sh_conv _ _ HW);
    lia.
Qed.

Lemma step_dt_length x : length (step_dt self W x) = d_inner self.
Proof.
  unfold step_dt. rewrite length_map, add_length, linear_length by exact I.
  rewrite (sh_dt _ _ HW), (sh_dt_b _ _ HW). lia.
Qed.

Lemma step_B_length x : length (step_B self W x) = d_state self.
Proof.
  unfold step_B, split3. cbn [fst snd].
  rewrite length_firstn, length_skipn, linear_length by exact I.
  rewrite (sh_x _ _ HW). lia.
Qed.

Lemma step_C_length x : length (step_C self W x) = d_state self.
Proof.
  unfold step_C, split3. cbn [fst snd].
  rewrite length_firstn, length_skipn, linear_length by exact I.
  rewrite (sh_x _ _ HW). lia.
Qed.
End StepShapes.

(* ================================================================== *)
(** ** The single-step recurrence *)
(* ================================================================== *)

Lemma ssm_update_nth (E N : nat) (A : mat) (dt B x : vec) (ss : mat) d n :
  length A = E -> rows N A -> length ss = E -> rows N ss ->
  length dt = E -> length x = E -> length B = N ->
  (d < E)%nat -> (n < N)%nat ->
  nth n (nth d (ssm_update A dt B x ss) []) 0 =
  nth n (nth d ss []) 0 * exp (nth d dt 0 * nth n (nth d A []) 0)
  + nth d x 0 * (nth d dt 0 * nth n B 0).
Proof.
  intros HA HAr Hs Hsr Hdt Hx HB Hd Hn.
  unfold ssm_update, discretize_A, discretize_B. cbv zeta.
  rewrite (nth_zipWith _ _ _ _ [] []);
    rewrite ?zipWith_length, ?length_map; try lia.
  rewrite (nth_zipWith _ ss _ _ [] []);
    rewrite ?zipWith_length, ?length_map; try lia.
  rewrite (nth_zipWith _ dt A _ 0 []) by lia.
  rewrite (nth_zipWith _ x _ _ 0 []); rewrite ?length_map; try lia.
  rewrite (nth_map_in _ dt d 0) by lia.
  assert (Hsd : length (nth d ss []) = N) by (apply rows_nth; [assumption|lia]).
  assert (HAd : length (nth d A []) = N) by (apply rows_nth; [assumption|lia]).
  unfold add, mul.
  rewrite (nth_zipWith _ _ _ _ 0 0);
    rewrite ?zipWith_length, ?length_map; try lia.
  rewrite (nth_zipWith _ _ _ _ 0 0); rewrite ?length_map; try lia.
  rewrite !(nth_map_in _ _ n 0) by (rewrite ?length_map; lia).
  reflexivity.
Qed.

Lemma ssm_y_nth (E N : nat) (W : Weights) (ss : mat) (C x : vec) d :
  length ss = E -> rows N ss -> length (w_skip W) = E -> length x = E ->
  length C = N -> (d < E)%nat ->
  nth d (ssm_y W ss C x) 0 =
  vsum (map (fun n => nth n (nth d ss []) 0 * nth n C 0) (seq 0 N))
  + nth d (w_skip W) 0 * nth d x 0.
Proof.
  intros Hs Hsr HD Hx HC Hd. unfold ssm_y, add.
  rewrite (nth_zipWith _ _ _ _ 0 0);
    rewrite ?length_map, ?mul_length; try lia.
  rewrite (nth_map_in _ _ d []) by lia.
  unfold mul at 1. rewrite (nth_zipWith _ _ _ _ 0 0) by lia.
  f_equal. unfold dot.
  assert (Hsd : length (nth d ss []) = N) by (apply rows_nth; [assumption|lia]).
  rewrite vsum_nth, mul_length, Hsd, HC, Nat.min_id.
  f_equal. apply map_ext_in. intros n Hn. apply in_seq in Hn.
  unfold mul. apply nth_zipWith; lia.
Qed.

Lemma step_pure_eq self W h cs ss :
  step_pure self W h cs ss =
  let x := conv_out W (conv_update cs (fst (step_xz W h))) in
  let ss' := ssm_update (neg_exp (a_log W)) (step_dt self W x)
                        (step_B self W x) x ss in
  (linear (w_out W) (b_out W)
          (mul (ssm_y W ss' (step_C self W x) x)
               (map silu (snd (step_xz W h)))),
   conv_update cs (fst (step_xz W h)), ss').
Proof. unfold step_pure. now destruct (step_xz W h). Qed.

(** C3.  One call of [step] on a cache that is separate from the
    parameters succeeds, and with [s_prev] the recurrence state it finds in
    the cache, [x] the convolved input, [dt] the realized step size and
    [B], [C] the coupling vectors of this token: the state it leaves in
    [ssm_state] is, entry by entry over (channel, state),
    [s_prev * exp(dt * A) + x * (dt * B)]; the recurrence output is the sum
    over the state axis of [state * C] plus [D * x]; and the value returned
    is that output, gated by [silu(z)] and projected by [out_proj]. *)
Theorem step_recurrence (self : Mamba) (h : vec) (conv_state ssm_state : loc)
    (s : store) :
  separate self conv_state ssm_state ->
  shaped self (weights self (heap s)) ->
  cache_shaped self (as_mat (heap s conv_state)) (as_mat (heap s ssm_state)) ->
  let W := weights self (heap s) in
  let s_prev := as_mat (heap s ssm_state) in
  let x := conv_out W (conv_update (as_mat (heap s conv_state))
                                   (fst (step_xz W h))) in
  let z := snd (step_xz W h) in
  let dt := step_dt self W x in
  let A := neg_exp (a_log W) in
  exists (y : vec) (s' : store),
    step self [h] conv_state ssm_state s
    = (inr ([linear (w_out W) (b_out W) (mul y (map silu z))],
            conv_state, ssm_state), s')
    /\ (forall d n, (d < d_inner self)%nat -> (n < d_state self)%nat ->
          nth n (nth d (as_mat (heap s' ssm_state)) []) 0 =
          nth n (nth d s_prev []) 0 * exp (nth d dt 0 * nth n (nth d A []) 0)
          + nth d x 0 * (nth d dt 0 * nth n (step_B self W x) 0))
    /\ (forall d, (d < d_inner self)%nat ->
          nth d y 0 =
          vsum (map (fun n => nth n (nth d (as_mat (heap s' ssm_state)) []) 0
                              * nth n (step_C self W x) 0)
                    (seq 0 (d_state self)))
          + nth d (w_skip W) 0 * nth d x 0).
Proof.
  intros Hsep HW HC W s_prev x z dt A.
  pose proof (step_x0_length self W h HW) as Hx0.
  pose proof (conv_update_length self (as_mat (heap s conv_state)) s_prev HC
                _ Hx0) as Hcs'.
  pose proof (conv_out_length self W HW _ Hcs') as Hx. fold x in Hx.
  assert (Hss : length s_prev = d_inner self) by apply (sh_ss _ _ _ HC).
  assert (Hssr : rows (d_state self) s_prev) by apply (sh_ss_rows _ _ _ HC).
  assert (Hdtl : length dt = d_inner self) by apply (step_dt_length self W HW).
  set (st := ssm_update A dt (step_B self W x) x s_prev).
  assert (HAl : length A = d_inner self)
    by (unfold A, neg_exp; rewrite length_map; apply (sh_A _ _ HW)).
  assert (HAr : rows (d_state self) A).
  { unfold A, neg_exp, rows. apply Forall_map.
    eapply Forall_impl; [|apply (sh_A_rows _ _ HW)].
    intros r Hr. cbn beta. now rewrite length_map. }
  assert (Hst : forall d n, (d < d_inner self)%nat -> (n < d_state self)%nat ->
            nth n (nth d st []) 0 =
            nth n (nth d s_prev []) 0 * exp (nth d dt 0 * nth n (nth d A []) 0)
            + nth d x 0 * (nth d dt 0 * nth n (step_B self W x) 0)).
  { intros d n Hd Hn. unfold st.
    apply (ssm_update_nth (d_inner self) (d_state self)); auto.
    - apply step_B_length, HW. }
  assert (Hstl : length st = d_inner self).
  { unfold st, ssm_update, discretize_A, discretize_B. cbv zeta.
    rewrite !zipWith_length, length_map, HAl, Hx, Hss.
    rewrite Hdtl. lia. }
  assert (Hstr : rows (d_state self) st).
  { unfold rows. apply Forall_forall. intros r Hr.
    apply (In_nth _ _ []) in Hr. destruct Hr as (d & Hd & <-).
    rewrite Hstl in Hd.
    unfold st, ssm_update, discretize_A, discretize_B. cbv zeta.
    rewrite (nth_zipWith _ _ _ _ [] []);
      rewrite ?zipWith_length, ?length_map, ?HAl, ?Hx, ?Hss;
      rewrite ?Hdtl; try lia.
    rewrite add_length.
    rewrite (nth_zipWith _ s_prev _ _ [] []);
      rewrite ?zipWith_length, ?HAl, ?Hss,
        ?Hdtl; try lia.
    rewrite (nth_zipWith _ _ A _ 0 []);
      rewrite ?HAl, ?Hdtl; try lia.
    rewrite (nth_zipWith _ x _ _ 0 []);
      rewrite ?length_map, ?Hx, ?Hdtl; try lia.
    rewrite mul_length, !length_map.
    rewrite (nth_map_in _ _ d 0)
      by (rewrite Hdtl; lia).
    rewrite length_map, (step_B_length self W HW).
    rewrite (rows_nth (d_state self) s_prev) by (try exact Hssr; lia).
    rewrite (rows_nth (d_state self) A) by (try exact HAr; lia).
    lia. }
  exists (ssm_y W st (step_C self W x) x).
  eexists. split; [|split].
  - rewrite (step_run self h conv_state ssm_state s Hsep).
    cbv zeta. rewrite step_pure_eq. reflexivity.
  - intros d n Hd Hn. cbn [heap]. rewrite upd_eq. cbv zeta.
    cbn [as_mat snd]. apply Hst; assumption.
  - intros d Hd. cbn [heap]. rewrite upd_eq. cbv zeta. cbn [as_mat snd].
    apply (ssm_y_nth (d_inner self) (d_state self)); auto.
    + apply (sh_D _ _ HW).
    + apply step_C_length, HW.
Qed.

(* ================================================================== *)
(** ** The ring buffer of the stateful convolution *)
(* ================================================================== *)

Lemma zeros_length n : length (zeros n) = n.
Proof. apply repeat_length. Qed.

(** On a buffer of width at least one, the roll followed by the write of
    the last slot drops the oldest entry and appends the new one. *)
Lemma roll_set_last (c : vec) (x : R) :
  c <> [] -> set_last (roll_left c) x = tl c ++ [x].
Proof.
  destruct c as [|a t]; [congruence|]. intros _. simpl.
  unfold set_last. destruct (t ++ [a]) eqn:E.
  - now destruct t.
  - rewrite <- E. now rewrite removelast_last.
Qed.

(** Feeding the values [xs] one by one into the buffer [c]. *)
Lemma ring_feed (c xs : vec) :
  c <> [] ->
  fold_left (fun c x => set_last (roll_left c) x) xs c
  = skipn (length xs) (c ++ xs).
Proof.
  revert c. induction xs as [|x xs IH]; intros c Hc.
  - simpl. now rewrite app_nil_r.
  - cbn [fold_left]. rewrite (roll_set_last c x Hc).
    rewrite IH by (now destruct (tl c)).
    destruct c as [|a t]; [congruence|]. cbn [tl length].
    rewrite <- app_assoc. reflexivity.
Qed.

Lemma conv_update_rows K cs x :
  rows K cs -> (1 <= K)%nat -> rows K (conv_update cs x).
Proof.
  unfold rows, conv_update. intros H HK. revert x.
  induction H as [|c cs Hc _ IH]; intros [|a x]; simpl; constructor; auto.
  rewrite roll_set_last by (intros ->; simpl in Hc; lia).
  rewrite length_app. destruct c; simpl in *; lia.
Qed.

(** Row [d] of the buffer after the tokens [xs] is channel [d] of the
    tokens fed into row [d]. *)
Lemma conv_feed_row (E : nat) (xs : list vec) (cs : mat) d :
  length cs = E -> Forall (fun x => length x = E) xs -> (d < E)%nat ->
  nth d (fold_left conv_update xs cs) []
  = fold_left (fun c x => set_last (roll_left c) x)
              (map (fun x => nth d x 0) xs) (nth d cs []).
Proof.
  intros Hcs Hxs Hd. revert cs Hcs.
  induction Hxs as [|x xs Hx _ IH]; intros cs Hcs; [reflexivity|].
  cbn [fold_left map]. rewrite IH.
  - f_equal. unfold conv_update.
    rewrite (nth_zipWith _ _ _ _ [] 0) by (rewrite ?length_map; lia).
    now rewrite (nth_map_in _ _ _ []) by lia.
  - unfold conv_update. rewrite zipWith_length, length_map. lia.
Qed.

Lemma conv_out_nth (E : nat) (W : Weights) (cs : mat) d :
  length cs = E -> length (w_conv W) = E -> opt_length E (b_conv W) ->
  (d < E)%nat ->
  nth d (conv_out W cs) 0 =
  silu (match b_conv W with
        | Some b => vsum (mul (nth d cs []) (nth d (w_conv W) [])) + nth d b 0
        | None => vsum (mul (nth d cs []) (nth d (w_conv W) []))
        end).
Proof.
  intros Hcs Hw Hb Hd. unfold conv_out.
  assert (Hv : nth d (map vsum (zipWith mul cs (w_conv W))) 0
               = vsum (mul (nth d cs []) (nth d (w_conv W) []))).
  { rewrite (nth_map_in _ _ _ []) by (rewrite zipWith_length; lia).
    f_equal. apply nth_zipWith; lia. }
  destruct (b_conv W) as [b|]; simpl in Hb.
  - rewrite (nth_map_in _ _ _ 0)
      by (rewrite add_length, length_map, zipWith_length; lia).
    f_equal. unfold add.
    rewrite (nth_zipWith _ _ _ _ 0 0)
      by (rewrite ?length_map, ?zipWith_length; lia).
    now rewrite Hv.
  - rewrite (nth_map_in _ _ _ 0)
      by (rewrite length_map, zipWith_length; lia).
    now rewrite Hv.
Qed.

Lemma conv1d_nth (E : nat) (w : mat) (b : option vec) p (X : mat) d :
  length w = E -> opt_length E b -> length X = E -> (d < E)%nat ->
  nth d (conv1d w b p X) []
  = conv1d_channel (nth d w [])
      (match b with Some b => Some (nth d b 0) | None => None end)
      p (nth d X []).
Proof.
  intros Hw Hb HX Hd. unfold conv1d. destruct b as [b|]; simpl in Hb.
  - rewrite (nth_zipWith _ _ _ _ ([], 0) [])
      by (rewrite ?length_combine; lia).
    now rewrite combine_nth by lia.
  - now rewrite (nth_zipWith _ _ _ _ [] []) by lia.
Qed.

Lemma conv_act_nth (E K L : nat) (w : mat) (b : option vec) (X : mat) d t :
  length w = E -> rows K w -> opt_length E b -> length X = E -> rows L X ->
  (1 <= K)%nat -> (d < E)%nat -> (t < L)%nat ->
  nth t (nth d (conv_act w b K L X) []) 0 =
  let window :=
    firstn K (skipn t (zeros (K - 1) ++ nth d X [] ++ zeros (K - 1))) in
  silu (match b with
        | Some b => vsum (mul (nth d w []) window) + nth d b 0
        | None => vsum (mul (nth d w []) window)
        end).
Proof.
  intros Hw Hwr Hb HX HXr HK Hd Ht. unfold conv_act. cbv zeta.
  assert (Hc : length (conv1d w b (K - 1) X) = E).
  { unfold conv1d. destruct b as [b|]; simpl in Hb;
      rewrite zipWith_length, ?length_combine; lia. }
  rewrite (nth_map_in _ _ _ []) by lia.
  rewrite (conv1d_nth E) by assumption.
  assert (Hwd : length (nth d w []) = K) by (apply rows_nth; [assumption|lia]).
  assert (HXd : length (nth d X []) = L) by (apply rows_nth; [assumption|lia]).
  unfold conv1d_channel. rewrite Hwd.
  rewrite !length_app, !zeros_length, HXd.
  rewrite (nth_map_in _ _ _ 0)
    by (rewrite length_firstn, length_map, length_seq; lia).
  rewrite nth_firstn_lt by lia.
  rewrite (nth_map_in _ _ _ 0%nat) by (rewrite length_seq; lia).
  rewrite seq_nth by lia. cbn [Nat.add].
  destruct b; reflexivity.
Qed.

(** The ring buffer on its own.  For a convolution of any width [K >= 1],
    any filter and bias, any starting content of the buffer and any [K]
    inputs: rolling the buffer and appending each input in turn, then taking
    the weighted sum of the [K] buffered values plus the bias and applying
    the activation, gives in every channel the [K]-th output of the causal
    convolution (left zero padding by [K - 1], truncation to the sequence
    length, activation) on the same [K] inputs. *)
Lemma conv_ring_kth_output (self : Mamba) (W : Weights)
    (cs : mat) (xs : list vec) :
  (1 <= d_conv self)%nat ->
  length (w_conv W) = d_inner self ->
  rows (d_conv self) (w_conv W) ->
  opt_length (d_inner self) (b_conv W) ->
  length cs = d_inner self ->
  rows (d_conv self) cs ->
  length xs = d_conv self ->
  Forall (fun x => length x = d_inner self) xs ->
  conv_out W (fold_left conv_update xs cs)
  = column (d_conv self - 1)
      (conv_act (w_conv W) (b_conv W) (d_conv self) (length xs)
                (transpose (d_inner self) xs)).
Proof.
  intros HK Hw Hwr Hb Hcs Hcsr Hxs Hxl.
  set (K := d_conv self) in *. set (E := d_inner self) in *.
  assert (Hfl : length (fold_left conv_update xs cs) = E).
  { clear Hxs. revert cs Hcs Hcsr.
    induction Hxl as [|x xs Hx _ IH]; intros cs Hcs Hcsr; [assumption|].
    cbn [fold_left]. apply IH.
    - unfold conv_update. rewrite zipWith_length, length_map. lia.
    - now apply conv_update_rows. }
  assert (HXl : length (transpose E xs) = E)
    by (unfold transpose; now rewrite length_map, length_seq).
  assert (HXr : rows (length xs) (transpose E xs)).
  { unfold rows, transpose. apply Forall_map, Forall_forall. intros d _.
    unfold column. now rewrite length_map. }
  assert (Hcl : length (conv_act (w_conv W) (b_conv W) K (length xs)
                                 (transpose E xs)) = E).
  { unfold conv_act, conv1d. rewrite length_map.
    destruct (b_conv W) as [b|]; simpl in Hb;
      rewrite zipWith_length, ?length_combine; lia. }
  apply (nth_ext _ _ 0 0).
  - unfold column. rewrite length_map, Hcl.
    unfold conv_out. rewrite length_map.
    destruct (b_conv W) as [b|]; simpl in Hb;
      rewrite ?add_length, length_map, zipWith_length; lia.
  - intros d Hd.
    assert (HdE : (d < E)%nat).
    { revert Hd. unfold conv_out. rewrite length_map.
      destruct (b_conv W) as [b|]; simpl in Hb;
        rewrite ?add_length, length_map, zipWith_length; lia. }
    rewrite (conv_out_nth E) by assumption.
    unfold column. rewrite (nth_map_in _ _ _ []) by lia.
    rewrite (conv_act_nth E K (length xs)) by (assumption || lia).
    cbv zeta.
    assert (Hwin : nth d (fold_left conv_update xs cs) []
                   = firstn K (skipn (K - 1)
                       (zeros (K - 1) ++ nth d (transpose E xs) []
                                      ++ zeros (K - 1)))).
    { rewrite (conv_feed_row E) by assumption.
      assert (Hcd : length (nth d cs []) = K)
        by (apply rows_nth; [assumption|lia]).
      rewrite ring_feed by (intros Hn; rewrite Hn in Hcd; simpl in Hcd; lia).
      rewrite length_map, Hxs, <- Hcd, skipn_app, skipn_all, Nat.sub_diag.
      cbn [app skipn].
      unfold transpose. rewrite (nth_map_in _ _ _ 0%nat)
        by (rewrite length_seq; lia).
      rewrite seq_nth by lia. cbn [Nat.add]. unfold column.
      rewrite skipn_app, zeros_length, Hcd.
      rewrite (skipn_all2 (zeros (K - 1))) by (rewrite zeros_length; lia).
      replace (K - 1 - (K - 1))%nat with 0%nat by lia. cbn [app skipn].
      rewrite firstn_app, length_map, Hxs, Nat.sub_diag.
      cbn [firstn]. rewrite app_nil_r.
      rewrite firstn_all2 by (rewrite length_map; lia). reflexivity. }
    rewrite Hwin.
    set (win := firstn K _).
    rewrite (mul_comm win). reflexivity.
Qed.

(* ================================================================== *)
(** ** The result of [forward] *)
(* ================================================================== *)

Lemma get_states_returns self s :
  exists c s1, _get_states_from_cache self s = (inr c, s1).
Proof.
  unfold _get_states_from_cache. destruct (kv s (layer_idx self)); eauto.
Qed.

Lemma forward_full_pair self hs cache mask gmu s r s' :
  forward_full self hs cache mask gmu s = (inr r, s') ->
  exists out aux, r = Pair out aux.
Proof.
  unfold forward_full, bind, ret, read_mat, read_vec. cbv zeta.
  rewrite !read_opt_run. cbn [heap].
  destruct (fast_path self cache).
  - rewrite !read_opt_run. intros H. inversion H. eauto.
  - destruct (chunk2 _) as [x z]. rewrite !read_opt_run.
    destruct cache as [[cl sl]|]; unfold write;
      (destruct (read_jamba self _) as [[e|j] s2]; [discriminate|]);
      destruct (ssm_inputs _ _ _ _ _ _ _) as [[dt B] C];
      destruct (selective_scan_fn _ _ _ _ _ _ _ _) as [y last];
      destruct (gmu_save self); rewrite read_opt_run;
      intros H; inversion H; eauto.
Qed.

(* ================================================================== *)
(** ** The shape check of [step] *)
(* ================================================================== *)

(** C5.  [step] fails whenever the time dimension of its input is not
    exactly one: the assertion of line 315, the layer's shape error, is
    raised before anything is read or written, so the store, and with it
    the convolution ring buffer and the recurrence state of the cache, is
    the store the call found. *)
Theorem step_rejects_multi_token (self : Mamba) (hidden_states : list vec)
    (conv_state ssm_state : loc) (s : store) :
  length hidden_states <> 1%nat ->
  step self hidden_states conv_state ssm_state s
  = (inl (AssertionError
            "Only support decoding with 1 token at a time for now"), s).
Proof.
  intros H. unfold step, bind, assert_.
  destruct (Nat.eqb_spec (length hidden_states) 1); [contradiction|].
  reflexivity.
Qed.

(* ================================================================== *)
(** ** The early exit of [forward] *)
(* ================================================================== *)

(** C10.  When [forward] is called with an inference cache attached and a
    single token, it runs [step] on the cache tensors and returns the bare
    output tensor of [step]: no pair, and no pre-gate export, whatever the
    [gmu_save] flag of the layer and the [gmu_mems] argument.  Every other
    call of [forward] that returns, returns the pair [(out, gmu_mems)]. *)
Theorem forward_single_token_delegates (self : Mamba) (h : vec)
    (seq_idx : option (list nat)) (ip : InferenceParams) (mask : option vec)
    (gmu_mems : option (list vec)) (s s1 : store) (conv_state ssm_state : loc) :
  _get_states_from_cache self s = (inr (conv_state, ssm_state), s1) ->
  separate self conv_state ssm_state ->
  (exists out s',
      step self [h] conv_state ssm_state s1
      = (inr (out, conv_state, ssm_state), s')
      /\ forward self [h] seq_idx (Some ip) mask gmu_mems s
         = (inr (Single out), s'))
  /\ (forall hs ipo r s',
        ipo = None \/ length hs <> 1%nat ->
        forward self hs seq_idx ipo mask gmu_mems s = (inr r, s') ->
        exists out aux, r = Pair out aux).
Proof.
  intros Hget Hsep. split.
  - eexists. eexists. split.
    + rewrite (step_run self h _ _ s1 Hsep). cbv zeta. reflexivity.
    + unfold forward, bind. rewrite Hget. cbn [length Nat.eqb].
      rewrite (step_run self h _ _ s1 Hsep). reflexivity.
  - intros hs ipo r s' Hcase Hf. unfold forward in Hf.
    destruct ipo as [ip'|].
    + destruct Hcase as [Hc|Hc]; [discriminate|].
      unfold bind in Hf.
      destruct (get_states_returns self s) as ([c sl] & s2 & Hg).
      rewrite Hg in Hf.
      destruct (Nat.eqb_spec (length hs) 1); [contradiction|].
      eapply forward_full_pair; eauto.
    + eapply forward_full_pair; eauto.
Qed.

(* ================================================================== *)
(** ** The frame of [step] and [forward] *)
(* ================================================================== *)

Section Frame.
Variable ls : list loc.

Lemma modifies_ret {A} (a : A) : modifies ls (ret a).
Proof. now intros s l _. Qed.

Lemma modifies_raise {A} e : modifies ls (@raise A e).
Proof. now intros s l _. Qed.

Lemma modifies_bind {A B} (m : M A) (k : A -> M B) :
  modifies ls m -> (forall a, modifies ls (k a)) -> modifies ls (bind m k).
Proof.
  intros Hm Hk s l Hl. unfold bind.
  specialize (Hm s l Hl). destruct (m s) as [[e|a] s1]; simpl in *; auto.
  now rewrite (Hk a s1 l Hl).
Qed.

Lemma modifies_read_mat l : modifies ls (read_mat l).
Proof. now intros s l' _. Qed.

Lemma modifies_read_vec l : modifies ls (read_vec l).
Proof. now intros s l' _. Qed.

Lemma modifies_read_opt o : modifies ls (read_opt o).
Proof. intros s l' _. now rewrite read_opt_run. Qed.

Lemma modifies_read_attr o : modifies ls (read_attr o).
Proof. intros s l' _. now destruct o. Qed.

Lemma modifies_assert c msg : modifies ls (assert_ c msg).
Proof. intros s l' _. now destruct c. Qed.

Lemma modifies_write l t : In l ls -> modifies ls (write l t).
Proof.
  intros Hin s l' Hl. simpl. apply upd_neq. intros ->. contradiction.
Qed.
End Frame.

Ltac frame :=
  repeat first
    [ apply modifies_ret | apply modifies_raise | apply modifies_read_mat
    | apply modifies_read_vec | apply modifies_read_opt
    | apply modifies_read_attr | apply modifies_assert
    | apply modifies_write; simpl; tauto
    | apply modifies_bind; [|intros]
    | progress cbv zeta
    | match goal with
      | |- modifies _ (let '(_, _) := ?p in _) => destruct p
      | |- modifies _ (match ?p with _ => _ end) => destruct p
      | |- modifies _ (if ?b then _ else _) => destruct b
      end ].

Lemma step_modifies self hs cl sl : modifies [cl; sl] (step self hs cl sl).
Proof. unfold step. frame. Qed.

Lemma read_jamba_modifies ls self : modifies ls (read_jamba self).
Proof. unfold read_jamba. frame. Qed.

Lemma forward_full_modifies self hs cache mask gmu :
  modifies (match cache with Some (cl, sl) => [cl; sl] | None => [] end)
           (forward_full self hs cache mask gmu).
Proof.
  unfold forward_full. destruct cache as [[cl sl]|]; frame; try apply read_jamba_modifies; frame.
Qed.

Lemma get_states_frame self s :
  fst (_get_states_from_cache self s) = inr (cache_of self s)
  /\ forall l, l <> fst (cache_of self s) -> l <> snd (cache_of self s) ->
       heap (snd (_get_states_from_cache self s)) l = heap s l.
Proof.
  unfold _get_states_from_cache, cache_of.
  destruct (kv s (layer_idx self)) as [c|]; simpl; split; auto.
  intros l H1 H2. now rewrite !upd_neq.
Qed.

Lemma forward_frame self hs si ipo mask gmu s l :
  l <> fst (cache_of self s) -> l <> snd (cache_of self s) ->
  heap (snd (forward self hs si ipo mask gmu s)) l = heap s l.
Proof.
  intros H1 H2. unfold forward. destruct ipo as [ip|].
  - unfold bind at 1.
    destruct (get_states_frame self s) as (Hr & Hh).
    destruct (_get_states_from_cache self s) as [r s1]. simpl in Hr, Hh.
    subst r. destruct (cache_of self s) as [cl sl]. simpl in *.
    rewrite <- (Hh l H1 H2).
    destruct (Nat.eqb (length hs) 1).
    + apply (modifies_bind [cl; sl]); [apply step_modifies| |simpl; intuition congruence].
      intros [[out c1] c2]. apply modifies_ret.
    + apply (forward_full_modifies self hs (Some (cl, sl))). simpl. intuition congruence.
  - apply (forward_full_modifies self hs None). simpl. intuition congruence.
Qed.

(** C9.  Neither [step] nor [forward] writes to a parameter of the layer.
    A call of [step] leaves every tensor of the store other than the two
    cache tensors it was handed as it found it, whether it returns or
    raises; so does a call of [forward] with the cache attached, the cache
    tensors being those that [_get_states_from_cache] returns for the
    layer; and a call of [forward] without a cache changes no tensor at
    all.  Every parameter tensor (projections, filter, biases, [A_log],
    [D], norm weights) is a tensor of the store other than the cache
    tensors, hence has after the call the value it had before. *)
Theorem parameters_are_not_mutated (self : Mamba) (hidden_states : list vec)
    (conv_state ssm_state : loc) (seq_idx : option (list nat))
    (inference_params : option InferenceParams) (mask : option vec)
    (gmu_mems : option (list vec)) (s : store) (l : loc) :
  l <> conv_state -> l <> ssm_state ->
  heap (snd (step self hidden_states conv_state ssm_state s)) l = heap s l
  /\ (cache_of self s = (conv_state, ssm_state) ->
      heap (snd (forward self hidden_states seq_idx inference_params mask
                         gmu_mems s)) l = heap s l)
  /\ (forall l',
        heap (snd (forward self hidden_states seq_idx None mask gmu_mems s)) l'
        = heap s l').
Proof.
  intros H1 H2. split; [|split].
  - apply step_modifies. simpl. intuition congruence.
  - intros Hc. apply forward_frame; rewrite Hc; assumption.
  - intros l'. apply (forward_full_modifies self hidden_states None).
    simpl. tauto.
Qed.

(* ================================================================== *)
(** ** Running [__init__] *)
(* ================================================================== *)

Lemma extends_refl s : extends s s.
Proof. split; auto. Qed.

Lemma extends_trans s1 s2 s3 : extends s1 s2 -> extends s2 s3 -> extends s1 s3.
Proof.
  intros [H1 H2] [H3 H4]. split; [lia|]. intros l Hl.
  rewrite H4 by lia. now apply H2.
Qed.

Lemma check_dims_ok dims s :
  Forall (fun d => (0 <= d)%Z) dims -> check_dims dims s = (inr tt, s).
Proof.
  intros H. unfold check_dims.
  replace (forallb _ dims) with true; [reflexivity|].
  symmetry. apply forallb_forall. rewrite Forall_forall in H.
  intros d Hd. apply Z.leb_le. auto.
Qed.

Lemma bind_ok {A B} (m : M A) (k : A -> M B) s a s1 :
  m s = (inr a, s1) -> bind m k s = k a s1.
Proof. intros H. unfold bind. now rewrite H. Qed.

Lemma alloc_ext t s :
  exists l s1, alloc t s = (inr l, s1)
    /\ heap s1 l = t /\ (l < next s1)%nat /\ extends s s1.
Proof.
  eexists. eexists. split; [reflexivity|]. simpl.
  split; [apply upd_eq|]. split; [lia|]. split; simpl; [lia|].
  intros l Hl. apply upd_neq. lia.
Qed.

Lemma alloc_opt_ext b v s :
  exists o s1, alloc_opt b v s = (inr o, s1) /\ extends s s1.
Proof.
  destruct b; simpl.
  - eexists. eexists. split; [reflexivity|]. split; simpl; [lia|].
    intros l Hl. apply upd_neq. lia.
  - eexists. eexists. split; [reflexivity|]. apply extends_refl.
Qed.

Ltac run_alloc :=
  match goal with
  | |- context [bind (alloc ?t) ?k ?s] =>
      let l := fresh "l" in let s1 := fresh "s" in
      let Heq := fresh "Heq" in let Hv := fresh "Hv" in
      let Hl := fresh "Hl" in let He := fresh "He" in
      destruct (alloc_ext t s) as (l & s1 & Heq & Hv & Hl & He);
      rewrite (bind_ok (alloc t) k s l s1 Heq); clear Heq
  | |- context [bind (alloc_opt ?b ?v) ?k ?s] =>
      let o := fresh "o" in let s1 := fresh "s" in
      let Heq := fresh "Heq" in let He := fresh "He" in
      destruct (alloc_opt_ext b v s) as (o & s1 & Heq & He);
      rewrite (bind_ok (alloc_opt b v) k s o s1 Heq); clear Heq
  | |- context [bind (check_dims ?d) ?k ?s] =>
      rewrite (bind_ok (check_dims d) k s tt s)
        by (apply check_dims_ok; repeat constructor; lia)
  | |- context [bind (ret ?x) ?k ?s] =>
      rewrite (bind_ok (ret x) k s x s) by reflexivity
  end.

(** [int(expand * d_model)] on floats: [int(0.7 * 10)] is 7, where the
    exact product would truncate to 6, [int(0.29 * 100)] is 28,
    truncation is towards zero, and an infinite product raises. *)
Lemma int_expand_examples :
  int_expand (PyFloat (float_lit 7 10)) 10 = inr 7%Z
  /\ int_expand (PyFloat (float_lit 29 100)) 100 = inr 28%Z
  /\ int_expand (PyFloat (float_lit 3 2)) 3 = inr 4%Z
  /\ int_expand (PyFloat (float_lit (-3) 2)) 3 = inr (-4)%Z
  /\ int_expand (PyFloat (float_lit 2 1)) 768 = inr 1536%Z
  /\ int_expand (PyInt 2) 768 = inr 1536%Z
  /\ int_expand (PyFloat (float_lit 2 1)) (2 ^ 1024) = inl OverflowError
  /\ int_expand (PyFloat (float_lit 2 1)) (2 ^ 1023) = inl OverflowError.
Proof. vm_compute. repeat split; reflexivity. Qed.

Lemma int_expand_ok a s :
  (0 < init_d_inner a)%Z ->
  lift (int_expand (arg_expand a) (arg_d_model a)) s = (inr (init_d_inner a), s).
Proof.
  unfold init_d_inner.
  destruct (int_expand (arg_expand a) (arg_d_model a)); simpl;
    [lia|reflexivity].
Qed.

Lemma int_expand_cases a s :
  lift (int_expand (arg_expand a) (arg_d_model a)) s = (inr (init_d_inner a), s)
  \/ exists e, lift (int_expand (arg_expand a) (arg_d_model a)) s = (inl e, s).
Proof.
  unfold init_d_inner.
  destruct (int_expand (arg_expand a) (arg_d_model a)) as [e|z]; simpl;
    [right; now exists e|left; reflexivity].
Qed.

(** [uniform_(-std, std)] with [std = dt_rank**-0.5 * dt_scale] has a
    well-formed range exactly when [dt_scale] is not negative. *)
Lemma uniform_range_ok (r : Z) (scale : R) :
  (0 < r)%Z ->
  (1 / sqrt (IZR r) * scale < - (1 / sqrt (IZR r) * scale)) <-> scale < 0.
Proof.
  intros Hr.
  assert (H : 0 < 1 / sqrt (IZR r)).
  { apply Rdiv_lt_0_compat; [lra|]. apply sqrt_lt_R0. now apply IZR_lt. }
  split; intros H1; nra.
Qed.

Lemma init_succeeds a rng s :
  constructible a ->
  exists self s', __init__ a rng s = (inr self, s')
    /\ d_inner self = Z.to_nat (init_d_inner a)
    /\ d_state self = Z.to_nat (arg_d_state a)
    /\ as_mat (heap s' (A_log self)) = map (map ln) (repeat (arange1 (Z.to_nat (arg_d_state a))) (Z.to_nat (init_d_inner a))).
Proof.
  intros [Hm Hi Hs Hc Hr Hinit Hscale Hmin Hmax Hcu].
  unfold __init__. cbv zeta.
  rewrite (bind_ok _ _ s (init_d_inner a) s (int_expand_ok a s Hi)).
  fold (init_dt_rank a).
  rewrite Hcu.
  assert (Hle : (init_d_inner a <=? 0)%Z = false) by (apply Z.leb_gt; lia).
  assert (Hz : (init_dt_rank a =? 0)%Z = false) by (apply Z.eqb_neq; lia).
  rewrite Hle, Hz.
  destruct (Rle_dec (arg_dt_max a) 0) as [?|_]; [lra|].
  destruct (Rle_dec (arg_dt_min a) 0) as [?|_]; [lra|].
  rewrite (bind_ok _ _ s tt s)
    by (destruct (arg_jamba_norm a); [apply check_dims_ok; repeat constructor; lia|reflexivity]).
  repeat run_alloc.
  match goal with
  | |- context [bind ?m ?k ?s] =>
      assert (Hdw : exists w, m s = (inr w, s))
        by (destruct Hinit as [H|H]; rewrite H; cbn [String.eqb Ascii.eqb];
            [eexists; reflexivity|];
            destruct (Rlt_dec _ _) as [Hlt|_]; [|eexists; reflexivity];
            apply (uniform_range_ok _ _ Hr) in Hlt;
            specialize (Hscale H); lra);
      destruct Hdw as (w & Hdw); rewrite (bind_ok m k s w s Hdw); clear Hdw
  end.
  repeat run_alloc.
  eexists. eexists. split; [reflexivity|]. cbn [d_inner d_state A_log].
  split; [reflexivity|]. split; [reflexivity|].
  destruct (extends_trans _ _ _ He10 (extends_trans _ _ _ He11 He12)) as [_ H].
  rewrite H by exact Hl4. now rewrite Hv4.
Qed.

Lemma bind_err {A B} (m : M A) (k : A -> M B) s e s1 :
  m s = (inl e, s1) -> bind m k s = (inl e, s1).
Proof. intros H. unfold bind. now rewrite H. Qed.

Lemma check_dims_cases dims s :
  (check_dims dims s = (inr tt, s) /\ Forall (fun d => (0 <= d)%Z) dims)
  \/ check_dims dims s = (inl RuntimeError, s).
Proof.
  unfold check_dims. destruct (forallb _ dims) eqn:E; [left|right; reflexivity].
  split; [reflexivity|]. apply Forall_forall. intros d Hd.
  rewrite forallb_forall in E. apply Z.leb_le. auto.
Qed.

Ltac inv_init H :=
  match type of H with
  | context [bind (alloc ?t) ?k ?s] =>
      let l := fresh "l" in let s1 := fresh "s" in
      let Heq := fresh "Heq" in
      destruct (alloc_ext t s) as (l & s1 & Heq & _ & _ & _);
      rewrite (bind_ok (alloc t) k s l s1 Heq) in H; clear Heq
  | context [bind (alloc_opt ?b ?v) ?k ?s] =>
      let o := fresh "o" in let s1 := fresh "s" in
      let Heq := fresh "Heq" in
      destruct (alloc_opt_ext b v s) as (o & s1 & Heq & _);
      rewrite (bind_ok (alloc_opt b v) k s o s1 Heq) in H; clear Heq
  | context [bind (check_dims ?d) ?k ?s] =>
      let Heq := fresh "Heq" in let Hd := fresh "Hd" in
      destruct (check_dims_cases d s) as [[Heq Hd]|Heq];
      [ rewrite (bind_ok (check_dims d) k s tt s Heq) in H; clear Heq
      | rewrite (bind_err (check_dims d) k s _ s Heq) in H; discriminate H ]
  | context [bind (ret ?x) ?k ?s] =>
      rewrite (bind_ok (ret x) k s x s eq_refl) in H
  | context [bind (raise ?e) ?k ?s] =>
      rewrite (bind_err (raise e) k s e s eq_refl) in H; discriminate H
  | context [bind (if ?c then _ else _) _ _] =>
      let E := fresh "E" in destruct c eqn:E
  end.

Lemma init_inversion a rng s self s' :
  __init__ a rng s = (inr self, s') -> constructible a.
Proof.
  unfold __init__. cbv zeta. intros H.
  destruct (int_expand_cases a s) as [He|[e He]];
    [ rewrite (bind_ok _ _ _ _ _ He) in H
    | rewrite (bind_err _ _ _ _ _ He) in H; discriminate H ].
  clear He. fold (init_dt_rank a) in H.
  repeat inv_init H.
  all: repeat match goal with
         | Hf : Forall _ (_ :: _) |- _ => inversion Hf; clear Hf; subst
         | Hf : Forall _ [] |- _ => clear Hf
         | E : (_ <=? _)%Z = false |- _ => apply Z.leb_gt in E
         | E : (_ =? _)%Z = false |- _ => apply Z.eqb_neq in E
         | E : (_ =? _)%string = true |- _ => apply String.eqb_eq in E
         end.
  all: constructor; unfold supported_dt_init; try lia; try lra; auto.
  all: intros Hrand; try congruence.
  all: apply Rnot_lt_le; intros Hlt;
    match goal with
    | n : ~ _ < _ |- _ => apply n; apply uniform_range_ok; [lia|exact Hlt]
    end.
Qed.

(* ================================================================== *)
(** ** What [__init__] builds *)
(* ================================================================== *)

Lemma small_args_constructible n : (0 <= n)%Z -> constructible (small_args n).
Proof.
  intros Hn. constructor; simpl; try lia; try lra; try reflexivity.
  now right.
Qed.

Lemma arange1_nth N n : (n < N)%nat -> nth n (arange1 N) 0 = INR (n + 1).
Proof.
  intros H. unfold arange1. rewrite (nth_map_in _ _ _ 0%nat) by (rewrite length_seq; lia).
  rewrite seq_nth by lia. f_equal. lia.
Qed.

Lemma nth_repeat_lt {A} (a d : A) n i : (i < n)%nat -> nth i (repeat a n) d = a.
Proof.
  revert i. induction n; intros [|i] H; simpl; try lia; auto. apply IHn. lia.
Qed.

Lemma init_decay_rate a rng s self s' d n :
  __init__ a rng s = (inr self, s') ->
  (d < d_inner self)%nat -> (n < d_state self)%nat ->
  decay_rate self s' d n = - INR (n + 1).
Proof.
  intros H Hd Hn.
  destruct (init_succeeds a rng s (init_inversion _ _ _ _ _ H))
    as (self2 & s2 & H2 & HE & HN & HA).
  rewrite H in H2. injection H2 as <- <-.
  unfold decay_rate, neg_exp. rewrite HA.
  rewrite HE in Hd. rewrite HN in Hn.
  rewrite (nth_map_in _ _ _ []) by (rewrite length_map, repeat_length; lia).
  rewrite (nth_map_in _ _ _ []) by (rewrite repeat_length; lia).
  rewrite nth_repeat_lt by lia.
  rewrite (nth_map_in _ _ _ 0) by (unfold arange1; rewrite !length_map, length_seq; lia).
  rewrite (nth_map_in _ _ _ 0) by (unfold arange1; rewrite length_map, length_seq; lia).
  rewrite arange1_nth by lia.
  rewrite exp_ln; [reflexivity|]. apply lt_0_INR. lia.
Qed.

(** C8, as the code has it.  Whenever [__init__] returns a layer, the
    decay seed it has stored gives, in every inner channel [d] and at every
    state index [n], the realized decay rate [-exp(A_log[d, n]) = -(n + 1)]:
    the magnitudes are [1, 2, ..., d_state], the same in every channel, and
    each exceeds the previous one by exactly one.  The mapping from the
    state index to the magnitude is strictly increasing and arithmetic. *)
Theorem A_log_init_arithmetic (a : InitArgs) (rng : Draws) (s s' : store)
    (self : Mamba) :
  __init__ a rng s = (inr self, s') ->
  forall d n, (d < d_inner self)%nat -> (n < d_state self)%nat ->
    decay_rate self s' d n = - INR (n + 1)
    /\ ((S n < d_state self)%nat ->
        Rabs (decay_rate self s' d (S n)) = Rabs (decay_rate self s' d n) + 1).
Proof.
  intros H d n Hd Hn. split; [now apply (init_decay_rate a rng s)|].
  intros HS. rewrite !(init_decay_rate a rng s self s') by assumption.
  rewrite !Rabs_Ropp, !Rabs_right by (apply Rle_ge, pos_INR).
  change (S n + 1)%nat with (S (n + 1)). now rewrite S_INR.
Qed.

(** C8 as stated fails: with a state width of three the magnitudes of the
    realized decay rates are [1, 2, 3], which no common ratio produces. *)
Lemma decay_magnitudes_not_geometric :
  exists self s',
    __init__ (small_args 3) small_draws empty_store = (inr self, s')
    /\ d_state self = 3%nat
    /\ ~ geometric (fun n => Rabs (decay_rate self s' 0 n)) (d_state self).
Proof.
  destruct (init_succeeds (small_args 3) small_draws empty_store
              (small_args_constructible 3 ltac:(lia)))
    as (self & s' & H & HE & HN & _).
  assert (HE' : d_inner self = 1%nat) by (rewrite HE; reflexivity).
  assert (HN' : d_state self = 3%nat) by (rewrite HN; reflexivity).
  exists self, s'. split; [exact H|]. split; [exact HN'|].
  rewrite HN'. intros (r & Hr).
  pose proof (Hr 0%nat ltac:(lia)) as H0.
  pose proof (Hr 1%nat ltac:(lia)) as H1.
  cbv beta in H0, H1.
  rewrite (init_decay_rate _ _ _ _ _ 0%nat 0%nat H) in H0 by lia.
  rewrite (init_decay_rate _ _ _ _ _ 0%nat 1%nat H) in H0, H1 by lia.
  rewrite (init_decay_rate _ _ _ _ _ 0%nat 2%nat H) in H1 by lia.
  rewrite !Rabs_Ropp in H0, H1. simpl in H0, H1.
  rewrite !Rabs_right in H0, H1 by lra. lra.
Qed.


Lemma init_fields a rng s self s' :
  __init__ a rng s = (inr self, s') ->
  d_model self = Z.to_nat (arg_d_model a)
  /\ d_state self = Z.to_nat (arg_d_state a)
  /\ d_conv self = Z.to_nat (arg_d_conv a)
  /\ d_inner self = Z.to_nat (init_d_inner a)
  /\ dt_rank self = Z.to_nat (init_dt_rank a)
  /\ jamba_norm self = arg_jamba_norm a
  /\ gmu_save self = arg_gmu_save a.
Proof.
  unfold __init__. cbv zeta. intros H.
  destruct (int_expand_cases a s) as [He|[e He]];
    [ rewrite (bind_ok _ _ _ _ _ He) in H
    | rewrite (bind_err _ _ _ _ _ He) in H; discriminate H ].
  clear He. fold (init_dt_rank a) in H.
  repeat inv_init H.
  all: injection H as <- <-; cbn; repeat split; reflexivity.
Qed.

(** C6, as the code has it.  [__init__] checks no width and raises no
    configuration error.  On every configuration whose tensor sizes are not
    negative, whose inner width [int(expand * d_model)] (the truncated
    binary64 product when [expand] is a [float]) and rank are positive and
    whose [dt_min] and [dt_max] are positive (so on every valid
    configuration), built without [use_cu_seqlen]: construction succeeds
    when [dt_init] is ["constant"], or is ["random"] with a [dt_scale] that
    is not negative, and the layer carries the widths of the configuration;
    with ["random"] and a negative [dt_scale] the range of [uniform_] is
    empty and it raises [RuntimeError]; with any other [dt_init] the
    constructor raises [NotImplementedError], the only exception it raises
    by itself.  A state width or a convolution width of zero is accepted. *)
Theorem construction_outcome (a : InitArgs) (rng : Draws) (s : store) :
  (0 <= arg_d_model a)%Z -> (0 < init_d_inner a)%Z ->
  (0 <= arg_d_state a)%Z -> (0 <= arg_d_conv a)%Z ->
  (0 < init_dt_rank a)%Z ->
  0 < arg_dt_min a -> 0 < arg_dt_max a -> arg_use_cu_seqlen a = false ->
  (arg_dt_init a = "constant"%string
   \/ (arg_dt_init a = "random"%string /\ 0 <= arg_dt_scale a) ->
   exists self s',
     __init__ a rng s = (inr self, s')
     /\ d_model self = Z.to_nat (arg_d_model a)
     /\ d_state self = Z.to_nat (arg_d_state a)
     /\ d_conv self = Z.to_nat (arg_d_conv a)
     /\ d_inner self = Z.to_nat (init_d_inner a)
     /\ dt_rank self = Z.to_nat (init_dt_rank a))
  /\ (arg_dt_init a = "random"%string -> arg_dt_scale a < 0 ->
      exists s', __init__ a rng s = (inl RuntimeError, s'))
  /\ (~ supported_dt_init a ->
      exists s', __init__ a rng s = (inl NotImplementedError, s')).
Proof.
  intros Hm Hi Hs Hc Hr Hmin Hmax Hcu. split.
  - intros Hinit.
    assert (Hsup : supported_dt_init a)
      by (destruct Hinit as [H|[H _]]; [now left|now right]).
    assert (Hscale : arg_dt_init a = "random"%string -> 0 <= arg_dt_scale a).
    { intros E. destruct Hinit as [H|[_ H]]; [|exact H].
      rewrite H in E. discriminate E. }
    destruct (init_succeeds a rng s
                (mkConstructible a Hm Hi Hs Hc Hr Hsup Hscale Hmin Hmax Hcu))
      as (self & s' & H & _).
    exists self, s'. split; [exact H|].
    destruct (init_fields _ _ _ _ _ H) as (H1 & H2 & H3 & H4 & H5 & _).
    auto.
  - assert (Hle : (init_d_inner a <=? 0)%Z = false) by (apply Z.leb_gt; lia).
    assert (Hz : (init_dt_rank a =? 0)%Z = false) by (apply Z.eqb_neq; lia).
    split.
    + intros Hrand Hneg.
      unfold __init__. cbv zeta.
      rewrite (bind_ok _ _ s (init_d_inner a) s (int_expand_ok a s Hi)).
      fold (init_dt_rank a). rewrite Hcu, Hle, Hz.
      rewrite (bind_ok _ _ s tt s)
        by (destruct (arg_jamba_norm a);
            [apply check_dims_ok; repeat constructor; lia|reflexivity]).
      repeat run_alloc.
      rewrite Hrand. cbn [String.eqb Ascii.eqb Bool.eqb].
      destruct (Rlt_dec _ _) as [_|Hn];
        [|exfalso; apply Hn; now apply uniform_range_ok].
      eexists. apply bind_err. reflexivity.
    + intros Hinit.
      unfold __init__. cbv zeta.
      rewrite (bind_ok _ _ s (init_d_inner a) s (int_expand_ok a s Hi)).
      fold (init_dt_rank a). rewrite Hcu, Hle, Hz.
      rewrite (bind_ok _ _ s tt s)
        by (destruct (arg_jamba_norm a);
            [apply check_dims_ok; repeat constructor; lia|reflexivity]).
      repeat run_alloc.
      destruct (String.eqb_spec (arg_dt_init a) "constant") as [E|_];
        [exfalso; apply Hinit; now left|].
      destruct (String.eqb_spec (arg_dt_init a) "random") as [E|_];
        [exfalso; apply Hinit; now right|].
      eexists. apply bind_err. reflexivity.
Qed.

(** C6 as stated fails: a configuration whose state width is zero, hence
    non-positive, is constructed without any error. *)
Lemma init_accepts_zero_state_width :
  (arg_d_state (small_args 0) <= 0)%Z
  /\ exists self s',
       __init__ (small_args 0) small_draws empty_store = (inr self, s')
       /\ d_state self = 0%nat.
Proof.
  split; [simpl; lia|].
  destruct (init_succeeds (small_args 0) small_draws empty_store
              (small_args_constructible 0 ltac:(lia)))
    as (self & s' & H & _ & HN & _).
  exists self, s'. split; [exact H|]. rewrite HN. reflexivity.
Qed.

(* ================================================================== *)
(** ** Masks and segment identifiers in [forward] *)
(* ================================================================== *)

Lemma tiny_separate j : separate (tiny_layer j) 8%nat 9%nat.
Proof.
  unfold separate, parameters. destruct j; simpl; intuition lia.
Qed.

Lemma tiny_norms j : norms_present (tiny_layer j).
Proof. unfold norms_present. destruct j; simpl; intros H; repeat split; congruence. Qed.

Lemma get_states_hit self s c :
  kv s (layer_idx self) = Some c -> _get_states_from_cache self s = (inr c, s).
Proof. intros H. unfold _get_states_from_cache. now rewrite H. Qed.

Lemma forward_cached self hs si ip mask gmu s cl sl :
  kv s (layer_idx self) = Some (cl, sl) -> length hs <> 1%nat ->
  forward self hs si (Some ip) mask gmu s
  = forward_full self hs (Some (cl, sl)) mask gmu s.
Proof.
  intros Hkv Hl. unfold forward. rewrite (bind_ok _ _ _ _ _ (get_states_hit _ _ _ Hkv)).
  destruct (Nat.eqb_spec (length hs) 1); [contradiction|reflexivity].
Qed.

Lemma forward_cached_one self h si ip mask gmu s cl sl :
  kv s (layer_idx self) = Some (cl, sl) -> separate self cl sl ->
  forward self [h] si (Some ip) mask gmu s
  = let r := step_pure self (weights self (heap s)) h (as_mat (heap s cl))
                       (as_mat (heap s sl)) in
    (inr (Single [fst (fst r)]),
     mkStore (upd (upd (heap s) cl (T2 (snd (fst r)))) sl (T2 (snd r)))
             (next s) (kv s)).
Proof.
  intros Hkv Hsep. unfold forward.
  rewrite (bind_ok _ _ _ _ _ (get_states_hit _ _ _ Hkv)).
  cbn [length Nat.eqb].
  rewrite (bind_ok _ _ _ _ _ (step_run self h cl sl s Hsep)). reflexivity.
Qed.

Lemma silu_pos x : 0 < x -> 0 < silu x.
Proof.
  intros H. unfold silu. apply Rmult_lt_0_compat; [assumption|].
  apply Rdiv_lt_0_compat; [lra|]. pose proof (exp_pos (- x)). lra.
Qed.

(** Arithmetic on literal one-entry vectors. *)
Ltac real_norm :=
  unfold channel_state, zeros, dot, mul, add, vsum; simpl;
  rewrite ?Rmult_1_l, ?Rmult_1_r, ?Rplus_0_r, ?Rmult_0_r, ?Rmult_0_l,
    ?Rplus_0_l.

(** C7 as stated fails in its second half.  Two tokens are packed in one
    row with a segment boundary between them ([seq_idx = [0; 1]]) and an
    all-valid mask; the layer has convolution width one, so the second token
    sees nothing of the first through the convolution.  The recurrence state
    [forward] leaves after the row differs from the state the second token
    produces alone from a zero state: the state of the first segment was
    carried across the boundary, not reset. *)
Lemma segment_boundary_state_is_carried :
  let packed :=
    snd (forward (tiny_layer false) [[1]; [1]] (Some [0%nat; 1%nat])
                 (Some KeyValueMemory) (Some [1; 1]) None tiny_store) in
  let alone :=
    snd (forward (tiny_layer false) [[1]] (Some [1%nat])
                 (Some KeyValueMemory) (Some [1]) None tiny_store) in
  heap packed 9%nat <> heap alone 9%nat.
Proof.
  cbv zeta.
  rewrite (forward_cached _ _ _ _ _ _ _ 8%nat 9%nat) by (simpl; (reflexivity || lia)).
  rewrite (forward_full_run (tiny_layer false) _ (Some (8%nat, 9%nat)));
    [|apply tiny_norms|apply tiny_separate].
  rewrite (forward_cached_one _ _ _ _ _ _ _ 8%nat 9%nat);
    [|reflexivity|apply tiny_separate].
  cbv zeta. cbn [fast_path tiny_layer jamba_norm gmu_save use_fast_path negb andb].
  cbn [snd cache_store heap]. rewrite !upd_eq.
  unfold forward_pure, reference_path, weights, norm_weights, in_proj_T,
    step_pure, step_xz, conv_update, conv_out, ssm_update, ssm_y, step_dt, step_B,
    step_C, discretize_A, discretize_B.
  simpl. real_norm.
  intros H. injection H as H.
  pose proof (silu_pos 1 ltac:(lra)) as Ha.
  pose proof (softplus_pos 0) as Hd.
  pose proof (exp_pos (softplus 0 * - exp 0)) as He.
  assert (0 < silu 1 * (softplus 0 * silu 1) * exp (softplus 0 * - exp 0)).
  { apply Rmult_lt_0_compat;
      [apply Rmult_lt_0_compat;
         [exact Ha|apply Rmult_lt_0_compat; [exact Hd|exact Ha]]
      |exact He]. }
  lra.
Qed.

Lemma nth_mul_zero (x m : vec) t : nth t m 0 = 0 -> nth t (mul x m) 0 = 0.
Proof.
  unfold mul. revert m t. induction x as [|a x IH]; intros [|b m] [|t] H;
    simpl in *; try reflexivity.
  - subst b. ring.
  - now apply IH.
Qed.

Lemma apply_mask_zero (m : vec) (x : mat) d t :
  nth t m 0 = 0 -> nth t (nth d (apply_mask (Some m) x) []) 0 = 0.
Proof.
  intros H. cbn [apply_mask].
  destruct (Nat.lt_ge_cases d (length x)) as [Hd|Hd].
  - rewrite (nth_map_in _ _ _ []) by assumption. now apply nth_mul_zero.
  - rewrite (nth_overflow (map _ x)) by (now rewrite length_map).
    now destruct t.
Qed.

Lemma reference_path_ox N R K L g j cw cb xw dw db A sk ow ob mask gm xz :
  snd (fst (fst (reference_path N R K L g j cw cb xw dw db A sk ow ob mask gm xz)))
  = apply_mask mask (fst (chunk2 xz)).
Proof.
  unfold reference_path.
  destruct (chunk2 xz) as [x z]. cbn [fst].
  destruct (ssm_inputs _ _ _ _ _ _ _) as [[dt B] C].
  destruct (selective_scan_fn _ _ _ _ _ _ _ _) as [y last].
  now destruct g.
Qed.

(* ================================================================== *)
(** ** [forward] against successive [step] calls *)
(* ================================================================== *)

Lemma upd_cache_overwrite h cl sl a b c d :
  upd (upd (upd (upd h cl a) sl b) cl c) sl d = upd (upd h cl c) sl d.
Proof.
  apply functional_extensionality. intros l. unfold upd.
  destruct (Nat.eqb l sl), (Nat.eqb l cl); reflexivity.
Qed.

(** What [L] successive calls of [step] do to the store. *)
Lemma decode_run self tokens cl sl s :
  separate self cl sl ->
  decode self tokens cl sl s =
  let r := decode_pure self (weights self (heap s)) tokens
                       (as_mat (heap s cl)) (as_mat (heap s sl)) in
  (inr (fst (fst r)),
   match tokens with
   | [] => s
   | _ :: _ => cache_store s (Some (cl, sl)) (snd (fst r)) (snd r)
   end).
Proof.
  intros Hsep. revert s. induction tokens as [|h tokens IH]; intros s.
  - reflexivity.
  - cbn [decode]. rewrite (bind_ok _ _ _ _ _ (step_run self h cl sl s Hsep)).
    cbv zeta. rewrite (bind_ok _ _ _ _ _ (IH _)). cbv zeta.
    cbn [heap next kv ret].
    destruct Hsep as (Hne & Hc & Hs).
    rewrite !weights_upd by assumption.
    rewrite upd_eq. rewrite (upd_neq _ sl cl) by congruence. rewrite upd_eq.
    cbn [as_mat decode_pure].
    destruct (step_pure _ _ h _ _) as [[out cs'] ss'].
    cbn [fst snd].
    destruct (decode_pure _ _ tokens cs' ss') as [[outs cs''] ss''] eqn:Hd.
    cbn [fst snd app]. f_equal.
    destruct tokens as [|h' tokens'].
    + cbn in Hd. injection Hd as <- <- <-. reflexivity.
    + unfold cache_store. cbn [heap next kv].
      now rewrite upd_cache_overwrite.
Qed.

Lemma silu_1_bounds : 0 < silu 1 <= 3 / 4.
Proof.
  unfold silu. pose proof exp_le_3 as H3. pose proof (exp_pos 1) as Hp.
  assert (He : / 3 <= exp (Ropp 1)).
  { rewrite exp_Ropp. apply Rinv_le_contravar; lra. }
  pose proof (exp_pos (Ropp 1)) as Hn.
  split.
  - apply Rmult_lt_0_compat; [lra|]. apply Rdiv_lt_0_compat; lra.
  - rewrite Rmult_1_l. apply (Rmult_le_reg_r (1 + exp (Ropp 1))); [lra|].
    unfold Rdiv at 1. rewrite Rmult_1_l, Rinv_l by lra. lra.
Qed.

(** C1 fails on the code when [jamba_norm] is set.  [forward] passes the
    step-size signal and the two coupling vectors through the three norms
    (lines 247-250); [step] never does (lines 336-339).  On the layer of
    width one with [jamba_norm = True], a zero cache and the two tokens
    [[1]; [1]], the outputs of one [forward] call differ from the outputs of
    two [step] calls. *)
Lemma jamba_norm_breaks_equivalence :
  exists out_fwd aux s1 out_dec s2,
    forward (tiny_layer true) [[1]; [1]] None (Some KeyValueMemory) None None
            tiny_store = (inr (Pair out_fwd aux), s1)
    /\ decode (tiny_layer true) [[1]; [1]] 8%nat 9%nat tiny_store
       = (inr out_dec, s2)
    /\ out_fwd <> out_dec.
Proof.
  do 5 eexists. split; [|split].
  - rewrite (forward_cached _ _ _ _ _ _ _ 8%nat 9%nat) by (simpl; (reflexivity || lia)).
    rewrite (forward_full_run (tiny_layer true) _ (Some (8%nat, 9%nat)));
      [|apply tiny_norms|apply tiny_separate].
    cbv zeta. cbn [fast_path tiny_layer jamba_norm gmu_save use_fast_path negb andb].
    reflexivity.
  - rewrite (decode_run _ _ _ _ _ (tiny_separate true)). cbv zeta. reflexivity.
  - unfold forward_pure, reference_path, weights, norm_weights, in_proj_T,
      step_pure, step_xz, conv_update, conv_out, ssm_update, ssm_y, step_dt, step_B,
      step_C, discretize_A, discretize_B.
    simpl. unfold FusedRMSNorm.
    repeat (progress (unfold step_pure, step_xz, conv_update, conv_out,
                        ssm_update, ssm_y, step_dt, step_B, step_C,
                        discretize_A, discretize_B; simpl)).
    real_norm.
    intros H. injection H as H _.
    pose proof silu_1_bounds as (Ha & Ha').
    pose proof (softplus_pos 0) as Hd.
    set (a := silu 1) in *. set (dl := softplus 0) in *.
    set (q := a * a / 1 + 1 / 100000) in *.
    assert (Hq : 0 < q < 1) by (unfold q; nra).
    assert (Hs : 0 < sqrt q < 1).
    { split; [apply sqrt_lt_R0; lra|].
      replace 1 with (sqrt 1) at 1 by apply sqrt_1.
      apply sqrt_lt_1; lra. }
    assert (Hc : 1 < 1 / sqrt q).
    { unfold Rdiv. rewrite Rmult_1_l.
      replace 1 with (/ 1) at 1 by apply Rinv_1.
      apply Rinv_lt_contravar; lra. }
    set (c := 1 / sqrt q) in *.
    assert (HP : 0 < a * a * dl).
    { apply Rmult_lt_0_compat; [apply Rmult_lt_0_compat; exact Ha|exact Hd]. }
    assert (HX : a * a * dl * (c * c) = a * a * dl) by nra.
    assert (HC : 1 < c * c) by nra.
    nra.
Qed.

(* ================================================================== *)
(** ** [forward] and [step] along a sequence *)
(* ================================================================== *)

Lemma decode_pure_split self W hs cs ss :
  decode_pure self W hs cs ss =
  let xcs := conv_scan W (map (fun h => fst (step_xz W h)) hs) cs in
  let ys := ssm_scan self W (fst xcs) ss in
  (gate_out W (fst ys) (map (fun h => snd (step_xz W h)) hs), snd xcs, snd ys).
Proof.
  revert cs ss. induction hs as [|h hs IH]; intros cs ss; [reflexivity|].
  cbn [decode_pure map conv_scan]. rewrite step_pure_eq.
  cbv beta iota zeta. rewrite IH. cbv beta iota zeta.
  destruct (conv_scan W _ (conv_update cs (fst (step_xz W h)))) as [xcs csf].
  cbn [fst snd ssm_scan].
  destruct (ssm_scan self W xcs _) as [ys ssf]. reflexivity.
Qed.

Lemma conv_scan_snd W xs cs : snd (conv_scan W xs cs) = fold_left conv_update xs cs.
Proof.
  revert cs. induction xs as [|x xs IH]; intros cs; [reflexivity|].
  cbn [conv_scan fold_left]. specialize (IH (conv_update cs x)).
  destruct (conv_scan W xs _). exact IH.
Qed.

Lemma conv_scan_length W xs cs : length (fst (conv_scan W xs cs)) = length xs.
Proof.
  revert cs. induction xs as [|x xs IH]; intros cs; [reflexivity|].
  cbn [conv_scan]. specialize (IH (conv_update cs x)).
  destruct (conv_scan W xs _). simpl in *. now rewrite IH.
Qed.

Lemma conv_scan_nth W xs cs t :
  (t < length xs)%nat ->
  nth t (fst (conv_scan W xs cs)) []
  = conv_out W (fold_left conv_update (firstn (S t) xs) cs).
Proof.
  revert cs t. induction xs as [|x xs IH]; intros cs t Ht; [simpl in Ht; lia|].
  cbn [conv_scan]. specialize (IH (conv_update cs x)).
  destruct (conv_scan W xs _) as [outs last]. cbn [fst] in *.
  destruct t as [|t]; [reflexivity|].
  cbn [nth firstn fold_left]. apply IH. simpl in Ht. lia.
Qed.

(** The recurrence of the spec is the recurrence of [step]. *)
Lemma zip3_state x_d dl A_d B s_d :
  channel_state x_d dl A_d B s_d
  = add (mul s_d (map (fun a => exp (dl * a)) A_d))
        (map (fun g => x_d * g) (map (fun b => dl * b) B)).
Proof.
  unfold channel_state, add, mul. revert A_d B.
  induction s_d as [|s s_d IH]; intros [|a A_d] [|b B]; simpl;
    try reflexivity.
  now rewrite IH.
Qed.

Lemma recurrence_state_eq A state x dl B :
  recurrence_state A state x dl B = ssm_update A dl B x state.
Proof.
  unfold ssm_update, discretize_A, discretize_B. cbv zeta.
  revert state x dl. induction A as [|A_d A IH]; intros [|s_d st] [|x_d x] [|d dl];
    simpl; try reflexivity.
  now rewrite IH, zip3_state.
Qed.

Lemma recurrence_output_eq W state x C :
  recurrence_output (w_skip W) state x C = ssm_y W state C x.
Proof.
  unfold recurrence_output, ssm_y, add, mul, dot.
  generalize (w_skip W) as sk. revert x.
  induction state as [|s_d st IH]; intros [|x_d x] [|D_d sk]; simpl;
    try reflexivity.
  now rewrite IH.
Qed.

Lemma recurrence_eq self W xs ss :
  recurrence (neg_exp (a_log W)) (w_skip W) ss xs
             (map (step_dt self W) xs) (map (step_B self W) xs)
             (map (step_C self W) xs)
  = ssm_scan self W xs ss.
Proof.
  revert ss. induction xs as [|x xs IH]; intros ss; [reflexivity|].
  cbn [map recurrence ssm_scan]. cbv zeta.
  rewrite recurrence_state_eq, recurrence_output_eq, IH. reflexivity.
Qed.


(** *** Transposition *)

Lemma transpose_length n M : length (transpose n M) = n.
Proof. unfold transpose. now rewrite length_map, length_seq. Qed.

Lemma transpose_nth n M t :
  (t < n)%nat -> nth t (transpose n M) [] = column t M.
Proof.
  intros H. unfold transpose.
  rewrite (nth_map_in _ _ _ 0%nat) by (now rewrite length_seq).
  now rewrite seq_nth.
Qed.

Lemma column_length t M : length (column t M) = length M.
Proof. unfold column. apply length_map. Qed.

Lemma column_nth (M : mat) d t : nth t (column d M) 0 = nth d (nth t M []) 0.
Proof.
  unfold column. destruct (Nat.lt_ge_cases t (length M)) as [H|H].
  - now rewrite (nth_map_in _ _ _ []).
  - rewrite (nth_overflow (map _ M)) by (now rewrite length_map).
    rewrite (nth_overflow M) by assumption. now destruct d.
Qed.

Lemma map_nth_seq (l : vec) : map (fun d => nth d l 0) (seq 0 (length l)) = l.
Proof.
  induction l as [|a l IH]; [reflexivity|].
  cbn [length seq map nth]. f_equal. rewrite <- seq_shift, map_map. exact IH.
Qed.

Lemma transpose_involutive n (M : mat) :
  rows n M -> transpose (length M) (transpose n M) = M.
Proof.
  intros Hr. apply (nth_ext _ _ [] []); [apply transpose_length|].
  intros t Ht. rewrite transpose_length in Ht.
  rewrite transpose_nth by assumption.
  unfold column at 1, transpose. rewrite map_map.
  transitivity (map (fun d => nth d (nth t M []) 0) (seq 0 n)).
  - apply map_ext. intros d. apply column_nth.
  - rewrite <- (rows_nth n M t Hr Ht). apply map_nth_seq.
Qed.

Lemma rows_transpose n (M : mat) : rows (length M) (transpose n M).
Proof.
  unfold rows, transpose. apply Forall_map, Forall_forall. intros d _.
  apply column_length.
Qed.

Lemma firstn_seq a k n : (k <= n)%nat -> firstn k (seq a n) = seq a k.
Proof.
  revert a n. induction k as [|k IH]; intros a [|n] H; simpl; try lia; auto.
  f_equal. apply IH. lia.
Qed.

Lemma skipn_seq a k n : skipn k (seq a n) = seq (a + k) (n - k).
Proof.
  revert a n. induction k as [|k IH]; intros a [|n]; simpl;
    rewrite ?Nat.add_0_r; try reflexivity.
  rewrite IH. f_equal. lia.
Qed.

Lemma map_by_index {B : Type} (f : vec -> B) (M : mat) :
  map f M = map (fun d => f (nth d M [])) (seq 0 (length M)).
Proof.
  induction M as [|r M IH]; [reflexivity|].
  cbn [length seq map nth]. f_equal. rewrite <- seq_shift, map_map. exact IH.
Qed.

Lemma linear_nth (W : mat) (b : option vec) (x : vec) d :
  (d < length W)%nat -> opt_length (length W) b ->
  nth d (linear W b x) 0
  = match b with
    | Some b => dot x (nth d W []) + nth d b 0
    | None => dot x (nth d W [])
    end.
Proof.
  intros Hd Hb. unfold linear. destruct b as [b|]; simpl in Hb.
  - unfold add. rewrite (nth_zipWith _ _ _ _ 0 0) by (rewrite ?length_map; lia).
    now rewrite (nth_map_in _ _ _ []).
  - now rewrite (nth_map_in _ _ _ []).
Qed.

(** The batched input projection of [forward] is, column by column, the
    per-token projection of [step]. *)
Lemma in_proj_T_columns (W : Weights) (hs : list vec) :
  opt_length (length (w_in W)) (b_in W) ->
  in_proj_T W hs
  = transpose (length (w_in W)) (map (linear (w_in W) (b_in W)) hs).
Proof.
  intros Hb. unfold in_proj_T. cbv zeta.
  apply (nth_ext _ _ [] []).
  - rewrite transpose_length. unfold matmul_T, add_rows.
    destruct (b_in W) as [b|]; simpl in Hb;
      rewrite ?zipWith_length, length_map; lia.
  - intros d Hd.
    assert (HdW : (d < length (w_in W))%nat).
    { revert Hd. unfold matmul_T, add_rows.
      destruct (b_in W) as [b|]; simpl in Hb;
        rewrite ?zipWith_length, length_map; lia. }
    rewrite transpose_nth by assumption.
    unfold column. rewrite map_map.
    unfold matmul_T, add_rows.
    destruct (b_in W) as [b|] eqn:Eb; simpl in Hb.
    + rewrite (nth_zipWith _ _ _ _ [] 0) by (rewrite ?length_map; lia).
      rewrite (nth_map_in _ _ _ []) by assumption. rewrite map_map.
      apply map_ext. intros h.
      rewrite linear_nth by (simpl; assumption).
      now rewrite dot_comm.
    + rewrite (nth_map_in _ _ _ []) by assumption.
      apply map_ext. intros h.
      rewrite linear_nth by (simpl; trivial).
      now rewrite dot_comm.
Qed.

Lemma seq_add a n : seq a n = map (Nat.add a) (seq 0 n).
Proof.
  revert a. induction n as [|n IH]; intros a; [reflexivity|].
  cbn [seq map]. rewrite Nat.add_0_r. f_equal.
  rewrite (IH (S a)), <- seq_shift, map_map.
  apply map_ext. intros i. lia.
Qed.

Lemma nth_skipn_add {A : Type} (l : list A) k d a :
  nth d (skipn k l) a = nth (k + d) l a.
Proof.
  revert l. induction k as [|k IH]; intros [|x l]; simpl; auto.
  now destruct d.
Qed.

Lemma chunk2_transpose (E : nat) (M : list vec) :
  chunk2 (transpose (2 * E) M)
  = (transpose E (map (firstn E) M), transpose E (map (skipn E) M)).
Proof.
  unfold chunk2. rewrite transpose_length, half_double.
  unfold transpose. rewrite firstn_map, skipn_map.
  rewrite firstn_seq by lia. rewrite skipn_seq.
  replace (2 * E - E)%nat with E by lia. f_equal.
  - apply map_ext_in. intros d Hd. apply in_seq in Hd.
    unfold column. rewrite map_map. apply map_ext. intros r.
    now rewrite nth_firstn_lt by lia.
  - cbn [Nat.add]. rewrite (seq_add E), map_map.
    apply map_ext. intros d.
    unfold column. rewrite map_map. apply map_ext. intros r.
    now rewrite nth_skipn_add.
Qed.

(** Lines 156-162 and 203 of [forward] against lines 316-317 of [step]. *)
Lemma forward_xz self W hs :
  shaped self W ->
  chunk2 (in_proj_T W hs)
  = (transpose (d_inner self) (map (fun h => fst (step_xz W h)) hs),
     transpose (d_inner self) (map (fun h => snd (step_xz W h)) hs)).
Proof.
  intros HW. rewrite in_proj_T_columns
    by (rewrite (sh_in _ _ HW); apply (sh_in_b _ _ HW)).
  rewrite (sh_in _ _ HW), chunk2_transpose, !map_map.
  f_equal; f_equal; apply map_ext; intros h; unfold step_xz, chunk2;
    cbn [fst snd]; now rewrite (step_xz_length self W h HW), half_double.
Qed.

(** *** The causal convolution, position by position *)

Lemma causal_window (K t : nat) (c : vec) :
  (1 <= K)%nat -> (t < length c)%nat ->
  firstn K (skipn t (zeros (K - 1) ++ c ++ zeros (K - 1)))
  = skipn (S t) (zeros K ++ firstn (S t) c).
Proof.
  intros HK Ht. destruct K as [|k]; [lia|].
  replace (S k - 1)%nat with k by lia.
  change (zeros (S k)) with (0 :: zeros k). cbn [app skipn].
  rewrite firstn_skipn_comm. f_equal.
  rewrite firstn_app, zeros_length.
  rewrite (firstn_all2 (zeros k)) by (rewrite zeros_length; lia).
  f_equal. replace (t + S k - k)%nat with (S t) by lia.
  rewrite firstn_app.
  replace (S t - length c)%nat with 0%nat by lia.
  cbn [firstn]. now rewrite app_nil_r.
Qed.

Lemma Forall_firstn {A : Type} (P : A -> Prop) n (l : list A) :
  Forall P l -> Forall P (firstn n l).
Proof.
  intros H. revert n. induction H as [|a l Ha _ IH]; intros [|n]; simpl;
    constructor; auto.
Qed.

Lemma fold_conv_update_length (E : nat) (xs : list vec) (cs : mat) :
  length cs = E -> Forall (fun x => length x = E) xs ->
  length (fold_left conv_update xs cs) = E.
Proof.
  intros Hcs Hxs. revert cs Hcs.
  induction Hxs as [|x xs Hx _ IH]; intros cs Hcs; [assumption|].
  cbn [fold_left]. apply IH. unfold conv_update.
  rewrite zipWith_length, length_map. lia.
Qed.

Lemma conv_act_length (E K L : nat) w b (X : mat) :
  length w = E -> opt_length E b -> length X = E ->
  length (conv_act w b K L X) = E.
Proof.
  intros Hw Hb HX. unfold conv_act, conv1d. rewrite length_map.
  destruct b as [b|]; simpl in Hb;
    rewrite zipWith_length, ?length_combine; lia.
Qed.

Lemma conv_act_rows (K L : nat) w b (X : mat) :
  (1 <= K)%nat -> rows K w -> rows L X -> rows L (conv_act w b K L X).
Proof.
  intros HK Hw HX. unfold conv_act, rows. apply Forall_map.
  assert (H : Forall (fun r => (L <= length r)%nat) (conv1d w b (K - 1) X)).
  { unfold conv1d. destruct b as [b|].
    - revert X HX b. induction Hw as [|wd w Hwd _ IH]; intros X HX b;
        [constructor|].
      destruct b as [|bd b]; [constructor|].
      destruct HX as [|xd X Hxd HX]; [constructor|].
      cbn [combine zipWith]. constructor; [|now apply IH].
      unfold conv1d_channel. cbn [fst snd]. cbn beta in Hwd, Hxd.
      rewrite length_map, length_seq, !length_app, !zeros_length. lia.
    - revert X HX. induction Hw as [|wd w Hwd _ IH]; intros X HX;
        [constructor|].
      destruct HX as [|xd X Hxd HX]; [constructor|].
      cbn [zipWith]. constructor; [|now apply IH].
      unfold conv1d_channel. cbn beta in Hwd, Hxd.
      rewrite length_map, length_seq, !length_app, !zeros_length. lia. }
  eapply Forall_impl; [|exact H]. intros r Hr. cbn beta in *.
  rewrite length_map, length_firstn. lia.
Qed.

(** The stateless convolution of [forward], read along the time axis, is
    the sequence of outputs of the ring buffer of [step] started at zero. *)
Lemma conv_columns self W (XS : list vec) :
  shaped self W -> (1 <= d_conv self)%nat ->
  Forall (fun x => length x = d_inner self) XS ->
  transpose (length XS)
    (conv_act (w_conv W) (b_conv W) (d_conv self) (length XS)
              (transpose (d_inner self) XS))
  = fst (conv_scan W XS (zeros2 (d_inner self) (d_conv self))).
Proof.
  intros HW HK HX.
  set (E := d_inner self). set (K := d_conv self). set (L := length XS).
  assert (Hz : length (zeros2 E K) = E) by apply repeat_length.
  assert (Hzr : rows K (zeros2 E K)).
  { unfold rows, zeros2. apply Forall_forall. intros r Hr.
    apply repeat_spec in Hr. subst r. apply zeros_length. }
  apply (nth_ext _ _ [] []).
  - now rewrite transpose_length, conv_scan_length.
  - intros t Ht. rewrite transpose_length in Ht.
    rewrite transpose_nth, conv_scan_nth by assumption.
    assert (Hfl : length (fold_left conv_update (firstn (S t) XS) (zeros2 E K)) = E).
    { apply fold_conv_update_length; [assumption|]. now apply Forall_firstn. }
    apply (nth_ext _ _ 0 0).
    + rewrite column_length. rewrite (conv_act_length E);
        try apply transpose_length;
        [|apply (sh_conv _ _ HW)|apply (sh_conv_b _ _ HW)].
      symmetry. apply (conv_out_length self W HW). exact Hfl.
    + intros d Hd. rewrite column_length in Hd.
      rewrite (conv_act_length E) in Hd;
        try apply transpose_length;
        [|apply (sh_conv _ _ HW)|apply (sh_conv_b _ _ HW)].
      rewrite column_nth.
      rewrite (conv_act_nth E K L); try assumption; try lia;
        [|apply (sh_conv _ _ HW)|apply (sh_conv_rows _ _ HW)
         |apply (sh_conv_b _ _ HW)|apply transpose_length
         |apply rows_transpose].
      rewrite (conv_out_nth E); try assumption;
        [|apply (sh_conv _ _ HW)|apply (sh_conv_b _ _ HW)].
      cbv zeta.
      rewrite (conv_feed_row E) by (try assumption; now apply Forall_firstn).
      rewrite ring_feed.
      2:{ unfold zeros2. rewrite nth_repeat_lt by assumption.
          intros Hn. apply (f_equal (@length R)) in Hn.
          rewrite zeros_length in Hn. simpl in Hn. unfold K in Hn. lia. }
      rewrite transpose_nth by assumption.
      rewrite causal_window by (try assumption; now rewrite column_length).
      unfold zeros2 at 1 2. rewrite !nth_repeat_lt by assumption.
      rewrite length_map, length_firstn.
      replace (Nat.min (S t) (length XS)) with (S t) by (fold L; lia).
      unfold column. rewrite <- firstn_map.
      set (win := skipn (S t) _).
      rewrite (mul_comm win). reflexivity.
Qed.

(** *** The recurrence of [forward], token by token *)

Lemma transpose_matmul_T (W : mat) (X : list vec) :
  transpose (length X) (matmul_T W X)
  = map (fun x => map (fun w => dot w x) W) X.
Proof.
  apply (nth_ext _ _ [] []); [now rewrite transpose_length, length_map|].
  intros t Ht. rewrite transpose_length in Ht.
  rewrite transpose_nth by assumption.
  rewrite (nth_map_in _ _ _ []) by assumption.
  unfold column, matmul_T. rewrite map_map. apply map_ext. intros w.
  now rewrite (nth_map_in _ _ _ []).
Qed.

Lemma zipWith_flip {A B C : Type} (f : A -> B -> C) l1 l2 :
  zipWith f l1 l2 = zipWith (fun b a => f a b) l2 l1.
Proof.
  revert l2. induction l1 as [|a l1 IH]; intros [|b l2]; simpl; auto.
  now rewrite IH.
Qed.

Lemma mul_silu_nth (y z : vec) d :
  (d < length y)%nat -> (d < length z)%nat ->
  nth d (mul y (map silu z)) 0 = nth d y 0 * silu (nth d z 0).
Proof.
  intros Hy Hz. unfold mul.
  rewrite (nth_zipWith _ _ _ _ 0 0) by (rewrite ?length_map; lia).
  now rewrite (nth_map_in _ _ _ 0).
Qed.

(** Gating channel by channel and gating token by token agree. *)
Lemma gate_transpose (E L : nat) (ys zs : list vec) :
  length ys = L -> length zs = L -> rows E ys -> rows E zs ->
  transpose L (zipWith (fun o z => mul o (map silu z))
                       (transpose E ys) (transpose E zs))
  = zipWith (fun y z => mul y (map silu z)) ys zs.
Proof.
  intros Hy Hz Hyr Hzr.
  apply (nth_ext _ _ [] []).
  - rewrite transpose_length, zipWith_length. lia.
  - intros t Ht. rewrite transpose_length in Ht.
    rewrite transpose_nth by assumption.
    rewrite (nth_zipWith _ ys zs _ [] []) by lia.
    assert (Hyt : length (nth t ys []) = E) by (apply rows_nth; [assumption|lia]).
    assert (Hzt : length (nth t zs []) = E) by (apply rows_nth; [assumption|lia]).
    apply (nth_ext _ _ 0 0).
    + rewrite column_length, zipWith_length, !transpose_length.
      rewrite mul_length, length_map. lia.
    + intros d Hd.
      rewrite column_length, zipWith_length, !transpose_length in Hd.
      rewrite column_nth.
      rewrite (nth_zipWith _ _ _ _ [] [])
        by (rewrite transpose_length; lia).
      rewrite !transpose_nth by lia.
      rewrite !mul_silu_nth by (rewrite ?column_length; lia).
      now rewrite !column_nth.
Qed.

Lemma ssm_update_length (E : nat) A dt B x ss :
  length A = E -> length dt = E -> length x = E -> length ss = E ->
  length (ssm_update A dt B x ss) = E.
Proof.
  intros HA Hdt Hx Hs. unfold ssm_update, discretize_A, discretize_B.
  cbv zeta. rewrite !zipWith_length, length_map. lia.
Qed.

Lemma ssm_y_length (E : nat) W ss C x :
  length ss = E -> length (w_skip W) = E -> length x = E ->
  length (ssm_y W ss C x) = E.
Proof.
  intros Hs HD Hx. unfold ssm_y.
  rewrite add_length, mul_length, length_map. lia.
Qed.

Lemma ssm_scan_shape self W xs ss :
  shaped self W -> length ss = d_inner self ->
  Forall (fun x => length x = d_inner self) xs ->
  length (fst (ssm_scan self W xs ss)) = length xs
  /\ rows (d_inner self) (fst (ssm_scan self W xs ss)).
Proof.
  intros HW Hs Hxs. revert ss Hs.
  induction Hxs as [|x xs Hx _ IH]; intros ss Hs; [split; [reflexivity|constructor]|].
  cbn [ssm_scan].
  set (ss' := ssm_update _ _ _ _ _).
  assert (Hs' : length ss' = d_inner self).
  { apply ssm_update_length; try assumption.
    - unfold neg_exp. rewrite length_map. apply (sh_A _ _ HW).
    - apply (step_dt_length self W HW). }
  destruct (IH ss' Hs') as [IH1 IH2].
  destruct (ssm_scan self W xs ss') as [ys last]. cbn [fst] in *.
  split; [simpl; now rewrite IH1|].
  constructor; [|exact IH2].
  apply ssm_y_length; try assumption. apply (sh_D _ _ HW).
Qed.

Lemma conv_scan_rows self W (xs : list vec) cs :
  shaped self W -> length cs = d_inner self ->
  Forall (fun x => length x = d_inner self) xs ->
  Forall (fun x => length x = d_inner self) (fst (conv_scan W xs cs)).
Proof.
  intros HW Hcs Hxs. revert cs Hcs.
  induction Hxs as [|x xs Hx _ IH]; intros cs Hcs; [constructor|].
  cbn [conv_scan].
  assert (Hc' : length (conv_update cs x) = d_inner self).
  { unfold conv_update. rewrite zipWith_length, length_map. lia. }
  specialize (IH _ Hc').
  destruct (conv_scan W xs (conv_update cs x)) as [outs last]. cbn [fst] in *.
  constructor; [|exact IH]. now apply (conv_out_length self W HW).
Qed.

Lemma zeros2_rows E K : rows K (zeros2 E K).
Proof.
  unfold rows, zeros2. apply Forall_forall. intros r Hr.
  apply repeat_spec in Hr. subst r. apply zeros_length.
Qed.

Lemma zeros2_length E K : length (zeros2 E K) = E.
Proof. apply repeat_length. Qed.

Lemma initial_state (A : mat) E N :
  length A = E -> rows N A ->
  map (fun A_d => zeros (length A_d)) (neg_exp A) = zeros2 E N.
Proof.
  intros HE Hr. subst E. unfold neg_exp, zeros2. rewrite map_map.
  induction Hr as [|a A Ha _ IH]; [reflexivity|].
  cbn [map length repeat]. rewrite length_map, Ha. f_equal. exact IH.
Qed.

Lemma hd_length (L : nat) (M : mat) :
  rows L M -> (1 <= length M)%nat -> length (hd [] M) = L.
Proof.
  intros Hr Hl. destruct Hr as [|r M Hr _]; [simpl in Hl; lia|exact Hr].
Qed.

Lemma Forall_map_length {A : Type} (f : A -> vec) (n : nat) (l : list A) :
  (forall a, length (f a) = n) -> rows n (map f l).
Proof.
  intros H. unfold rows. apply Forall_map, Forall_forall. intros a _. apply H.
Qed.

(** The inputs of the recurrence that [forward] computes in one batch are,
    token by token, those [step] computes. *)
Lemma ssm_inputs_columns self W (xc : mat) (L : nat) :
  shaped self W ->
  let XC := transpose L xc in
  ssm_inputs None (d_state self) (dt_rank self) L (w_x W) (w_dt W) xc
  = (matmul_T (w_dt W)
       (map (fun x => fst (fst (split3 (dt_rank self) (d_state self)
                                  (linear (w_x W) None x)))) XC),
     transpose (d_state self) (map (step_B self W) XC),
     transpose (d_state self) (map (step_C self W) XC)).
Proof.
  intros HW XC. unfold ssm_inputs. cbv beta iota zeta. fold XC.
  rewrite !map_map. reflexivity.
Qed.

Lemma deltas_columns self W (XC : list vec) :
  map (fun dl => map softplus (add dl (b_dt W)))
      (transpose (length XC)
         (matmul_T (w_dt W)
            (map (fun x => fst (fst (split3 (dt_rank self) (d_state self)
                                       (linear (w_x W) None x)))) XC)))
  = map (step_dt self W) XC.
Proof.
  rewrite <- (length_map (fun x => fst (fst (split3 (dt_rank self) (d_state self)
                                       (linear (w_x W) None x)))) XC) at 1.
  rewrite transpose_matmul_T, !map_map. apply map_ext. intros x.
  unfold step_dt. cbv zeta. do 2 f_equal. unfold linear.
  apply map_ext. intros w. apply dot_comm.
Qed.

Lemma scale_tokens_length mask (xs : list vec) :
  opt_length (length xs) mask -> length (scale_tokens mask xs) = length xs.
Proof.
  destruct mask as [m|]; [|reflexivity]. cbn [opt_length scale_tokens].
  intros H. rewrite zipWith_length. lia.
Qed.

Lemma scale_tokens_rows E mask (xs : list vec) :
  rows E xs -> rows E (scale_tokens mask xs).
Proof.
  destruct mask as [m|]; [|trivial]. cbn [scale_tokens]. unfold rows.
  intros H. revert m. induction H as [|x xs Hx _ IH]; intros [|a m];
    cbn [zipWith]; constructor; auto.
  now rewrite length_map.
Qed.

Lemma nth_scale (x : vec) (a : R) d :
  nth d (map (fun b => b * a) x) 0 = nth d x 0 * a.
Proof.
  revert d. induction x as [|b x IH]; intros [|d]; simpl; auto; ring.
Qed.

Lemma column_scale d (xs : list vec) (m : vec) :
  mul (column d xs) m
  = column d (zipWith (fun x m_t => map (fun a => a * m_t) x) xs m).
Proof.
  unfold mul, column. revert m.
  induction xs as [|x xs IH]; intros [|a m]; cbn [map zipWith];
    try reflexivity.
  f_equal; [|apply IH]. symmetry. apply nth_scale.
Qed.

Lemma apply_mask_tokens E mask (xs : list vec) :
  apply_mask mask (transpose E xs) = transpose E (scale_tokens mask xs).
Proof.
  destruct mask as [m|]; [|reflexivity].
  cbn [apply_mask scale_tokens]. unfold transpose. rewrite map_map.
  apply map_ext. intros d. apply column_scale.
Qed.

Lemma scale_tokens_zero (m : vec) (xs : list vec) t d :
  nth t m 0 = 0 -> nth d (nth t (scale_tokens (Some m) xs) []) 0 = 0.
Proof.
  cbn [scale_tokens]. revert m t.
  induction xs as [|x xs IH]; intros [|a m] [|t] H; cbn [zipWith nth];
    try (now destruct d).
  - simpl in H. subst a. rewrite nth_scale. ring.
  - apply IH. exact H.
Qed.

(** The reference branch of [forward] without norms, with or without a
    mask, in terms of the scans of [step]: the ring buffer is fed the
    masked tokens, the convolution outputs are masked again, and the
    recurrence runs over all of them from a zero state. *)
Lemma forward_pure_mask_scan self W hs mask gmu :
  shaped self W -> (1 <= d_conv self)%nat -> (1 <= d_inner self)%nat ->
  opt_length (length hs) mask ->
  let XS := scale_tokens mask (map (fun h => fst (step_xz W h)) hs) in
  let ZS := map (fun h => snd (step_xz W h)) hs in
  let xcs := conv_scan W XS (zeros2 (d_inner self) (d_conv self)) in
  let XC := scale_tokens mask (fst xcs) in
  let r := ssm_scan self W XC (zeros2 (d_inner self) (d_state self)) in
  forward_pure self W None hs mask gmu
  = (gate_out W (fst r) ZS, transpose (d_inner self) XS, snd r,
     if gmu_save self then Some (fst r) else gmu).
Proof.
  intros HW HK HE Hm XS ZS xcs XC r.
  set (L := length hs) in *.
  set (XS0 := map (fun h => fst (step_xz W h)) hs) in *.
  assert (HXS0l : length XS0 = L) by apply length_map.
  assert (HXSl : length XS = L)
    by (unfold XS; rewrite scale_tokens_length; now rewrite HXS0l).
  assert (HZSl : length ZS = L) by apply length_map.
  assert (HXSr : rows (d_inner self) XS).
  { apply scale_tokens_rows, Forall_map_length. intros h.
    now apply step_x0_length. }
  assert (HZSr : rows (d_inner self) ZS)
    by (apply Forall_map_length; intros h; now apply step_z_length).
  assert (HXC0l : length (fst xcs) = L)
    by (unfold xcs; now rewrite conv_scan_length).
  assert (HXC0r : rows (d_inner self) (fst xcs)).
  { unfold xcs. apply (conv_scan_rows self W); try assumption.
    apply zeros2_length. }
  assert (HXCl : length XC = L)
    by (unfold XC; rewrite scale_tokens_length; now rewrite HXC0l).
  assert (HXCr : rows (d_inner self) XC) by now apply scale_tokens_rows.
  destruct (ssm_scan_shape self W XC (zeros2 (d_inner self) (d_state self))
              HW (zeros2_length (d_inner self) (d_state self)) HXCr)
    as [Hyl Hyr].
  fold r in Hyl, Hyr.
  unfold forward_pure, reference_path.
  rewrite (forward_xz self W hs HW). fold XS0 ZS L.
  cbv beta iota zeta.
  rewrite (apply_mask_tokens (d_inner self) mask XS0). fold XS.
  set (xc0 := conv_act (w_conv W) (b_conv W) (d_conv self) L
                       (transpose (d_inner self) XS)).
  assert (Hxc0 : transpose L xc0 = fst xcs).
  { unfold xc0, xcs. rewrite <- HXSl. now apply conv_columns. }
  assert (Hxc0l : length xc0 = d_inner self).
  { unfold xc0. apply conv_act_length;
      [apply (sh_conv _ _ HW)|apply (sh_conv_b _ _ HW)|apply transpose_length]. }
  assert (Hxc0r : rows L xc0).
  { unfold xc0. apply conv_act_rows; [assumption|apply (sh_conv_rows _ _ HW)|].
    rewrite <- HXSl. apply rows_transpose. }
  assert (Hxc0' : xc0 = transpose (d_inner self) (fst xcs)).
  { rewrite <- Hxc0, <- Hxc0l. symmetry. now apply transpose_involutive. }
  rewrite Hxc0', (apply_mask_tokens (d_inner self) mask (fst xcs)). fold XC.
  set (xc := transpose (d_inner self) XC).
  assert (Hxc : transpose L xc = XC).
  { unfold xc. rewrite <- HXCl. now apply transpose_involutive. }
  assert (Hxcl : length xc = d_inner self) by apply transpose_length.
  assert (Hxcr : rows L xc) by (rewrite <- HXCl; apply rows_transpose).
  rewrite (ssm_inputs_columns self W xc L HW). cbv zeta. rewrite Hxc.
  unfold selective_scan_fn.
  rewrite (hd_length L xc Hxcr) by lia.
  rewrite Hxc.
  rewrite <- HXCl at 1. rewrite deltas_columns.
  assert (HB : transpose L (transpose (d_state self) (map (step_B self W) XC))
               = map (step_B self W) XC).
  { rewrite <- HXCl, <- (length_map (step_B self W) XC).
    apply transpose_involutive, Forall_map_length. now apply step_B_length. }
  assert (HC : transpose L (transpose (d_state self) (map (step_C self W) XC))
               = map (step_C self W) XC).
  { rewrite <- HXCl, <- (length_map (step_C self W) XC).
    apply transpose_involutive, Forall_map_length. now apply step_C_length. }
  rewrite HB, HC.
  rewrite (initial_state (a_log W) (d_inner self) (d_state self)
             (sh_A _ _ HW) (sh_A_rows _ _ HW)).
  rewrite recurrence_eq. fold r.
  destruct r as [ys last]. cbn [fst snd] in *.
  rewrite Hxcl.
  assert (Hy : length ys = L) by congruence.
  destruct (gmu_save self).
  - replace (transpose L (transpose (d_inner self) ys)) with ys
      by (rewrite <- Hy; symmetry; now apply transpose_involutive).
    replace (transpose L (transpose (d_inner self) ZS)) with ZS
      by (rewrite <- HZSl; symmetry; now apply transpose_involutive).
    unfold gate_out, swiglu. rewrite (zipWith_flip _ ZS ys). reflexivity.
  - rewrite (gate_transpose (d_inner self) L ys ZS) by assumption. reflexivity.
Qed.

(** Without a mask: the reference branch is the scans of [step] on the
    tokens themselves. *)
Lemma forward_pure_scan self W hs gmu :
  shaped self W -> (1 <= d_conv self)%nat -> (1 <= d_inner self)%nat ->
  let XS := map (fun h => fst (step_xz W h)) hs in
  let ZS := map (fun h => snd (step_xz W h)) hs in
  let XC := fst (conv_scan W XS (zeros2 (d_inner self) (d_conv self))) in
  let r := ssm_scan self W XC (zeros2 (d_inner self) (d_state self)) in
  forward_pure self W None hs None gmu
  = (gate_out W (fst r) ZS, transpose (d_inner self) XS, snd r,
     if gmu_save self then Some (fst r) else gmu).
Proof.
  intros HW HK HE.
  exact (forward_pure_mask_scan self W hs None gmu HW HK HE I).
Qed.

(** *** The ring buffer after a whole sequence *)

Lemma skipn_zeros k n : skipn k (zeros n) = zeros (n - k).
Proof.
  unfold zeros. revert n. induction k as [|k IH]; intros [|n]; simpl; auto.
Qed.

Lemma pad_left_ring (K : nat) (c : vec) :
  pad_left (Z.of_nat K - Z.of_nat (length c)) c
  = skipn (length c) (zeros K ++ c).
Proof.
  unfold pad_left. rewrite skipn_app, skipn_zeros, zeros_length.
  destruct (Z.leb_spec 0 (Z.of_nat K - Z.of_nat (length c))) as [H|H].
  - replace (length c - K)%nat with 0%nat by lia. cbn [skipn].
    f_equal. f_equal. lia.
  - replace (K - length c)%nat with 0%nat by lia. cbn [zeros repeat app].
    f_equal. lia.
Qed.

(** Line 238 of [forward] against lines 321-322 of [step]: the padded (or
    cropped) convolution input is the ring buffer after the whole sequence
    has been fed to a zeroed buffer. *)
Lemma pad_left_feed (E K : nat) (XS : list vec) :
  (1 <= K)%nat -> rows E XS ->
  map (pad_left (Z.of_nat K - Z.of_nat (length XS))) (transpose E XS)
  = fold_left conv_update XS (zeros2 E K).
Proof.
  intros HK HX.
  assert (Hfl : length (fold_left conv_update XS (zeros2 E K)) = E)
    by (apply fold_conv_update_length; [apply zeros2_length|assumption]).
  apply (nth_ext _ _ [] []).
  - now rewrite length_map, transpose_length.
  - intros d Hd. rewrite length_map, transpose_length in Hd.
    rewrite (nth_map_in _ _ _ []) by (now rewrite transpose_length).
    rewrite transpose_nth by assumption.
    rewrite (conv_feed_row E) by (try assumption; apply zeros2_length).
    rewrite ring_feed.
    2:{ unfold zeros2. rewrite nth_repeat_lt by assumption.
        intros Hn. apply (f_equal (@length R)) in Hn.
        rewrite zeros_length in Hn. simpl in Hn. lia. }
    unfold zeros2. rewrite nth_repeat_lt by assumption.
    rewrite length_map. fold (column d XS).
    rewrite <- (column_length d XS). apply pad_left_ring.
Qed.

Lemma upd_same (h : loc -> tensor) l t : h l = t -> upd h l t = h.
Proof.
  intros H. apply functional_extensionality. intros l'. unfold upd.
  destruct (Nat.eqb_spec l' l); congruence.
Qed.

(** *** One [forward] call against one [step] call per token *)

Lemma norm_weights_off self h : jamba_norm self = false -> norm_weights self h = None.
Proof. intros H. unfold norm_weights. now rewrite H. Qed.

Lemma norms_present_off self : jamba_norm self = false -> norms_present self.
Proof. intros H H'. congruence. Qed.

Lemma fast_path_cached self c : fast_path self (Some c) = false.
Proof. unfold fast_path. apply andb_false_r. Qed.

(** *** The ring buffer of [step] against the convolution of [forward] *)

(** After [K] inputs the ring buffer holds exactly those inputs, whatever
    it held before: row [d] is channel [d] of the inputs, in order. *)
Lemma conv_ring_holds_inputs (E K : nat) (xs : list vec) (cs : mat) :
  (1 <= K)%nat -> length cs = E -> rows K cs -> length xs = K ->
  Forall (fun x => length x = E) xs ->
  fold_left conv_update xs cs = transpose E xs.
Proof.
  intros HK Hcs Hr Hxs Hxl.
  apply (nth_ext _ _ [] []).
  - now rewrite (fold_conv_update_length E), transpose_length.
  - intros d Hd. rewrite (fold_conv_update_length E) in Hd by assumption.
    rewrite (conv_feed_row E) by assumption.
    rewrite transpose_nth by assumption.
    assert (Hc : length (nth d cs []) = K) by (apply rows_nth; [assumption|lia]).
    rewrite ring_feed by (intros Hn; rewrite Hn in Hc; simpl in Hc; lia).
    rewrite length_map, Hxs, <- Hc.
    rewrite skipn_app, skipn_all, Nat.sub_diag. reflexivity.
Qed.

(** The ring buffer [forward] leaves in the cache after a sequence as long
    as the convolution is wide: the input of its causal convolution. *)
Lemma forward_leaves_conv_input self hs si ip gmu s cl sl :
  norms_present self ->
  kv s (layer_idx self) = Some (cl, sl) -> separate self cl sl ->
  length hs <> 1%nat -> length hs = d_conv self ->
  as_mat (heap (snd (forward self hs si (Some ip) None gmu s)) cl)
  = fst (chunk2 (in_proj_T (weights self (heap s)) hs)).
Proof.
  intros Hn Hkv Hsep H1 HK.
  rewrite (forward_cached self hs si ip None gmu s cl sl Hkv H1).
  rewrite (forward_full_run self hs (Some (cl, sl)) None gmu s Hn Hsep).
  cbv zeta. rewrite fast_path_cached. cbn [snd cache_store heap].
  destruct Hsep as (Hne & _ & _).
  rewrite upd_neq, upd_eq by assumption. cbn [as_mat].
  unfold forward_pure. rewrite reference_path_ox. cbn [apply_mask].
  rewrite HK, Z.sub_diag.
  rewrite <- (map_id (fst (chunk2 _))) at 2.
  apply map_ext. intros v. reflexivity.
Qed.

(** C4.  For a layer with a convolution of any width [K >= 1] (in
    particular [K = 4]), any filter and bias, any parameters of the
    layer's shapes, any content of the cache and any [K] tokens: after
    [K - 1] calls of [step], the [K]-th call leaves in the ring buffer
    exactly the [K] inputs that [forward] hands to its causal convolution
    on the same tokens (the expanded branch [x] of the input projection),
    which is also the buffer one cached [forward] call on these tokens
    leaves; the weighted sum of the buffered values plus the bias,
    activated, that [step] computes is in every channel the [K]-th output
    of the stateless causal convolution of [forward] (left zero padding by
    [K - 1], truncation to the sequence length, activation); and it is
    from this value that [step] updates the recurrence state and computes
    the output it returns. *)
Theorem step_ring_buffer_matches_causal_conv (self : Mamba) (hs : list vec)
    (h : vec) (conv_state ssm_state : loc) (s : store) :
  separate self conv_state ssm_state ->
  shaped self (weights self (heap s)) ->
  cache_shaped self (as_mat (heap s conv_state)) (as_mat (heap s ssm_state)) ->
  (1 <= d_conv self)%nat ->
  length (hs ++ [h]) = d_conv self ->
  let W := weights self (heap s) in
  let X := fst (chunk2 (in_proj_T W (hs ++ [h]))) in
  let xK := column (d_conv self - 1)
              (conv_act (w_conv W) (b_conv W) (d_conv self)
                        (length (hs ++ [h])) X) in
  exists outs s1 s2,
    decode self hs conv_state ssm_state s = (inr outs, s1)
    /\ step self [h] conv_state ssm_state s1
       = (inr ([linear (w_out W) (b_out W)
                  (mul (ssm_y W (as_mat (heap s2 ssm_state))
                              (step_C self W xK) xK)
                       (map silu (snd (step_xz W h))))],
               conv_state, ssm_state), s2)
    /\ as_mat (heap s2 conv_state) = X
    /\ conv_out W (as_mat (heap s2 conv_state)) = xK
    /\ as_mat (heap s2 ssm_state)
       = ssm_update (neg_exp (a_log W)) (step_dt self W xK) (step_B self W xK)
                    xK (as_mat (heap s1 ssm_state))
    /\ (norms_present self ->
        kv s (layer_idx self) = Some (conv_state, ssm_state) ->
        d_conv self <> 1%nat ->
        forall seq_idx ip gmu_mems,
          as_mat (heap (snd (forward self (hs ++ [h]) seq_idx (Some ip) None
                                     gmu_mems s)) conv_state)
          = as_mat (heap s2 conv_state)).
Proof.
  intros Hsep HW Hcache HK HL W X xK.
  rewrite (decode_run self hs conv_state ssm_state s Hsep). cbv zeta.
  fold W. rewrite decode_pure_split. cbv zeta. cbn [fst snd].
  set (fx := fun h0 : vec => fst (step_xz W h0)).
  set (fz := fun h0 : vec => snd (step_xz W h0)).
  set (cs0 := as_mat (heap s conv_state)).
  set (ss0 := as_mat (heap s ssm_state)).
  set (xcs := conv_scan W (map fx hs) cs0).
  set (r := ssm_scan self W (fst xcs) ss0).
  set (s1 := match hs with [] => s | _ :: _ => _ end).
  assert (Hw1 : weights self (heap s1) = W).
  { unfold s1. destruct hs; [reflexivity|].
    destruct Hsep as (Hne & Hc & Hs). cbn [cache_store heap].
    now rewrite !weights_upd by assumption. }
  assert (Hc1 : as_mat (heap s1 conv_state) = snd xcs).
  { unfold s1. destruct hs as [|h0 hs']; [reflexivity|].
    destruct Hsep as (Hne & Hc & Hs). cbn [cache_store heap].
    now rewrite upd_neq, upd_eq by assumption. }
  assert (HXS : Forall (fun x => length x = d_inner self) (map fx (hs ++ [h]))).
  { apply Forall_map, Forall_forall. intros h0 _. unfold fx.
    apply (step_x0_length self W h0 HW). }
  assert (Hfeed : conv_update (snd xcs) (fx h)
                  = fold_left conv_update (map fx (hs ++ [h])) cs0).
  { unfold xcs. rewrite conv_scan_snd, map_app, fold_left_app. reflexivity. }
  assert (HX : X = transpose (d_inner self) (map fx (hs ++ [h]))).
  { unfold X. now rewrite (forward_xz self W _ HW). }
  assert (Hout : conv_out W (conv_update (snd xcs) (fx h)) = xK).
  { rewrite Hfeed. unfold xK. rewrite HX.
    rewrite <- (length_map fx (hs ++ [h])).
    apply conv_ring_kth_output; try assumption.
    - apply (sh_conv _ _ HW).
    - apply (sh_conv_rows _ _ HW).
    - apply (sh_conv_b _ _ HW).
    - apply (sh_cs _ _ _ Hcache).
    - apply (sh_cs_rows _ _ _ Hcache).
    - now rewrite length_map. }
  set (cs' := conv_update (snd xcs) (fx h)) in *.
  set (ss' := ssm_update (neg_exp (a_log W)) (step_dt self W xK)
                         (step_B self W xK) xK (as_mat (heap s1 ssm_state))).
  exists (gate_out W (fst r) (map fz hs)), s1,
    (mkStore (upd (upd (heap s1) conv_state (T2 cs')) ssm_state (T2 ss'))
             (next s1) (kv s1)).
  split; [reflexivity|].
  rewrite (step_run self h conv_state ssm_state s1 Hsep). cbv zeta.
  rewrite Hw1, Hc1, step_pure_eq. cbv zeta. cbn [fst snd]. fold (fx h) (fz h).
  fold cs'. rewrite Hout. fold ss'.
  destruct Hsep as (Hne & Hc & Hs). cbn [heap].
  rewrite upd_eq, upd_neq, upd_eq by assumption. cbn [as_mat].
  assert (Hbuf : cs' = X).
  { rewrite Hfeed, HX.
    apply (conv_ring_holds_inputs (d_inner self) (d_conv self));
      try assumption.
    - apply (sh_cs _ _ _ Hcache).
    - apply (sh_cs_rows _ _ _ Hcache).
    - now rewrite length_map. }
  split; [reflexivity|]. split; [exact Hbuf|].
  split; [exact Hout|]. split; [reflexivity|].
  intros Hn Hkv H1 si ip gmu. rewrite Hbuf.
  apply (forward_leaves_conv_input self (hs ++ [h]) si ip gmu s conv_state
           ssm_state Hn Hkv);
    [split; [|split]; assumption|now rewrite HL|exact HL].
Qed.

(** X1 (the case of C1 that holds).  On a layer built without
    [jamba_norm], of positive inner and convolution width, whose cache
    tensors are zero: one [forward] call over the whole sequence with the
    cache attached and no mask returns exactly the outputs of one [step]
    call per token, in order, and leaves the ring buffer and the recurrence
    state as those calls leave them.  For a single token [forward] returns
    the bare tensor, otherwise the pair with the pre-gate export. *)
Theorem forward_matches_decode self hs si ip gmu s cl sl :
  jamba_norm self = false ->
  kv s (layer_idx self) = Some (cl, sl) ->
  separate self cl sl ->
  shaped self (weights self (heap s)) ->
  (1 <= d_conv self)%nat -> (1 <= d_inner self)%nat ->
  heap s cl = T2 (zeros2 (d_inner self) (d_conv self)) ->
  heap s sl = T2 (zeros2 (d_inner self) (d_state self)) ->
  exists out aux s',
    decode self hs cl sl s = (inr out, s')
    /\ forward self hs si (Some ip) None gmu s
       = (inr (if (length hs =? 1)%nat then Single out else Pair out aux), s').
Proof.
  intros Hj Hkv Hsep HW HK HE Hcl Hsl.
  rewrite (decode_run self hs cl sl s Hsep). cbv zeta.
  destruct (Nat.eqb_spec (length hs) 1) as [H1|H1].
  - destruct hs as [|h [|h' hs]]; try discriminate H1.
    rewrite (forward_cached_one self h si ip None gmu s cl sl Hkv Hsep).
    cbv zeta. cbn [decode_pure cache_store].
    destruct (step_pure _ _ h _ _) as [[out cs'] ss']. cbn [fst snd].
    exists [out], None. eexists. split; reflexivity.
  - rewrite (forward_cached self hs si ip None gmu s cl sl Hkv H1).
    rewrite (forward_full_run self hs (Some (cl, sl)) None gmu s
               (norms_present_off self Hj) Hsep).
    cbv zeta. rewrite fast_path_cached, (norm_weights_off self _ Hj).
    rewrite (forward_pure_scan self _ hs gmu HW HK HE). cbv zeta.
    rewrite decode_pure_split. cbv zeta. cbn [fst snd].
    rewrite Hcl, Hsl. cbn [as_mat].
    set (XS := map (fun h => fst (step_xz (weights self (heap s)) h)) hs).
    assert (HXSr : rows (d_inner self) XS)
      by (apply Forall_map_length; intros h; now apply step_x0_length).
    rewrite conv_scan_snd.
    replace (length hs) with (length XS) by apply length_map.
    rewrite (pad_left_feed (d_inner self) (d_conv self) XS HK HXSr).
    do 3 eexists. split; [|reflexivity].
    f_equal. destruct hs as [|h hs]; [|reflexivity].
    cbn [XS map conv_scan ssm_scan fst snd fold_left cache_store].
    destruct s as [hp nx k]. cbn [heap next kv] in *. f_equal.
    rewrite (upd_same hp cl) by assumption. symmetry. now apply upd_same.
Qed.

(* ================================================================== *)
(** ** Further properties of [forward], [step] and [__init__] *)
(* ================================================================== *)

(** *** A prefill overwrites the cache *)

(** X4.  A [forward] call with [support_init_states = False] (the default)
    over a sequence of length other than one with the cache attached does
    not read what the cache tensors hold: whatever they held, the call
    returns the same result and leaves the same store.  Such a prefill
    starts from an empty history; it does not continue one.  (Only a call
    with [support_init_states = True] hands [ssm_state] to the scan as its
    initial state, lines 256-274.) *)
Theorem prefill_overwrites_cache (self : Mamba) (hidden_states : list vec)
    (seq_idx : option (list nat)) (ip : InferenceParams) (mask : option vec)
    (gmu_mems : option (list vec)) (s : store) (conv_state ssm_state : loc)
    (old_conv old_ssm : tensor) :
  norms_present self ->
  kv s (layer_idx self) = Some (conv_state, ssm_state) ->
  separate self conv_state ssm_state ->
  length hidden_states <> 1%nat ->
  forward self hidden_states seq_idx (Some ip) mask gmu_mems
    (mkStore (upd (upd (heap s) conv_state old_conv) ssm_state old_ssm)
             (next s) (kv s))
  = forward self hidden_states seq_idx (Some ip) mask gmu_mems s.
Proof.
  intros Hn Hkv Hsep HL.
  destruct Hsep as (Hne & Hc & Hs).
  set (s0 := mkStore _ _ _).
  rewrite (forward_cached self hidden_states seq_idx ip mask gmu_mems s0
             conv_state ssm_state Hkv HL).
  rewrite (forward_cached self hidden_states seq_idx ip mask gmu_mems s
             conv_state ssm_state Hkv HL).
  subst s0.
  rewrite !(forward_full_run self hidden_states (Some (conv_state, ssm_state)))
    by (try assumption; repeat split; assumption).
  cbv zeta. cbn [heap next kv cache_store].
  rewrite !weights_upd, !norm_weights_upd by assumption.
  rewrite fast_path_cached, upd_cache_overwrite. reflexivity.
Qed.

(** *** The shapes of the cache and of the output *)

Lemma ssm_update_rows (N : nat) (A : mat) (dt B x : vec) (ss : mat) :
  rows N A -> rows N ss -> length B = N ->
  rows N (ssm_update A dt B x ss).
Proof.
  intros HA Hs HB. unfold ssm_update, rows. cbv zeta.
  apply (Forall_zipWith _ (fun r => length r = N) (fun r => length r = N)).
  - intros a b Ha Hb. rewrite add_length. lia.
  - apply (Forall_zipWith _ (fun r => length r = N) (fun r => length r = N));
      [|assumption|].
    + intros a b Ha Hb. rewrite mul_length. lia.
    + unfold discretize_A.
      apply (Forall_zipWith _ (fun _ => True) (fun r => length r = N));
        [|apply Forall_forall; trivial|assumption].
      intros a b _ Hb. now rewrite length_map.
  - apply (Forall_zipWith _ (fun _ => True) (fun r => length r = N));
      [|apply Forall_forall; trivial|].
    + intros a b _ Hb. now rewrite length_map.
    + unfold discretize_B. apply Forall_map, Forall_forall. intros a _.
      now rewrite length_map.
Qed.

Lemma neg_exp_rows N (A : mat) : rows N A -> rows N (neg_exp A).
Proof.
  intros H. unfold neg_exp, rows. apply Forall_map.
  eapply Forall_impl; [|exact H]. intros r Hr. cbn beta. now rewrite length_map.
Qed.

(** X10.  One [step] call on a cache of the shapes [(E, K)] and [(E, N)] returns
    one output of width [d_model] and leaves a cache of the same shapes. *)
Theorem step_keeps_cache_shapes (self : Mamba) (h : vec)
    (conv_state ssm_state : loc) (s : store) :
  separate self conv_state ssm_state ->
  shaped self (weights self (heap s)) ->
  length (w_out (weights self (heap s))) = d_model self ->
  opt_length (d_model self) (b_out (weights self (heap s))) ->
  cache_shaped self (as_mat (heap s conv_state)) (as_mat (heap s ssm_state)) ->
  (1 <= d_conv self)%nat ->
  exists out s',
    step self [h] conv_state ssm_state s
    = (inr ([out], conv_state, ssm_state), s')
    /\ length out = d_model self
    /\ cache_shaped self (as_mat (heap s' conv_state))
                    (as_mat (heap s' ssm_state)).
Proof.
  intros Hsep HW Ho Hob [Hc Hcr Hs Hsr] HK.
  rewrite (step_run self h conv_state ssm_state s Hsep). cbv zeta.
  rewrite step_pure_eq. cbv zeta. cbn [fst snd].
  set (W := weights self (heap s)) in *.
  set (cs := as_mat (heap s conv_state)) in *.
  set (ss := as_mat (heap s ssm_state)) in *.
  assert (Hx0 : length (fst (step_xz W h)) = d_inner self)
    by now apply step_x0_length.
  assert (Hcs' : length (conv_update cs (fst (step_xz W h))) = d_inner self).
  { unfold conv_update. rewrite zipWith_length, length_map. lia. }
  assert (Hx : length (conv_out W (conv_update cs (fst (step_xz W h))))
               = d_inner self) by now apply (conv_out_length self W HW).
  destruct Hsep as (Hne & _ & _).
  do 2 eexists. split; [reflexivity|]. split.
  - rewrite linear_length; [exact Ho|]. now rewrite Ho.
  - cbn [heap]. rewrite upd_neq, !upd_eq by assumption. cbn [as_mat].
    constructor.
    + exact Hcs'.
    + now apply conv_update_rows.
    + apply ssm_update_length; try assumption.
      * unfold neg_exp. rewrite length_map. apply (sh_A _ _ HW).
      * apply (step_dt_length self W HW).
    + apply ssm_update_rows; [|assumption|apply (step_B_length self W HW)].
      apply neg_exp_rows, (sh_A_rows _ _ HW).
Qed.

Lemma reference_path_out_shape N R K L g j cw cb xw dw db A sk ow ob mask gm xz :
  let out := fst (fst (fst (reference_path N R K L g j cw cb xw dw db A sk ow
                              ob mask gm xz))) in
  length out = L /\ (opt_length (length ow) ob -> rows (length ow) out).
Proof.
  unfold reference_path.
  destruct (chunk2 xz) as [x z].
  destruct (ssm_inputs _ _ _ _ _ _ _) as [[dt B] C].
  destruct (selective_scan_fn _ _ _ _ _ _ _ _) as [y last].
  cbv zeta. split.
  - destruct g; cbn [fst]; rewrite length_map; unfold swiglu;
      rewrite ?zipWith_length, !transpose_length; lia.
  - intros Hb. destruct g; cbn [fst]; apply Forall_map_length; intros y_t;
      now apply linear_length.
Qed.

(** X9.  [forward] returns one output row of width [d_model] per token: "same
    shape as hidden_states". *)
Theorem forward_output_shape (self : Mamba) (hidden_states : list vec)
    (seq_idx : option (list nat)) (inference_params : option InferenceParams)
    (mask : option vec) (gmu_mems : option (list vec)) (s : store)
    (conv_state ssm_state : loc) :
  norms_present self ->
  (inference_params <> None ->
   kv s (layer_idx self) = Some (conv_state, ssm_state)
   /\ separate self conv_state ssm_state) ->
  length (w_out (weights self (heap s))) = d_model self ->
  opt_length (d_model self) (b_out (weights self (heap s))) ->
  exists r s',
    forward self hidden_states seq_idx inference_params mask gmu_mems s
    = (inr r, s')
    /\ match r with
       | Single out | Pair out _ =>
           length out = length hidden_states /\ rows (d_model self) out
       end.
Proof.
  intros Hn Hc Ho Hob.
  assert (Hfull : forall cache,
            match cache with
            | Some (cl, sl) => separate self cl sl
            | None => True
            end ->
            exists r s',
              forward_full self hidden_states cache mask gmu_mems s = (inr r, s')
              /\ match r with
                 | Single out | Pair out _ =>
                     length out = length hidden_states
                     /\ rows (d_model self) out
                 end).
  { intros cache Hsep.
    rewrite (forward_full_run self hidden_states cache mask gmu_mems s Hn Hsep).
    cbv zeta. rewrite <- Ho. rewrite <- Ho in Hob.
    destruct (fast_path self cache).
    - do 2 eexists. split; [reflexivity|]. unfold mamba_inner_fn.
      destruct (reference_path_out_shape (d_state self) (dt_rank self)
                  (d_conv self) (length hidden_states) false None
                  (w_conv (weights self (heap s))) (b_conv (weights self (heap s)))
                  (w_x (weights self (heap s))) (w_dt (weights self (heap s)))
                  (b_dt (weights self (heap s)))
                  (neg_exp (a_log (weights self (heap s))))
                  (w_skip (weights self (heap s))) (w_out (weights self (heap s)))
                  (b_out (weights self (heap s))) mask None
                  (in_proj_T (weights self (heap s)) hidden_states)) as [H1 H2].
      split; [exact H1|exact (H2 Hob)].
    - do 2 eexists. split; [reflexivity|]. unfold forward_pure.
      destruct (reference_path_out_shape (d_state self) (dt_rank self)
                  (d_conv self) (length hidden_states) (gmu_save self)
                  (norm_weights self (heap s))
                  (w_conv (weights self (heap s))) (b_conv (weights self (heap s)))
                  (w_x (weights self (heap s))) (w_dt (weights self (heap s)))
                  (b_dt (weights self (heap s)))
                  (neg_exp (a_log (weights self (heap s))))
                  (w_skip (weights self (heap s))) (w_out (weights self (heap s)))
                  (b_out (weights self (heap s))) mask gmu_mems
                  (in_proj_T (weights self (heap s)) hidden_states)) as [H1 H2].
      split; [exact H1|exact (H2 Hob)]. }
  destruct inference_params as [ip|]; [|exact (Hfull None I)].
  destruct (Hc ltac:(discriminate)) as [Hkv Hsep].
  destruct (Nat.eq_dec (length hidden_states) 1) as [H1|H1].
  - destruct hidden_states as [|h [|h' hs]]; try discriminate H1.
    rewrite (forward_cached_one self h seq_idx ip mask gmu_mems s conv_state
               ssm_state Hkv Hsep).
    cbv zeta. do 2 eexists. split; [reflexivity|]. cbn beta iota.
    split; [reflexivity|]. constructor; [|constructor].
    rewrite step_pure_eq. cbv zeta. cbn [fst].
    rewrite linear_length; [exact Ho|]. now rewrite Ho.
  - rewrite (forward_cached self hidden_states seq_idx ip mask gmu_mems s
               conv_state ssm_state Hkv H1).
    exact (Hfull (Some (conv_state, ssm_state)) Hsep).
Qed.

(** *** Scans over a prefix and over a concatenation *)

Lemma zipWith_firstn {A B C : Type} (f : A -> B -> C) t l1 l2 :
  zipWith f (firstn t l1) (firstn t l2) = firstn t (zipWith f l1 l2).
Proof.
  revert l1 l2. induction t as [|t IH]; intros [|a l1] [|b l2]; simpl;
    try reflexivity.
  now rewrite IH.
Qed.

Lemma zipWith_app {A B C : Type} (f : A -> B -> C) l1 l1' l2 l2' :
  length l1 = length l2 ->
  zipWith f (l1 ++ l1') (l2 ++ l2') = zipWith f l1 l2 ++ zipWith f l1' l2'.
Proof.
  revert l2. induction l1 as [|a l1 IH]; intros [|b l2] H; simpl in *;
    try discriminate; [reflexivity|].
  f_equal. apply IH. lia.
Qed.

Lemma conv_scan_firstn W xs cs t :
  fst (conv_scan W (firstn t xs) cs) = firstn t (fst (conv_scan W xs cs)).
Proof.
  revert xs cs. induction t as [|t IH]; intros [|x xs] cs; try reflexivity.
  cbn [firstn conv_scan]. specialize (IH xs (conv_update cs x)).
  destruct (conv_scan W (firstn t xs) _) as [o1 l1].
  destruct (conv_scan W xs _) as [o2 l2]. cbn [fst firstn] in *.
  now rewrite IH.
Qed.

Lemma ssm_scan_firstn self W xs ss t :
  fst (ssm_scan self W (firstn t xs) ss) = firstn t (fst (ssm_scan self W xs ss)).
Proof.
  revert xs ss. induction t as [|t IH]; intros [|x xs] ss; try reflexivity.
  cbn [firstn ssm_scan]. cbv zeta.
  set (ss' := ssm_update _ _ _ _ _). specialize (IH xs ss').
  destruct (ssm_scan self W (firstn t xs) ss') as [o1 l1].
  destruct (ssm_scan self W xs ss') as [o2 l2]. cbn [fst firstn] in *.
  now rewrite IH.
Qed.

Lemma conv_scan_app W xs ys cs :
  conv_scan W (xs ++ ys) cs
  = (fst (conv_scan W xs cs) ++ fst (conv_scan W ys (snd (conv_scan W xs cs))),
     snd (conv_scan W ys (snd (conv_scan W xs cs)))).
Proof.
  revert cs. induction xs as [|x xs IH]; intros cs.
  - cbn [app conv_scan fst snd]. now destruct (conv_scan W ys cs).
  - cbn [app conv_scan]. rewrite (IH (conv_update cs x)).
    destruct (conv_scan W xs (conv_update cs x)) as [o1 l1]. reflexivity.
Qed.

Lemma ssm_scan_app self W xs ys ss :
  ssm_scan self W (xs ++ ys) ss
  = (fst (ssm_scan self W xs ss)
       ++ fst (ssm_scan self W ys (snd (ssm_scan self W xs ss))),
     snd (ssm_scan self W ys (snd (ssm_scan self W xs ss)))).
Proof.
  revert ss. induction xs as [|x xs IH]; intros ss.
  - cbn [app ssm_scan fst snd]. now destruct (ssm_scan self W ys ss).
  - cbn [app ssm_scan]. cbv zeta. set (ss' := ssm_update _ _ _ _ _).
    rewrite (IH ss').
    destruct (ssm_scan self W xs ss') as [o1 l1]. reflexivity.
Qed.

Lemma ssm_scan_length self W xs ss :
  length (fst (ssm_scan self W xs ss)) = length xs.
Proof.
  revert ss. induction xs as [|x xs IH]; intros ss; [reflexivity|].
  cbn [ssm_scan]. cbv zeta. set (ss' := ssm_update _ _ _ _ _).
  specialize (IH ss'). destruct (ssm_scan self W xs ss'). simpl in *.
  now rewrite IH.
Qed.

(** [forward] with the cache attached, on a layer without norms and a
    sequence of length other than one, in terms of the scans of [step]. *)
Lemma forward_cached_scan self hs si ip gmu s cl sl :
  jamba_norm self = false ->
  kv s (layer_idx self) = Some (cl, sl) ->
  separate self cl sl ->
  shaped self (weights self (heap s)) ->
  (1 <= d_conv self)%nat -> (1 <= d_inner self)%nat ->
  length hs <> 1%nat ->
  let W := weights self (heap s) in
  let xcs := conv_scan W (map (fun h => fst (step_xz W h)) hs)
                       (zeros2 (d_inner self) (d_conv self)) in
  let r := ssm_scan self W (fst xcs) (zeros2 (d_inner self) (d_state self)) in
  forward self hs si (Some ip) None gmu s
  = (inr (Pair (gate_out W (fst r) (map (fun h => snd (step_xz W h)) hs))
               (if gmu_save self then Some (fst r) else gmu)),
     cache_store s (Some (cl, sl)) (snd xcs) (snd r)).
Proof.
  intros Hj Hkv Hsep HW HK HE H1 W xcs r.
  rewrite (forward_cached self hs si ip None gmu s cl sl Hkv H1).
  rewrite (forward_full_run self hs (Some (cl, sl)) None gmu s
             (norms_present_off self Hj) Hsep).
  cbv zeta. rewrite fast_path_cached, (norm_weights_off self _ Hj).
  rewrite (forward_pure_scan self _ hs gmu HW HK HE). cbv zeta.
  cbn [fst snd]. fold W.
  set (XS := map (fun h => fst (step_xz W h)) hs).
  assert (HXSr : rows (d_inner self) XS)
    by (apply Forall_map_length; intros h; now apply step_x0_length).
  replace (length hs) with (length XS) by apply length_map.
  rewrite (pad_left_feed (d_inner self) (d_conv self) XS HK HXSr).
  unfold xcs. rewrite conv_scan_snd. reflexivity.
Qed.

(** *** A prefill followed by one decoding step *)

(** X3.  On a layer without norms, a [forward] call over at least two tokens with
    the cache attached, followed by one [step] call on the next token, gives
    the outputs and leaves the cache that one [forward] call over the whole
    extended sequence gives and leaves, whatever the cache held before. *)
Theorem prefill_then_step (self : Mamba) (hidden_states : list vec) (h : vec)
    (seq_idx : option (list nat)) (ip : InferenceParams)
    (gmu_mems : option (list vec)) (s : store) (conv_state ssm_state : loc) :
  jamba_norm self = false ->
  kv s (layer_idx self) = Some (conv_state, ssm_state) ->
  separate self conv_state ssm_state ->
  shaped self (weights self (heap s)) ->
  (1 <= d_conv self)%nat -> (1 <= d_inner self)%nat ->
  (2 <= length hidden_states)%nat ->
  exists outs aux out s1 s2 aux',
    forward self hidden_states seq_idx (Some ip) None gmu_mems s
    = (inr (Pair outs aux), s1)
    /\ step self [h] conv_state ssm_state s1
       = (inr ([out], conv_state, ssm_state), s2)
    /\ forward self (hidden_states ++ [h]) seq_idx (Some ip) None gmu_mems s
       = (inr (Pair (outs ++ [out]) aux'), s2).
Proof.
  intros Hj Hkv Hsep HW HK HE HL.
  rewrite (forward_cached_scan self hidden_states seq_idx ip gmu_mems s
             conv_state ssm_state Hj Hkv Hsep HW HK HE) by lia.
  rewrite (forward_cached_scan self (hidden_states ++ [h]) seq_idx ip gmu_mems
             s conv_state ssm_state Hj Hkv Hsep HW HK HE)
    by (rewrite length_app; simpl; lia).
  cbv zeta. set (W := weights self (heap s)).
  set (fx := fun h0 : vec => fst (step_xz W h0)).
  set (fz := fun h0 : vec => snd (step_xz W h0)).
  rewrite !map_app. cbn [map].
  rewrite conv_scan_app. cbn [fst snd].
  set (xcs := conv_scan W (map fx hidden_states) _).
  rewrite ssm_scan_app.
  set (r := ssm_scan self W (fst xcs) _).
  cbn [fst snd conv_scan ssm_scan]. cbv zeta. cbn [fst snd].
  do 6 eexists. split; [reflexivity|].
  rewrite (step_run self h conv_state ssm_state _ Hsep). cbv zeta.
  destruct Hsep as (Hne & Hc & Hs).
  cbn [cache_store heap next kv].
  rewrite !weights_upd by assumption. fold W.
  rewrite upd_eq, upd_neq, upd_eq by assumption. cbn [as_mat].
  rewrite step_pure_eq. cbv zeta. cbn [fst snd].
  rewrite upd_cache_overwrite. fold (fx h) (fz h).
  split; [reflexivity|].
  unfold gate_out.
  rewrite zipWith_app
    by (unfold r; rewrite ssm_scan_length; unfold xcs;
        now rewrite conv_scan_length, !length_map).
  rewrite map_app. reflexivity.
Qed.

(** *** Causality *)

(** X5.  The outputs of a stateless [forward] call (no cache, no mask, no norms)
    at the first [t] positions are the outputs of the call on the first [t]
    tokens alone: no output depends on a later token. *)
Theorem forward_is_causal (self : Mamba) (hidden_states : list vec) (t : nat)
    (seq_idx : option (list nat)) (gmu_mems : option (list vec)) (s : store) :
  jamba_norm self = false ->
  shaped self (weights self (heap s)) ->
  (1 <= d_conv self)%nat -> (1 <= d_inner self)%nat ->
  exists outs aux aux',
    forward self hidden_states seq_idx None None gmu_mems s
    = (inr (Pair outs aux), s)
    /\ forward self (firstn t hidden_states) seq_idx None None gmu_mems s
       = (inr (Pair (firstn t outs) aux'), s).
Proof.
  intros Hj HW HK HE. cbn [forward].
  rewrite !(forward_full_run self _ None None gmu_mems s
              (norms_present_off self Hj) I).
  cbv zeta. cbn [cache_store]. rewrite (norm_weights_off self _ Hj).
  set (W := weights self (heap s)) in *.
  assert (Hfast : forall hs,
            fast_path self None = true ->
            mamba_inner_fn (d_state self) (dt_rank self) (d_conv self)
              (length hs) (in_proj_T W hs) (w_conv W) (b_conv W) (w_x W)
              (w_dt W) (w_out W) (b_out W) (neg_exp (a_log W)) (w_skip W)
              (b_dt W) None
            = fst (fst (fst (forward_pure self W None hs None None)))).
  { intros hs Hf. unfold fast_path in Hf.
    destruct (gmu_save self) eqn:Hg;
      [rewrite andb_false_r in Hf; discriminate Hf|].
    unfold mamba_inner_fn, forward_pure. now rewrite Hg. }
  assert (Hpre : forall g,
            fst (fst (fst (forward_pure self W None
                             (firstn t hidden_states) None g)))
            = firstn t (fst (fst (fst (forward_pure self W None
                                         hidden_states None g))))).
  { intros g. rewrite !(forward_pure_scan self W _ g HW HK HE). cbv zeta.
    cbn [fst]. unfold gate_out.
    rewrite <- !firstn_map, conv_scan_firstn, ssm_scan_firstn, zipWith_firstn.
    now rewrite <- firstn_map. }
  destruct (fast_path self None) eqn:Hf.
  - rewrite !Hfast by reflexivity. rewrite Hpre.
    do 3 eexists. split; reflexivity.
  - rewrite Hpre. do 3 eexists. split; reflexivity.
Qed.

(** *** A mask that marks every position valid *)

Lemma mul_ones (v : vec) n : (length v <= n)%nat -> mul v (ones n) = v.
Proof.
  unfold mul, ones. revert n. induction v as [|a v IH]; intros [|n] H;
    simpl in *; try lia; try reflexivity.
  rewrite Rmult_1_r. f_equal. apply IH. lia.
Qed.

Lemma apply_mask_ones (x : mat) n :
  Forall (fun r => (length r <= n)%nat) x ->
  apply_mask (Some (ones n)) x = x.
Proof.
  intros H. cbn [apply_mask]. induction H as [|r x Hr _ IH]; [reflexivity|].
  cbn [map]. now rewrite IH, mul_ones.
Qed.

Lemma Forall_skipn {A : Type} (P : A -> Prop) n (l : list A) :
  Forall P l -> Forall P (skipn n l).
Proof.
  intros H. revert n. induction H as [|a l Ha H IH]; intros [|n]; simpl;
    auto.
Qed.

Lemma xz_row_lengths (in_w : mat) (in_b : option vec) (hs : list vec) :
  Forall (fun r => (length r <= length hs)%nat)
         (match in_b with
          | Some b => add_rows (matmul_T in_w hs) b
          | None => matmul_T in_w hs
          end).
Proof.
  assert (H : Forall (fun r => (length r <= length hs)%nat) (matmul_T in_w hs)).
  { unfold matmul_T. apply Forall_map, Forall_forall. intros w _.
    now rewrite length_map. }
  destruct in_b as [b|]; [|exact H]. unfold add_rows.
  apply (Forall_zipWith _ (fun r => (length r <= length hs)%nat)
                        (fun _ => True));
    [|exact H|apply Forall_forall; trivial].
  intros r bd Hr _. now rewrite length_map.
Qed.

Lemma conv_act_row_lengths w b K L (x : mat) :
  Forall (fun r => (length r <= L)%nat) (conv_act w b K L x).
Proof.
  unfold conv_act. apply Forall_map, Forall_forall. intros r _.
  rewrite length_map, length_firstn. lia.
Qed.

Lemma reference_path_ones_mask N R K L g j cw cb xw dw db A sk ow ob gm xz :
  Forall (fun r => (length r <= L)%nat) xz ->
  reference_path N R K L g j cw cb xw dw db A sk ow ob (Some (ones L)) gm xz
  = reference_path N R K L g j cw cb xw dw db A sk ow ob None gm xz.
Proof.
  intros H. unfold reference_path.
  assert (Hx : Forall (fun r => (length r <= L)%nat) (fst (chunk2 xz)))
    by (unfold chunk2; cbn [fst]; now apply Forall_firstn).
  destruct (chunk2 xz) as [x z]. cbn [fst] in Hx. cbv zeta.
  rewrite (apply_mask_ones x L Hx).
  rewrite (apply_mask_ones _ L (conv_act_row_lengths cw cb K L x)).
  reflexivity.
Qed.

Ltac under_bind :=
  match goal with
  | |- bind ?m _ = bind ?m _ =>
      apply (f_equal (bind m)); apply functional_extensionality; intros ?
  end.

Lemma forward_full_ones_mask self hs cache gmu :
  forward_full self hs cache (Some (ones (length hs))) gmu
  = forward_full self hs cache None gmu.
Proof.
  unfold forward_full. cbv zeta.
  under_bind. under_bind. under_bind.
  destruct (fast_path self cache).
  - repeat under_bind. unfold mamba_inner_fn.
    now rewrite (reference_path_ones_mask _ _ _ _ _ _ _ _ _ _ _ _ _ _ _ _ _
                   (xz_row_lengths _ _ hs)).
  - pose proof (xz_row_lengths x x0 hs) as Hxz.
    assert (Hx : Forall (fun r => (length r <= length hs)%nat)
                   (fst (chunk2 (match x0 with
                                 | Some b => add_rows (matmul_T x hs) b
                                 | None => matmul_T x hs
                                 end))))
      by (unfold chunk2; cbn [fst]; now apply Forall_firstn).
    destruct (chunk2 _) as [xb z]. cbn [fst] in Hx.
    rewrite (apply_mask_ones xb _ Hx).
    under_bind. under_bind.
    rewrite (apply_mask_ones _ _ (conv_act_row_lengths _ _ _ _ xb)).
    reflexivity.
Qed.

(** X7.  A mask of ones (every position valid) changes nothing: [forward] then
    returns what it returns without a mask, and leaves the same store. *)
Theorem ones_mask_is_no_mask (self : Mamba) (hidden_states : list vec)
    (seq_idx : option (list nat)) (inference_params : option InferenceParams)
    (gmu_mems : option (list vec)) (s : store) :
  forward self hidden_states seq_idx inference_params
          (Some (ones (length hidden_states))) gmu_mems s
  = forward self hidden_states seq_idx inference_params None gmu_mems s.
Proof.
  unfold forward. destruct inference_params as [ip|];
    [|now rewrite forward_full_ones_mask].
  unfold bind at 1 3.
  destruct (_get_states_from_cache self s) as [[e|[cl sl]] s1];
    [reflexivity|].
  destruct (length hidden_states =? 1)%nat; [reflexivity|].
  now rewrite forward_full_ones_mask.
Qed.

(** *** The tensors [__init__] allocates *)

Lemma grows_refl s : grows s s [].
Proof.
  split; [apply extends_refl|]. split; [reflexivity|].
  split; constructor.
Qed.

Lemma grows_trans s1 s2 s3 l1 l2 :
  grows s1 s2 l1 -> grows s2 s3 l2 -> grows s1 s3 (l1 ++ l2).
Proof.
  intros (He1 & Hk1 & Hn1 & Hr1) (He2 & Hk2 & Hn2 & Hr2).
  pose proof (proj1 He1) as Hle1. pose proof (proj1 He2) as Hle2.
  split; [eapply extends_trans; eassumption|]. split; [congruence|].
  rewrite Forall_forall in Hr1, Hr2. split.
  - apply NoDup_app; try assumption. intros l H1 H2.
    specialize (Hr1 l H1). specialize (Hr2 l H2). lia.
  - apply Forall_forall. intros l Hl. apply in_app_or in Hl.
    destruct Hl as [Hl|Hl]; [specialize (Hr1 l Hl)|specialize (Hr2 l Hl)]; lia.
Qed.

Lemma alloc_grows t s :
  exists l s1, alloc t s = (inr l, s1)
    /\ grows s s1 [l] /\ ((l < next s1)%nat /\ heap s1 l = t).
Proof.
  exists (next s). eexists. split; [reflexivity|]. split; [|split].
  - split; [|split; [reflexivity|split]].
    + split; simpl; [lia|]. intros l Hl. apply upd_neq. lia.
    + constructor; [simpl; tauto|constructor].
    + constructor; [simpl; lia|constructor].
  - simpl. lia.
  - apply upd_eq.
Qed.

Lemma alloc_opt_grows b v s :
  exists o s1, alloc_opt b v s = (inr o, s1)
    /\ grows s s1 (opt_loc o) /\ opt_held s1 b o v.
Proof.
  destruct b; cbn [alloc_opt].
  - destruct (alloc_grows (T1 v) s) as (l & s1 & Heq & Hg & Hv).
    exists (Some l), s1. split; [|split].
    + unfold bind. now rewrite Heq.
    + exact Hg.
    + split; [reflexivity|exact Hv].
  - exists None, s. split; [reflexivity|]. split; [apply grows_refl|].
    reflexivity.
Qed.

Lemma held_later s s1 ls l (t : tensor) :
  grows s s1 ls -> (l < next s)%nat /\ heap s l = t ->
  (l < next s1)%nat /\ heap s1 l = t.
Proof.
  intros ((Hle & Hh) & _) (Hl & Hv). split; [lia|]. now rewrite Hh.
Qed.

Lemma opt_held_later s s1 ls b o v :
  grows s s1 ls -> opt_held s b o v -> opt_held s1 b o v.
Proof.
  intros Hg. unfold opt_held. destruct o as [l|]; [|trivial].
  intros (Hb & Hv). split; [exact Hb|]. exact (held_later s s1 ls l _ Hg Hv).
Qed.

Lemma opt_held_vec s b o v :
  opt_held s b o v -> opt_vec (heap s) o = if b then Some v else None.
Proof.
  unfold opt_held, opt_vec. destruct o as [l|].
  - intros (-> & _ & ->). reflexivity.
  - now intros ->.
Qed.

Ltac step_init :=
  match goal with
  | Hacc : grows _ ?s _ |- context [bind (alloc ?t) ?k ?s] =>
      let l := fresh "l" in let s1 := fresh "s" in
      let Heq := fresh "Heq" in let Hg := fresh "Hg" in
      let Hv := fresh "Hv" in
      destruct (alloc_grows t s) as (l & s1 & Heq & Hg & Hv);
      rewrite (bind_ok (alloc t) k s l s1 Heq); clear Heq;
      repeat match goal with
             | H : (_ < next s)%nat /\ heap s _ = _ |- _ =>
                 apply (held_later s s1 _ _ _ Hg) in H
             | H : opt_held s _ _ _ |- _ =>
                 apply (opt_held_later s s1 _ _ _ _ Hg) in H
             end;
      apply (fun H => grows_trans _ _ _ _ _ H Hg) in Hacc; clear Hg
  | Hacc : grows _ ?s _ |- context [bind (alloc_opt ?b ?v) ?k ?s] =>
      let o := fresh "o" in let s1 := fresh "s" in
      let Heq := fresh "Heq" in let Hg := fresh "Hg" in
      let Hv := fresh "Ho" in
      destruct (alloc_opt_grows b v s) as (o & s1 & Heq & Hg & Hv);
      rewrite (bind_ok (alloc_opt b v) k s o s1 Heq); clear Heq;
      repeat match goal with
             | H : (_ < next s)%nat /\ heap s _ = _ |- _ =>
                 apply (held_later s s1 _ _ _ Hg) in H
             | H : opt_held s _ _ _ |- _ =>
                 apply (opt_held_later s s1 _ _ _ _ Hg) in H
             end;
      apply (fun H => grows_trans _ _ _ _ _ H Hg) in Hacc; clear Hg
  | |- context [bind (check_dims ?d) ?k ?s] =>
      rewrite (bind_ok (check_dims d) k s tt s)
        by (apply check_dims_ok; repeat constructor; lia)
  | |- context [bind (ret ?x) ?k ?s] =>
      rewrite (bind_ok (ret x) k s x s) by reflexivity
  end.

Lemma init_builds a rng s :
  constructible a ->
  exists self s', __init__ a rng s = (inr self, s')
    /\ extends s s' /\ kv s' = kv s
    /\ NoDup (parameters self)
    /\ Forall (fun l => (next s <= l < next s')%nat) (parameters self)
    /\ norms_present self
    /\ heap s' (dt_proj_bias self)
       = T1 (tabulate (Z.to_nat (init_d_inner a))
               (fun i => inv_dt (arg_dt_min a) (arg_dt_max a)
                                (arg_dt_init_floor a) (dt_rand rng i)))
    /\ heap s' (D self) = T1 (ones (Z.to_nat (init_d_inner a)))
    /\ weights self (heap s')
       = mkWeights
           (tabulate2 (Z.to_nat (init_d_inner a * 2)) (Z.to_nat (arg_d_model a))
                      (fst (in_proj_init rng)))
           (if arg_bias a
            then Some (tabulate (Z.to_nat (init_d_inner a * 2))
                                (snd (in_proj_init rng)))
            else None)
           (tabulate2 (Z.to_nat (init_d_inner a)) (Z.to_nat (arg_d_conv a))
                      (fst (conv1d_init rng)))
           (if arg_conv_bias a
            then Some (tabulate (Z.to_nat (init_d_inner a))
                                (snd (conv1d_init rng)))
            else None)
           (tabulate2 (Z.to_nat (init_dt_rank a + arg_d_state a * 2))
                      (Z.to_nat (init_d_inner a)) (x_proj_init rng))
           (if String.eqb (arg_dt_init a) "constant"
            then repeat (repeat (1 / sqrt (IZR (init_dt_rank a)) * arg_dt_scale a)
                                (Z.to_nat (init_dt_rank a)))
                        (Z.to_nat (init_d_inner a))
            else tabulate2 (Z.to_nat (init_d_inner a))
                           (Z.to_nat (init_dt_rank a))
                           (fun i j => dt_proj_uniform rng i j
                                       * (1 / sqrt (IZR (init_dt_rank a))
                                          * arg_dt_scale a)))
           (tabulate (Z.to_nat (init_d_inner a))
              (fun i => inv_dt (arg_dt_min a) (arg_dt_max a)
                               (arg_dt_init_floor a) (dt_rand rng i)))
           (map (map ln) (repeat (arange1 (Z.to_nat (arg_d_state a)))
                                 (Z.to_nat (init_d_inner a))))
           (ones (Z.to_nat (init_d_inner a)))
           (tabulate2 (Z.to_nat (arg_d_model a)) (Z.to_nat (init_d_inner a))
                      (fst (out_proj_init rng)))
           (if arg_bias a
            then Some (tabulate (Z.to_nat (arg_d_model a))
                                (snd (out_proj_init rng)))
            else None).
Proof.
  intros [Hm Hi Hs Hc Hr Hinit Hscale Hmin Hmax Hcu].
  unfold __init__. cbv zeta.
  rewrite (bind_ok _ _ s (init_d_inner a) s (int_expand_ok a s Hi)).
  fold (init_dt_rank a).
  rewrite Hcu.
  assert (Hle : (init_d_inner a <=? 0)%Z = false) by (apply Z.leb_gt; lia).
  assert (Hz : (init_dt_rank a =? 0)%Z = false) by (apply Z.eqb_neq; lia).
  rewrite Hle, Hz.
  destruct (Rle_dec (arg_dt_max a) 0) as [?|_]; [lra|].
  destruct (Rle_dec (arg_dt_min a) 0) as [?|_]; [lra|].
  rewrite (bind_ok _ _ s tt s)
    by (destruct (arg_jamba_norm a); [apply check_dims_ok; repeat constructor; lia|reflexivity]).
  pose proof (grows_refl s) as Hacc.
  repeat step_init.
  match goal with
  | |- context [bind ?m ?k ?s] =>
      assert (Hdw : m s
                    = (inr (if String.eqb (arg_dt_init a) "constant"
                            then repeat (repeat (1 / sqrt (IZR (init_dt_rank a))
                                                 * arg_dt_scale a)
                                                (Z.to_nat (init_dt_rank a)))
                                        (Z.to_nat (init_d_inner a))
                            else tabulate2 (Z.to_nat (init_d_inner a))
                                   (Z.to_nat (init_dt_rank a))
                                   (fun i j => dt_proj_uniform rng i j
                                       * (1 / sqrt (IZR (init_dt_rank a))
                                          * arg_dt_scale a))), s))
        by (destruct Hinit as [H|H]; rewrite H; cbn [String.eqb Ascii.eqb];
            [reflexivity|];
            destruct (Rlt_dec _ _) as [Hlt|_]; [|reflexivity];
            apply (uniform_range_ok _ _ Hr) in Hlt;
            specialize (Hscale H); lra);
      rewrite (bind_ok m k s _ s Hdw); clear Hdw
  end.
  repeat step_init.
  destruct Hacc as (Hext & Hkv & Hnd & Hrg).
  do 2 eexists. split; [reflexivity|].
  unfold parameters.
  cbn [in_proj_weight in_proj_bias conv1d_weight conv1d_bias
       x_proj_weight dt_proj_weight dt_proj_bias A_log D out_proj_weight
       out_proj_bias dt_layernorm b_layernorm c_layernorm jamba_norm].
  split; [exact Hext|]. split; [exact Hkv|].
  match type of Hnd with NoDup ?acc => set (ls := acc) in * end.
  match goal with |- NoDup ?p /\ _ => set (ps := p) end.
  assert (Hin : forall x, In x ps <-> In x ls).
  { intros x. unfold ps, ls. rewrite !in_app_iff. simpl. tauto. }
  split; [|split; [|split; [|split; [|split]]]].
  - apply NoDup_incl_NoDup with (l := ls); [exact Hnd| |].
    + unfold ps, ls. rewrite !length_app. simpl. lia.
    + intros x Hx. now apply Hin.
  - rewrite Forall_forall in Hrg. apply Forall_forall. intros x Hx.
    apply Hrg. now apply Hin.
  - unfold norms_present. cbn [jamba_norm dt_layernorm b_layernorm c_layernorm].
    intros Hj. unfold opt_held in Ho, Ho0, Ho1.
    destruct o; [|congruence]. destruct o0; [|congruence].
    destruct o1; [|congruence]. repeat split; discriminate.
  - exact (proj2 Hv3).
  - exact (proj2 Hv5).
  - unfold weights.
    cbn [in_proj_weight in_proj_bias conv1d_weight conv1d_bias
         x_proj_weight dt_proj_weight dt_proj_bias A_log D out_proj_weight
         out_proj_bias].
    rewrite (opt_held_vec _ _ _ _ Ho2), (opt_held_vec _ _ _ _ Ho3),
      (opt_held_vec _ _ _ _ Ho4).
    rewrite (proj2 Hv), (proj2 Hv0), (proj2 Hv1), (proj2 Hv2), (proj2 Hv3),
      (proj2 Hv4), (proj2 Hv5), (proj2 Hv6).
    reflexivity.
Qed.

(** X12.  Building a layer touches nothing that exists: every tensor of the store
    and the cache registry are as before, and the layer's parameters are
    new tensors, pairwise distinct.  The norms exist whenever [jamba_norm]
    is set, and any two distinct tensors allocated later can serve as the
    layer's cache. *)
Theorem init_allocates_fresh (a : InitArgs) (rng : Draws) (s s' : store)
    (self : Mamba) :
  __init__ a rng s = (inr self, s') ->
  extends s s' /\ kv s' = kv s
  /\ NoDup (parameters self)
  /\ Forall (fun l => (next s <= l < next s')%nat) (parameters self)
  /\ norms_present self
  /\ (forall conv_state ssm_state,
        (next s' <= conv_state)%nat -> (next s' <= ssm_state)%nat ->
        conv_state <> ssm_state -> separate self conv_state ssm_state).
Proof.
  intros H.
  destruct (init_builds a rng s (init_inversion _ _ _ _ _ H))
    as (self2 & s2 & H2 & He & Hk & Hnd & Hrg & Hn & _).
  rewrite H in H2. injection H2 as <- <-.
  do 5 (split; [assumption|]).
  intros cl sl Hc Hs Hne. rewrite Forall_forall in Hrg.
  split; [exact Hne|].
  split; intros Hin; specialize (Hrg _ Hin); lia.
Qed.

(** *** Tensors filled by position *)

Lemma tabulate_length n f : length (tabulate n f) = n.
Proof. unfold tabulate. now rewrite length_map, length_seq. Qed.

Lemma tabulate_nth n f i : (i < n)%nat -> nth i (tabulate n f) 0 = f i.
Proof.
  intros H. unfold tabulate.
  rewrite (nth_map_in _ _ _ 0%nat) by (rewrite length_seq; lia).
  now rewrite seq_nth by lia.
Qed.

Lemma tabulate2_length m n f : length (tabulate2 m n f) = m.
Proof. unfold tabulate2. now rewrite length_map, length_seq. Qed.

Lemma tabulate2_rows m n f : rows n (tabulate2 m n f).
Proof.
  unfold rows, tabulate2. apply Forall_map, Forall_forall. intros i _.
  apply tabulate_length.
Qed.

(** *** The step-size bias *)

Lemma softplus_inv (dt : R) :
  0 < dt -> dt <= 20 -> softplus (dt + ln (- (exp (- dt) - 1))) = dt.
Proof.
  intros H0 H20.
  assert (He : 0 < exp (- dt) < 1).
  { split; [apply exp_pos|]. rewrite <- exp_0. apply exp_increasing. lra. }
  assert (Hp : 0 < - (exp (- dt) - 1) < 1) by lra.
  assert (Hln : ln (- (exp (- dt) - 1)) < 0).
  { rewrite <- ln_1. apply ln_increasing; lra. }
  unfold softplus.
  destruct (Rlt_dec 20 (dt + ln (- (exp (- dt) - 1)))) as [Hlt|_]; [lra|].
  rewrite exp_plus, exp_ln by lra.
  replace (1 + exp dt * - (exp (- dt) - 1))
    with (exp dt + (1 - exp dt * exp (- dt))) by ring.
  rewrite <- exp_plus. replace (dt + - dt) with 0 by ring.
  rewrite exp_0. replace (exp dt + (1 - 1)) with (exp dt) by ring.
  apply ln_exp.
Qed.

Lemma dt_draw_range (lo hi u : R) :
  0 < lo -> lo <= hi -> 0 <= u <= 1 ->
  lo <= exp (u * (ln hi - ln lo) + ln lo) <= hi.
Proof.
  intros Hlo Hle [Hu0 Hu1].
  assert (Hln : ln lo <= ln hi).
  { destruct Hle as [Hlt|Heq]; [left; apply ln_increasing; lra|].
    rewrite Heq. right. reflexivity. }
  assert (Hmono : forall x y, x <= y -> exp x <= exp y).
  { intros x y [Hxy|Hxy]; [left; now apply exp_increasing|].
    rewrite Hxy. right. reflexivity. }
  split.
  - rewrite <- (exp_ln lo) at 1 by assumption. apply Hmono. nra.
  - rewrite <- (exp_ln hi) at 2 by lra. apply Hmono. nra.
Qed.

(** X14.  The bias of the step-size projection is the inverse of [softplus] at
    the drawn step size: [softplus(dt_proj.bias)] is the draw, clamped from
    below by [dt_init_floor], and lies between [dt_min] and [dt_max]. *)
Theorem dt_bias_inverts_softplus (a : InitArgs) (rng : Draws) (s s' : store)
    (self : Mamba) (i : nat) :
  __init__ a rng s = (inr self, s') ->
  (i < d_inner self)%nat ->
  0 <= dt_rand rng i <= 1 ->
  arg_dt_min a <= arg_dt_max a -> arg_dt_max a <= 20 ->
  arg_dt_init_floor a <= arg_dt_max a ->
  let bias := nth i (as_vec (heap s' (dt_proj_bias self))) 0 in
  softplus bias
  = Rmax (exp (dt_rand rng i * (ln (arg_dt_max a) - ln (arg_dt_min a))
               + ln (arg_dt_min a)))
         (arg_dt_init_floor a)
  /\ Rmax (arg_dt_min a) (arg_dt_init_floor a) <= softplus bias <= arg_dt_max a.
Proof.
  intros H Hi Hu Hle H20 Hfl bias.
  pose proof (init_inversion _ _ _ _ _ H) as Hc.
  destruct (init_builds a rng s Hc)
    as (self2 & s2 & H2 & _ & _ & _ & _ & _ & Hb & _).
  rewrite H in H2. injection H2 as <- <-.
  pose proof (ok_min a Hc) as Hmin.
  pose proof (dt_draw_range (arg_dt_min a) (arg_dt_max a) _ Hmin Hle Hu) as Hd.
  set (d := exp _) in Hd.
  assert (Hbias : bias = inv_dt (arg_dt_min a) (arg_dt_max a)
                           (arg_dt_init_floor a) (dt_rand rng i)).
  { unfold bias. rewrite Hb. cbn [as_vec].
    destruct (init_fields _ _ _ _ _ H) as (_ & _ & _ & HE & _).
    rewrite tabulate_nth by (now rewrite <- HE). reflexivity. }
  rewrite Hbias. unfold inv_dt. cbv zeta. fold d.
  assert (Hmax : arg_dt_min a <= Rmax d (arg_dt_init_floor a) <= arg_dt_max a
                 /\ arg_dt_init_floor a <= Rmax d (arg_dt_init_floor a)).
  { unfold Rmax. destruct (Rle_dec d (arg_dt_init_floor a)); lra. }
  rewrite softplus_inv by lra.
  split; [reflexivity|]. split; [|lra].
  unfold Rmax at 1. destruct (Rle_dec (arg_dt_min a) (arg_dt_init_floor a)); lra.
Qed.

(** *** The shapes of a new layer *)

(** X13.  The layer [__init__] returns has parameters of the shapes that
    [forward] and [step] rely on, whatever the initialisers draw: the
    constructor asks for [in_proj] of [(2 * d_inner, d_model)], the filter
    of [(d_inner, d_conv)], [x_proj] of [(dt_rank + 2 * d_state, d_inner)],
    [dt_proj] of [(d_inner, dt_rank)], [A_log] of [(d_inner, d_state)],
    [out_proj] of [(d_model, d_inner)] and the biases and [D] to match. *)
Theorem init_establishes_shapes (a : InitArgs) (rng : Draws) (s s' : store)
    (self : Mamba) :
  __init__ a rng s = (inr self, s') ->
  let W := weights self (heap s') in
  shaped self W
  /\ rows (d_model self) (w_in W)
  /\ rows (d_inner self) (w_x W)
  /\ rows (dt_rank self) (w_dt W)
  /\ length (w_out W) = d_model self
  /\ rows (d_inner self) (w_out W)
  /\ opt_length (d_model self) (b_out W).
Proof.
  intros H W.
  pose proof (init_inversion _ _ _ _ _ H) as Hc.
  destruct (init_builds a rng s Hc)
    as (self2 & s2 & H2 & _ & _ & _ & _ & _ & _ & _ & HW).
  rewrite H in H2. injection H2 as <- <-.
  destruct (init_fields _ _ _ _ _ H) as (HM & HN & HK & HE & HR & _).
  destruct Hc as [Hm Hi Hs Hk Hr _ _ _ _ _].
  unfold W. rewrite HW. rewrite ?HM, ?HN, ?HK, ?HE, ?HR.
  cbn [w_in b_in w_conv b_conv w_x w_dt b_dt a_log w_skip w_out b_out].
  split; [|split; [|split; [|split; [|split; [|split]]]]].
  - constructor; rewrite ?HN, ?HK, ?HE, ?HR;
      cbn [w_in b_in w_conv b_conv w_x w_dt b_dt a_log w_skip].
    + rewrite tabulate2_length. lia.
    + destruct (arg_bias a); simpl; trivial. rewrite tabulate_length. lia.
    + apply tabulate2_length.
    + apply tabulate2_rows.
    + destruct (arg_conv_bias a); simpl; trivial. apply tabulate_length.
    + rewrite tabulate2_length. lia.
    + destruct (String.eqb (arg_dt_init a) "constant");
        [apply repeat_length|apply tabulate2_length].
    + apply tabulate_length.
    + now rewrite length_map, repeat_length.
    + unfold rows. apply Forall_map, Forall_forall. intros r Hin.
      apply repeat_spec in Hin. subst r.
      unfold arange1. now rewrite !length_map, length_seq.
    + unfold ones. now rewrite repeat_length.
  - apply tabulate2_rows.
  - apply tabulate2_rows.
  - destruct (String.eqb (arg_dt_init a) "constant");
      [|apply tabulate2_rows].
    unfold rows. apply Forall_forall. intros x Hx.
    apply repeat_spec in Hx. subst x. apply repeat_length.
  - apply tabulate2_length.
  - apply tabulate2_rows.
  - destruct (arg_bias a); simpl; trivial. apply tabulate_length.
Qed.

(** *** Tokens at masked positions *)

Lemma mul_mask_agree (r r' m : vec) :
  length r = length r' ->
  (forall t, nth t m 0 <> 0 -> nth t r 0 = nth t r' 0) ->
  mul r m = mul r' m.
Proof.
  unfold mul. revert r' m.
  induction r as [|a r IH]; intros [|a' r'] [|b m] Hl H; simpl in *;
    try discriminate; try reflexivity.
  f_equal.
  - destruct (Req_dec b 0) as [->|Hb]; [ring|]. now rewrite (H 0%nat Hb).
  - apply IH; [lia|]. intros t Ht. exact (H (S t) Ht).
Qed.

Lemma gate_agree (o z z' : vec) :
  length z = length z' ->
  (forall t, nth t o 0 <> 0 -> nth t z 0 = nth t z' 0) ->
  mul o (map silu z) = mul o (map silu z').
Proof.
  unfold mul. revert z z'.
  induction o as [|a o IH]; intros [|b z] [|b' z'] Hl H; simpl in *;
    try discriminate; try reflexivity.
  f_equal.
  - destruct (Req_dec a 0) as [->|Ha]; [ring|]. now rewrite (H 0%nat Ha).
  - apply IH; [lia|]. intros t Ht. exact (H (S t) Ht).
Qed.

Lemma map_rows_ext {B : Type} (f : vec -> B) (X X' : mat) :
  length X = length X' ->
  (forall d, (d < length X)%nat -> f (nth d X []) = f (nth d X' [])) ->
  map f X = map f X'.
Proof.
  revert X'. induction X as [|r X IH]; intros [|r' X'] Hl H; simpl in *;
    try discriminate; [reflexivity|].
  f_equal; [apply (H 0%nat); lia|].
  apply IH; [lia|]. intros d Hd. apply (H (S d)). lia.
Qed.

Lemma zipWith_rows_ext {B : Type} (g : vec -> vec -> B) (O Z Z' : mat) :
  length Z = length Z' ->
  (forall d, (d < length O)%nat -> (d < length Z)%nat ->
     g (nth d O []) (nth d Z []) = g (nth d O []) (nth d Z' [])) ->
  zipWith g O Z = zipWith g O Z'.
Proof.
  revert Z Z'. induction O as [|o O IH]; intros [|z Z] [|z' Z'] Hl H;
    simpl in *; try discriminate; try reflexivity.
  f_equal; [apply (H 0%nat); lia|].
  apply IH; [lia|]. intros d Hd1 Hd2. apply (H (S d)); lia.
Qed.

(** Vectors of zeros, of any length. *)
Lemma allz_nth (v : vec) t : Forall (fun a => a = 0) v -> nth t v 0 = 0.
Proof.
  intros H. revert t. induction H as [|a v Ha _ IH]; intros [|t]; simpl; auto.
Qed.

Lemma allz_mul_l (v w : vec) :
  Forall (fun a => a = 0) v -> Forall (fun a => a = 0) (mul v w).
Proof.
  intros H. unfold mul. revert w.
  induction H as [|a v Ha _ IH]; intros [|b w]; simpl; constructor; auto.
  subst a. ring.
Qed.

Lemma allz_mul_r (v w : vec) :
  Forall (fun a => a = 0) w -> Forall (fun a => a = 0) (mul v w).
Proof. intros H. rewrite mul_comm. now apply allz_mul_l. Qed.

Lemma allz_vsum (v : vec) : Forall (fun a => a = 0) v -> vsum v = 0.
Proof.
  intros H. unfold vsum. induction H as [|a v Ha _ IH]; simpl; [reflexivity|].
  rewrite IH, Ha. ring.
Qed.

Lemma allz_linear (W : mat) (x : vec) :
  Forall (fun a => a = 0) x -> Forall (fun a => a = 0) (linear W None x).
Proof.
  intros H. unfold linear. apply Forall_map, Forall_forall. intros w _.
  unfold dot. now apply allz_vsum, allz_mul_l.
Qed.

Lemma allz_split3 r n (v : vec) :
  Forall (fun a => a = 0) v ->
  Forall (fun a => a = 0) (fst (fst (split3 r n v)))
  /\ Forall (fun a => a = 0) (snd (fst (split3 r n v)))
  /\ Forall (fun a => a = 0) (snd (split3 r n v)).
Proof.
  intros H. unfold split3. cbn [fst snd].
  split; [|split].
  - now apply Forall_firstn.
  - now apply Forall_firstn, Forall_skipn.
  - now apply Forall_firstn, Forall_skipn.
Qed.

Lemma allz_norm (w : vec) eps (x : vec) :
  Forall (fun a => a = 0) x -> Forall (fun a => a = 0) (FusedRMSNorm w eps x).
Proof.
  intros H. unfold FusedRMSNorm. cbv zeta.
  generalize (vsum (mul x x) / INR (length x)) as ms. intros ms. revert w.
  induction H as [|a x Ha _ IH]; intros [|b w]; simpl; constructor; auto.
  subst a. ring.
Qed.

Lemma allz_column t (M : mat) :
  (forall d, nth t (nth d M []) 0 = 0) -> Forall (fun a => a = 0) (column t M).
Proof.
  intros H. unfold column. apply Forall_map, Forall_forall. intros r Hr.
  destruct (In_nth M r [] Hr) as (d & _ & <-). apply H.
Qed.

Lemma allz_transposed n (M : mat) t :
  (forall d, nth t (nth d M []) 0 = 0) ->
  Forall (fun a => a = 0) (nth t (transpose n M) []).
Proof.
  intros H. destruct (Nat.lt_ge_cases t n) as [Ht|Ht].
  - rewrite transpose_nth by assumption. now apply allz_column.
  - rewrite nth_overflow by (now rewrite transpose_length). constructor.
Qed.

Lemma allz_recurrence_output skip state (x C : vec) :
  Forall (fun a => a = 0) x -> Forall (fun a => a = 0) C ->
  Forall (fun a => a = 0) (recurrence_output skip state x C).
Proof.
  intros Hx HC. unfold recurrence_output.
  revert skip state. induction Hx as [|a x Ha _ IH]; intros skip state.
  - destruct state, skip; constructor.
  - destruct state as [|s_d state]; [constructor|].
    destruct skip as [|D_d skip]; [constructor|].
    cbn [map zip3]. constructor; [|apply IH].
    rewrite (allz_vsum (mul s_d C)) by (now apply allz_mul_r).
    subst a. ring.
Qed.

(** The recurrence gives a zero output wherever its input and its output
    coupling are zero, whatever the state is. *)
Lemma allz_recurrence A skip state xs deltas Bs Cs t :
  Forall (fun a => a = 0) (nth t xs []) ->
  Forall (fun a => a = 0) (nth t Cs []) ->
  Forall (fun a => a = 0)
         (nth t (fst (recurrence A skip state xs deltas Bs Cs)) []).
Proof.
  revert state deltas Bs Cs t.
  induction xs as [|x xs IH]; intros state deltas Bs Cs t Hx HC.
  - destruct t; constructor.
  - destruct deltas as [|dl deltas]; [destruct t; constructor|].
    destruct Bs as [|B Bs]; [destruct t; constructor|].
    destruct Cs as [|C Cs]; [destruct t; constructor|].
    cbn [recurrence]. cbv zeta.
    set (state' := recurrence_state A state x dl B).
    specialize (IH state' deltas Bs Cs).
    destruct (recurrence A skip state' xs deltas Bs Cs) as [ys last].
    cbn [fst] in *. destruct t as [|t]; cbn [nth] in *.
    + now apply allz_recurrence_output.
    + now apply IH.
Qed.

Lemma selective_scan_gate u delta A B C skip z db :
  selective_scan_fn u delta A B C skip (Some z) db
  = (zipWith (fun o_d z_d => mul o_d (map silu z_d))
             (fst (selective_scan_fn u delta A B C skip None db)) z,
     snd (selective_scan_fn u delta A B C skip None db)).
Proof.
  unfold selective_scan_fn. cbv zeta.
  destruct (recurrence _ _ _ _ _ _ _) as [ys last]. reflexivity.
Qed.

(** Without the gate, the scan's output is zero at every position where its
    input and its output coupling are zero. *)
Lemma selective_scan_zero u delta A B C skip db t d :
  (forall d', nth t (nth d' u []) 0 = 0) ->
  (forall n, nth t (nth n C []) 0 = 0) ->
  nth t (nth d (fst (selective_scan_fn u delta A B C skip None db)) []) 0 = 0.
Proof.
  intros Hu HC. unfold selective_scan_fn. cbv zeta.
  pose proof (allz_recurrence A skip (map (fun A_d => zeros (length A_d)) A)
                (transpose (length (hd [] u)) u)
                (map (fun dl => map softplus (add dl db))
                     (transpose (length (hd [] u)) delta))
                (transpose (length (hd [] u)) B)
                (transpose (length (hd [] u)) C) t
                (allz_transposed _ u t Hu) (allz_transposed _ C t HC)) as Hz.
  destruct (recurrence _ _ _ _ _ _ _) as [ys last]. cbn [fst] in *.
  destruct (Nat.lt_ge_cases d (length u)) as [Hd|Hd].
  - rewrite transpose_nth by assumption. rewrite column_nth.
    now apply allz_nth.
  - rewrite (nth_overflow (transpose _ _)) by (now rewrite transpose_length).
    now destruct t.
Qed.

(** The output coupling that [forward] computes is zero at every position
    where the convolved branch is zero, with or without the norms. *)
Lemma ssm_inputs_zero jamba N R L xw dw (x : mat) t n :
  (forall d, nth t (nth d x []) 0 = 0) ->
  nth t (nth n (snd (ssm_inputs jamba N R L xw dw x)) []) 0 = 0.
Proof.
  intros Hx. unfold ssm_inputs. cbv zeta.
  set (x_dbl := map (linear xw None) (transpose L x)).
  set (Cs := map (fun r => snd (split3 R N r)) x_dbl).
  assert (HC : Forall (fun a => a = 0) (nth t Cs [])).
  { unfold Cs, x_dbl. rewrite map_map.
    destruct (Nat.lt_ge_cases t L) as [Ht|Ht].
    - rewrite (nth_map_in _ _ _ []) by (now rewrite transpose_length).
      apply allz_split3, allz_linear. now apply allz_transposed.
    - rewrite nth_overflow by (now rewrite length_map, transpose_length).
      constructor. }
  assert (Hgoal : forall Cs' : list vec,
            Forall (fun a => a = 0) (nth t Cs' []) ->
            nth t (nth n (transpose N Cs') []) 0 = 0).
  { intros Cs' H. destruct (Nat.lt_ge_cases n N) as [Hn|Hn].
    - rewrite transpose_nth by assumption. rewrite column_nth.
      now apply allz_nth.
    - rewrite (nth_overflow (transpose _ _)) by (now rewrite transpose_length).
      now destruct t. }
  destruct jamba as [[[wdt wb] wc]|]; cbn [snd]; apply Hgoal; [|exact HC].
  destruct (Nat.lt_ge_cases t (length Cs)) as [Ht|Ht].
  - rewrite (nth_map_in _ _ _ []) by assumption. now apply allz_norm.
  - rewrite nth_overflow by (now rewrite length_map). constructor.
Qed.

(** The reference computation does not see the entries of its projected
    input at masked positions. *)
Lemma reference_path_masked N R K L g j cw cb xw dw db A sk ow ob m gm
      (xz xz' : mat) :
  length xz = length xz' ->
  (forall d, length (nth d xz []) = length (nth d xz' [])) ->
  (forall d t, nth t m 0 <> 0 ->
     nth t (nth d xz []) 0 = nth t (nth d xz' []) 0) ->
  reference_path N R K L g j cw cb xw dw db A sk ow ob (Some m) gm xz
  = reference_path N R K L g j cw cb xw dw db A sk ow ob (Some m) gm xz'.
Proof.
  intros Hlen Hrows Hag. unfold reference_path, chunk2. rewrite <- Hlen.
  set (h := Nat.div (length xz + 1) 2).
  assert (Hx : apply_mask (Some m) (firstn h xz)
               = apply_mask (Some m) (firstn h xz')).
  { cbn [apply_mask]. apply map_rows_ext.
    - rewrite !length_firstn. lia.
    - intros d Hd. rewrite length_firstn in Hd.
      rewrite !nth_firstn_lt by lia.
      apply mul_mask_agree; [apply Hrows|]. intros t Ht. now apply Hag. }
  cbv zeta. rewrite <- Hx.
  set (xm := apply_mask (Some m) (firstn h xz)).
  set (xcm := apply_mask (Some m) (conv_act cw cb K L xm)).
  set (z := skipn h xz). set (z' := skipn h xz').
  assert (Hzl : length z = length z')
    by (unfold z, z'; rewrite !length_skipn; lia).
  assert (Hzr : forall d, length (nth d z []) = length (nth d z' []))
    by (intros d; unfold z, z'; rewrite !nth_skipn_add; apply Hrows).
  assert (Hza : forall d t, nth t m 0 <> 0 ->
                  nth t (nth d z []) 0 = nth t (nth d z' []) 0)
    by (intros d t Ht; unfold z, z'; rewrite !nth_skipn_add; now apply Hag).
  assert (Hu : forall t, nth t m 0 = 0 -> forall d, nth t (nth d xcm []) 0 = 0)
    by (intros t Ht d; now apply apply_mask_zero).
  pose proof (fun t Ht n => ssm_inputs_zero j N R L xw dw xcm t n (Hu t Ht))
    as HC.
  destruct (ssm_inputs j N R L xw dw xcm) as [[dt B] C]. cbn [snd] in HC.
  assert (Hoz : forall d t,
            nth t (nth d (fst (selective_scan_fn xcm dt A B C sk None db)) []) 0
              <> 0 ->
            nth t (nth d z []) 0 = nth t (nth d z' []) 0).
  { intros d t Ho. apply Hza. intros Hm. apply Ho.
    apply selective_scan_zero; [now apply Hu|now apply HC]. }
  destruct g.
  - destruct (selective_scan_fn xcm dt A B C sk None db) as [out last].
    cbn [fst] in Hoz.
    enough (Hsw : swiglu (transpose L z) (transpose L out)
                  = swiglu (transpose L z') (transpose L out))
      by (now rewrite Hsw).
    unfold swiglu. apply (nth_ext _ _ [] []).
    + rewrite !zipWith_length, !transpose_length. reflexivity.
    + intros t Ht. rewrite zipWith_length, !transpose_length in Ht.
      rewrite !(nth_zipWith _ _ _ _ [] [])
        by (rewrite transpose_length; lia).
      rewrite !transpose_nth by lia.
      apply gate_agree.
      * now rewrite !column_length.
      * intros i Hi. rewrite !column_nth in *. now apply Hoz.
  - rewrite !selective_scan_gate.
    destruct (selective_scan_fn xcm dt A B C sk None db) as [out last].
    cbn [fst snd] in *.
    enough (Hg : zipWith (fun o_d z_d => mul o_d (map silu z_d)) out z
                 = zipWith (fun o_d z_d => mul o_d (map silu z_d)) out z')
      by (now rewrite Hg).
    apply zipWith_rows_ext; [exact Hzl|]. intros d _ _.
    apply gate_agree; [apply Hzr|]. intros t Ht. now apply Hoz.
Qed.

Lemma in_proj_T_rows (W : Weights) :
  exists fs : list (vec -> R),
    forall hs, in_proj_T W hs = map (fun f => map f hs) fs.
Proof.
  unfold in_proj_T, matmul_T, add_rows. cbv zeta.
  destruct (b_in W) as [b|].
  - exists (zipWith (fun w bd h => dot w h + bd) (w_in W) b). intros hs.
    revert b. induction (w_in W) as [|w ws IH]; intros [|bd b];
      try reflexivity.
    cbn [map zipWith]. now rewrite IH, map_map.
  - exists (map (fun w h => dot w h) (w_in W)). intros hs.
    now rewrite map_map.
Qed.

Lemma forward_pure_masked self W j hs hs' m gmu :
  length hs = length hs' ->
  (forall t, nth t m 0 <> 0 -> nth t hs [] = nth t hs' []) ->
  forward_pure self W j hs (Some m) gmu = forward_pure self W j hs' (Some m) gmu
  /\ mamba_inner_fn (d_state self) (dt_rank self) (d_conv self) (length hs)
       (in_proj_T W hs) (w_conv W) (b_conv W) (w_x W) (w_dt W) (w_out W)
       (b_out W) (neg_exp (a_log W)) (w_skip W) (b_dt W) (Some m)
     = mamba_inner_fn (d_state self) (dt_rank self) (d_conv self) (length hs')
         (in_proj_T W hs') (w_conv W) (b_conv W) (w_x W) (w_dt W) (w_out W)
         (b_out W) (neg_exp (a_log W)) (w_skip W) (b_dt W) (Some m).
Proof.
  intros Hl Hag. destruct (in_proj_T_rows W) as (fs & Hfs).
  assert (H : forall g j' gm,
            reference_path (d_state self) (dt_rank self) (d_conv self)
              (length hs) g j' (w_conv W) (b_conv W) (w_x W) (w_dt W) (b_dt W)
              (neg_exp (a_log W)) (w_skip W) (w_out W) (b_out W) (Some m) gm
              (in_proj_T W hs)
            = reference_path (d_state self) (dt_rank self) (d_conv self)
                (length hs) g j' (w_conv W) (b_conv W) (w_x W) (w_dt W)
                (b_dt W) (neg_exp (a_log W)) (w_skip W) (w_out W) (b_out W)
                (Some m) gm (in_proj_T W hs')).
  { intros g j' gm. rewrite !Hfs. apply reference_path_masked.
    - now rewrite !length_map.
    - intros d. destruct (Nat.lt_ge_cases d (length fs)) as [Hd|Hd].
      + rewrite !(nth_map_in _ _ _ (fun _ => 0)) by assumption.
        cbn beta. now rewrite !length_map.
      + now rewrite !(nth_overflow (map _ fs)) by (now rewrite length_map).
    - intros d t Ht. destruct (Nat.lt_ge_cases d (length fs)) as [Hd|Hd].
      + rewrite !(nth_map_in _ _ _ (fun _ => 0)) by assumption.
        cbn beta.
        destruct (Nat.lt_ge_cases t (length hs)) as [Hlt|Hge].
        * rewrite !(nth_map_in _ _ _ []) by lia. now rewrite (Hag t Ht).
        * now rewrite !(nth_overflow (map _ _)) by (rewrite length_map; lia).
      + now rewrite !(nth_overflow (map _ fs)) by (now rewrite length_map). }
  split.
  - unfold forward_pure. rewrite <- Hl. apply H.
  - unfold mamba_inner_fn. rewrite <- Hl. now rewrite H.
Qed.

(** X6.  With a mask, the tokens at masked positions (mask 0) have no influence:
    two sequences that agree wherever the mask is not zero give the same
    outputs, the same [gmu_mems] and the same cache.  With a cache attached
    this is for sequences of length other than one, which [forward] does not
    hand to [step]. *)
Theorem masked_tokens_are_ignored (self : Mamba) (hidden_states hidden_states' : list vec)
    (seq_idx : option (list nat)) (inference_params : option InferenceParams)
    (mask : vec) (gmu_mems : option (list vec)) (s : store)
    (conv_state ssm_state : loc) :
  norms_present self ->
  (inference_params <> None ->
   kv s (layer_idx self) = Some (conv_state, ssm_state)
   /\ separate self conv_state ssm_state
   /\ length hidden_states <> 1%nat) ->
  length hidden_states' = length hidden_states ->
  length mask = length hidden_states ->
  (forall t, nth t mask 0 <> 0 ->
     nth t hidden_states [] = nth t hidden_states' []) ->
  forward self hidden_states seq_idx inference_params (Some mask) gmu_mems s
  = forward self hidden_states' seq_idx inference_params (Some mask) gmu_mems s.
Proof.
  intros Hn Hc Hl _ Hag. symmetry in Hl.
  destruct (forward_pure_masked self (weights self (heap s))
              (norm_weights self (heap s)) hidden_states hidden_states' mask
              gmu_mems Hl Hag) as [Hp Hm].
  destruct inference_params as [ip|].
  - destruct (Hc ltac:(discriminate)) as (Hkv & Hsep & H1).
    rewrite (forward_cached self hidden_states seq_idx ip (Some mask) gmu_mems
               s conv_state ssm_state Hkv H1).
    rewrite (forward_cached self hidden_states' seq_idx ip (Some mask)
               gmu_mems s conv_state ssm_state Hkv)
      by (rewrite <- Hl; exact H1).
    rewrite !(forward_full_run self _ (Some (conv_state, ssm_state))
                (Some mask) gmu_mems s Hn Hsep).
    cbv zeta. rewrite fast_path_cached, Hp, Hl. reflexivity.
  - cbn [forward].
    rewrite !(forward_full_run self _ None (Some mask) gmu_mems s Hn I).
    cbv zeta. now rewrite Hp, Hm.
Qed.

(** *** The mask along the reference branch *)

Lemma fast_path_output_mask self W hs mask :
  fast_path self None = true ->
  mamba_inner_fn (d_state self) (dt_rank self) (d_conv self)
    (length hs) (in_proj_T W hs) (w_conv W) (b_conv W) (w_x W)
    (w_dt W) (w_out W) (b_out W) (neg_exp (a_log W)) (w_skip W)
    (b_dt W) mask
  = fst (fst (fst (forward_pure self W None hs mask None))).
Proof.
  intros Hf. unfold fast_path in Hf.
  destruct (gmu_save self) eqn:Hg;
    [rewrite andb_false_r in Hf; discriminate Hf|].
  unfold mamba_inner_fn, forward_pure. now rewrite Hg.
Qed.

(** A [forward] call away from the single-token exit, on a layer without
    norms, in terms of the scans of [step] on the masked tokens. *)
Lemma forward_mask_scan self hs si ipo mask gmu s cl sl :
  jamba_norm self = false ->
  (ipo <> None ->
   kv s (layer_idx self) = Some (cl, sl) /\ separate self cl sl
   /\ length hs <> 1%nat) ->
  shaped self (weights self (heap s)) ->
  (1 <= d_conv self)%nat -> (1 <= d_inner self)%nat ->
  opt_length (length hs) mask ->
  let W := weights self (heap s) in
  let XS := scale_tokens mask (map (fun h => fst (step_xz W h)) hs) in
  let xcs := conv_scan W XS (zeros2 (d_inner self) (d_conv self)) in
  let y := ssm_scan self W (scale_tokens mask (fst xcs))
                    (zeros2 (d_inner self) (d_state self)) in
  exists aux,
    forward self hs si ipo mask gmu s
    = (inr (Pair (gate_out W (fst y) (map (fun h => snd (step_xz W h)) hs)) aux),
       cache_store s (match ipo with Some _ => Some (cl, sl) | None => None end)
                   (snd xcs) (snd y)).
Proof.
  intros Hj Hc HW HK HE Hm W XS xcs y.
  pose proof (norms_present_off self Hj) as Hn.
  assert (HXS : length XS = length hs).
  { unfold XS. rewrite scale_tokens_length; rewrite length_map; [reflexivity|].
    exact Hm. }
  assert (HXSr : rows (d_inner self) XS).
  { apply scale_tokens_rows, Forall_map_length. intros h.
    now apply step_x0_length. }
  destruct ipo as [ip|].
  - destruct (Hc ltac:(discriminate)) as (Hkv & Hsep & H1).
    rewrite (forward_cached self hs si ip mask gmu s cl sl Hkv H1).
    rewrite (forward_full_run self hs (Some (cl, sl)) mask gmu s Hn Hsep).
    cbv zeta. rewrite fast_path_cached, (norm_weights_off self _ Hj).
    fold W.
    rewrite (forward_pure_mask_scan self W hs mask gmu HW HK HE Hm).
    cbv zeta. fold XS xcs y. cbn [fst snd].
    rewrite <- HXS, (pad_left_feed (d_inner self) (d_conv self) XS HK HXSr).
    rewrite <- (conv_scan_snd W XS). fold xcs.
    eexists. reflexivity.
  - cbn [forward].
    rewrite (forward_full_run self hs None mask gmu s Hn I).
    cbv zeta. fold W. cbn [cache_store].
    rewrite (norm_weights_off self _ Hj).
    destruct (fast_path self None) eqn:Hf.
    + rewrite (fast_path_output_mask self W hs mask Hf).
      rewrite (forward_pure_mask_scan self W hs mask None HW HK HE Hm).
      cbv zeta. fold XS xcs y. cbn [fst snd]. eexists. reflexivity.
    + rewrite (forward_pure_mask_scan self W hs mask gmu HW HK HE Hm).
      cbv zeta. fold XS xcs y. cbn [fst snd]. eexists. reflexivity.
Qed.

(** Tokens at positions where the mask is zero do not reach the result of
    a [forward] call away from the single-token exit. *)
Lemma forward_mask_agree self hs hs' si si' ipo m gmu s cl sl :
  norms_present self ->
  (ipo <> None ->
   kv s (layer_idx self) = Some (cl, sl) /\ separate self cl sl
   /\ length hs <> 1%nat) ->
  length hs' = length hs ->
  (forall t, nth t m 0 <> 0 -> nth t hs' [] = nth t hs []) ->
  forward self hs' si' ipo (Some m) gmu s = forward self hs si ipo (Some m) gmu s.
Proof.
  intros Hn Hc Hl Hag.
  destruct (forward_pure_masked self (weights self (heap s))
              (norm_weights self (heap s)) hs' hs m gmu Hl Hag) as [Hp Hm].
  destruct ipo as [ip|].
  - destruct (Hc ltac:(discriminate)) as (Hkv & Hsep & H1).
    rewrite (forward_cached self hs si ip (Some m) gmu s cl sl Hkv H1).
    rewrite (forward_cached self hs' si' ip (Some m) gmu s cl sl Hkv)
      by (rewrite Hl; exact H1).
    rewrite !(forward_full_run self _ (Some (cl, sl)) (Some m) gmu s Hn Hsep).
    cbv zeta. rewrite fast_path_cached, Hp, Hl. reflexivity.
  - cbn [forward].
    rewrite !(forward_full_run self _ None (Some m) gmu s Hn I).
    cbv zeta. now rewrite Hp, Hm.
Qed.

(** A cached call on one token is handed to [step] whatever the mask. *)
Lemma forward_single_ignores_mask self hs si ip mask gmu s cl sl :
  kv s (layer_idx self) = Some (cl, sl) -> length hs = 1%nat ->
  forward self hs si (Some ip) mask gmu s
  = match step self hs cl sl s with
    | (inr (out, _, _), s') => (inr (Single out), s')
    | (inl e, s') => (inl e, s')
    end.
Proof.
  intros Hkv Hl. unfold forward.
  rewrite (bind_ok _ _ _ _ _ (get_states_hit _ _ _ Hkv)).
  rewrite Hl. cbn [Nat.eqb]. unfold bind.
  destruct (step self hs cl sl s) as [[e|[[out c] l]] s']; reflexivity.
Qed.

Lemma pad_left_nth (K : nat) (v : vec) j t :
  (j + length v = t + K)%nat ->
  nth j (pad_left (Z.of_nat K - Z.of_nat (length v)) v) 0 = nth t v 0.
Proof.
  intros H. unfold pad_left.
  destruct (Z.leb_spec 0 (Z.of_nat K - Z.of_nat (length v))) as [Hle|Hlt].
  - replace (Z.to_nat (Z.of_nat K - Z.of_nat (length v)))
      with (K - length v)%nat by lia.
    destruct (Nat.lt_ge_cases j (K - length v)) as [Hj|Hj].
    + rewrite app_nth1 by (now rewrite zeros_length).
      rewrite (nth_overflow v) by lia.
      unfold zeros. now rewrite nth_repeat_lt.
    + rewrite app_nth2 by (rewrite zeros_length; lia).
      rewrite zeros_length. f_equal. lia.
  - rewrite nth_skipn. f_equal. lia.
Qed.

Lemma in_proj_x_rows (W : Weights) (hs : list vec) :
  rows (length hs) (fst (chunk2 (in_proj_T W hs))).
Proof.
  destruct (in_proj_T_rows W) as (fs & Hfs). rewrite Hfs.
  unfold chunk2, rows. cbn [fst]. apply Forall_firstn.
  apply Forall_map, Forall_forall. intros f _. apply length_map.
Qed.

(** The ring buffer a cached [forward] call leaves: the masked [x], padded
    or cropped to the width of the convolution. *)
Lemma forward_mask_buffer self hs si ip mask gmu s cl sl :
  norms_present self ->
  kv s (layer_idx self) = Some (cl, sl) -> separate self cl sl ->
  length hs <> 1%nat ->
  as_mat (heap (snd (forward self hs si (Some ip) mask gmu s)) cl)
  = map (pad_left (Z.of_nat (d_conv self) - Z.of_nat (length hs)))
        (apply_mask mask (fst (chunk2 (in_proj_T (weights self (heap s)) hs)))).
Proof.
  intros Hn Hkv Hsep H1.
  rewrite (forward_cached self hs si ip mask gmu s cl sl Hkv H1).
  rewrite (forward_full_run self hs (Some (cl, sl)) mask gmu s Hn Hsep).
  cbv zeta. rewrite fast_path_cached. cbn [snd cache_store heap].
  destruct Hsep as (Hne & _ & _).
  rewrite upd_neq, upd_eq by assumption. cbn [as_mat].
  unfold forward_pure. now rewrite reference_path_ox.
Qed.

Lemma forward_mask_buffer_zero self hs si ip (m : vec) gmu s cl sl d j t :
  norms_present self ->
  kv s (layer_idx self) = Some (cl, sl) -> separate self cl sl ->
  length hs <> 1%nat -> length m = length hs ->
  (j + length hs = t + d_conv self)%nat ->
  nth t m 0 = 0 ->
  nth j (nth d (as_mat (heap (snd (forward self hs si (Some ip) (Some m) gmu s))
                             cl)) []) 0 = 0.
Proof.
  intros Hn Hkv Hsep H1 Hm Hj Ht.
  rewrite (forward_mask_buffer self hs si ip (Some m) gmu s cl sl Hn Hkv Hsep H1).
  set (X := fst (chunk2 _)).
  assert (HX : rows (length hs) X) by apply in_proj_x_rows.
  destruct (Nat.lt_ge_cases d (length (apply_mask (Some m) X))) as [Hd|Hd].
  - rewrite (nth_map_in _ _ _ []) by assumption.
    assert (Hrow : length (nth d (apply_mask (Some m) X) []) = length hs).
    { cbn [apply_mask] in *. rewrite length_map in Hd.
      rewrite (nth_map_in _ _ _ []) by assumption.
      rewrite mul_length, (rows_nth _ _ _ HX Hd). lia. }
    rewrite <- Hrow. rewrite (pad_left_nth _ _ j t) by (rewrite Hrow; exact Hj).
    now apply apply_mask_zero.
  - rewrite (nth_overflow (map _ _)) by (now rewrite length_map).
    now destruct j.
Qed.

(** C7, as the code has it.  A [forward] call with a mask of the
    sequence's length (layer built without [use_cu_seqlen]).

    Away from the single-token decoding exit, that is without a cache or
    on a sequence of length other than one: the tokens at positions where
    the mask is zero, and the segment identifiers [seq_idx], have no
    influence on the result and on the store, with or without norms; the
    ring buffer that a cached call leaves, which is the input of the
    causal convolution padded or cropped to its width, is zero in every
    channel at every position where the mask is zero; and on a layer
    without norms, with parameters of the layer's shapes and positive inner
    and convolution widths, the call returns what [step]'s ring buffer and
    recurrence give when the expanded branch [x] of each token is
    multiplied by the mask before it enters the convolution, the
    convolution output is multiplied by the mask again, and the recurrence
    runs from a zero state over every position in turn, its state carried
    from each position to the next without any reset.

    With a cache and a single token the call is handed to [step], which
    does not see the mask. *)
Theorem mask_zeroes_conv_input (self : Mamba) (hidden_states : list vec)
    (seq_idx : option (list nat)) (inference_params : option InferenceParams)
    (mask : vec) (gmu_mems : option (list vec)) (s : store)
    (conv_state ssm_state : loc) :
  norms_present self ->
  (inference_params <> None ->
   kv s (layer_idx self) = Some (conv_state, ssm_state)
   /\ separate self conv_state ssm_state) ->
  length mask = length hidden_states ->
  let W := weights self (heap s) in
  let cache := match inference_params with
               | Some _ => Some (conv_state, ssm_state)
               | None => None
               end in
  (inference_params = None \/ length hidden_states <> 1%nat ->
   (forall hidden_states' seq_idx',
      length hidden_states' = length hidden_states ->
      (forall t, nth t mask 0 <> 0 ->
         nth t hidden_states' [] = nth t hidden_states []) ->
      forward self hidden_states' seq_idx' inference_params (Some mask)
              gmu_mems s
      = forward self hidden_states seq_idx inference_params (Some mask)
                gmu_mems s)
   /\ (inference_params <> None ->
       forall d j t,
         (j + length hidden_states = t + d_conv self)%nat ->
         nth t mask 0 = 0 ->
         nth j (nth d (as_mat (heap (snd (forward self hidden_states seq_idx
                                            inference_params (Some mask)
                                            gmu_mems s)) conv_state)) [])
             0 = 0)
   /\ (jamba_norm self = false -> shaped self W ->
       (1 <= d_conv self)%nat -> (1 <= d_inner self)%nat ->
       let XS := scale_tokens (Some mask)
                   (map (fun h => fst (step_xz W h)) hidden_states) in
       let xcs := conv_scan W XS (zeros2 (d_inner self) (d_conv self)) in
       let XC := scale_tokens (Some mask) (fst xcs) in
       let y := ssm_scan self W XC (zeros2 (d_inner self) (d_state self)) in
       exists aux,
         forward self hidden_states seq_idx inference_params (Some mask)
                 gmu_mems s
         = (inr (Pair (gate_out W (fst y)
                         (map (fun h => snd (step_xz W h)) hidden_states))
                      aux),
            cache_store s cache (snd xcs) (snd y))))
  /\ (inference_params <> None -> length hidden_states = 1%nat ->
      forward self hidden_states seq_idx inference_params (Some mask)
              gmu_mems s
      = match step self hidden_states conv_state ssm_state s with
        | (inr (out, _, _), s') => (inr (Single out), s')
        | (inl e, s') => (inl e, s')
        end).
Proof.
  intros Hn Hc Hm W cache. split.
  - intros Hfar.
    assert (Hc' : inference_params <> None ->
                  kv s (layer_idx self) = Some (conv_state, ssm_state)
                  /\ separate self conv_state ssm_state
                  /\ length hidden_states <> 1%nat).
    { intros Hip. destruct (Hc Hip) as [Hkv Hsep].
      destruct Hfar as [Hnone|Hl]; [contradiction|]. auto. }
    split; [|split].
    + intros hs' si' Hl Hag.
      exact (forward_mask_agree self hidden_states hs' seq_idx si'
               inference_params mask gmu_mems s conv_state ssm_state
               Hn Hc' Hl Hag).
    + intros Hip d j t Hj Ht.
      destruct (Hc' Hip) as (Hkv & Hsep & Hl).
      destruct inference_params as [ip|]; [|contradiction].
      exact (forward_mask_buffer_zero self hidden_states seq_idx ip mask
               gmu_mems s conv_state ssm_state d j t Hn Hkv Hsep Hl Hm Hj Ht).
    + intros Hj HW HK HE.
      exact (forward_mask_scan self hidden_states seq_idx inference_params
               (Some mask) gmu_mems s conv_state ssm_state Hj Hc' HW HK HE Hm).
  - intros Hip Hl. destruct inference_params as [ip|]; [|contradiction].
    destruct (Hc Hip) as [Hkv _].
    exact (forward_single_ignores_mask self hidden_states seq_idx ip
             (Some mask) gmu_mems s conv_state ssm_state Hkv Hl).
Qed.

(** *** The stateless call against decoding from an empty cache *)

Lemma fast_path_output self W hs :
  fast_path self None = true ->
  mamba_inner_fn (d_state self) (dt_rank self) (d_conv self)
    (length hs) (in_proj_T W hs) (w_conv W) (b_conv W) (w_x W)
    (w_dt W) (w_out W) (b_out W) (neg_exp (a_log W)) (w_skip W)
    (b_dt W) None
  = fst (fst (fst (forward_pure self W None hs None None))).
Proof.
  intros Hf. unfold fast_path in Hf.
  destruct (gmu_save self) eqn:Hg;
    [rewrite andb_false_r in Hf; discriminate Hf|].
  unfold mamba_inner_fn, forward_pure. now rewrite Hg.
Qed.

(** X2.  On a layer without norms, a [forward] call without a cache (on either
    branch, fused or not) returns the outputs of one [step] call per token
    on a zeroed cache, and writes nothing. *)
Theorem stateless_forward_matches_decode (self : Mamba)
    (hidden_states : list vec) (seq_idx : option (list nat))
    (gmu_mems : option (list vec)) (s : store) (conv_state ssm_state : loc) :
  jamba_norm self = false ->
  separate self conv_state ssm_state ->
  shaped self (weights self (heap s)) ->
  (1 <= d_conv self)%nat -> (1 <= d_inner self)%nat ->
  heap s conv_state = T2 (zeros2 (d_inner self) (d_conv self)) ->
  heap s ssm_state = T2 (zeros2 (d_inner self) (d_state self)) ->
  exists outs aux s',
    forward self hidden_states seq_idx None None gmu_mems s
    = (inr (Pair outs aux), s)
    /\ decode self hidden_states conv_state ssm_state s = (inr outs, s').
Proof.
  intros Hj Hsep HW HK HE Hcl Hsl. cbn [forward].
  rewrite (forward_full_run self _ None None gmu_mems s
             (norms_present_off self Hj) I).
  rewrite (decode_run self hidden_states conv_state ssm_state s Hsep).
  cbv zeta. cbn [cache_store]. rewrite (norm_weights_off self _ Hj).
  rewrite decode_pure_split. cbv zeta. cbn [fst snd].
  rewrite Hcl, Hsl. cbn [as_mat].
  destruct (fast_path self None) eqn:Hf.
  - rewrite (fast_path_output self _ hidden_states Hf).
    rewrite (forward_pure_scan self _ hidden_states None HW HK HE).
    cbv zeta. cbn [fst]. do 3 eexists. split; reflexivity.
  - rewrite (forward_pure_scan self _ hidden_states gmu_mems HW HK HE).
    cbv zeta. cbn [fst snd]. do 3 eexists. split; reflexivity.
Qed.



(** *** The export of the pre-gate output *)

Lemma with_gmu_save_shaped b self W : shaped self W -> shaped (with_gmu_save b self) W.
Proof. intros [H1 H2 H3 H4 H5 H6 H7 H8 H9 H10 H11]. constructor; assumption. Qed.

Lemma forward_scan_any self hs si ipo gmu s cl sl :
  jamba_norm self = false ->
  (ipo <> None ->
   kv s (layer_idx self) = Some (cl, sl) /\ separate self cl sl) ->
  shaped self (weights self (heap s)) ->
  (1 <= d_conv self)%nat -> (1 <= d_inner self)%nat ->
  let W := weights self (heap s) in
  let fx := fun h => fst (step_xz W h) in
  let fz := fun h => snd (step_xz W h) in
  exists r s',
    forward self hs si ipo None gmu s = (inr r, s')
    /\ match ipo with
       | Some _ =>
           if (length hs =? 1)%nat then
             r = Single [fst (fst (step_pure self W (hd [] hs)
                                     (as_mat (heap s cl)) (as_mat (heap s sl))))]
             /\ s' = cache_store s (Some (cl, sl))
                       (snd (fst (step_pure self W (hd [] hs)
                                    (as_mat (heap s cl)) (as_mat (heap s sl)))))
                       (snd (step_pure self W (hd [] hs)
                               (as_mat (heap s cl)) (as_mat (heap s sl))))
           else
             let xcs := conv_scan W (map fx hs)
                                  (zeros2 (d_inner self) (d_conv self)) in
             let y := ssm_scan self W (fst xcs)
                               (zeros2 (d_inner self) (d_state self)) in
             (exists aux, r = Pair (gate_out W (fst y) (map fz hs)) aux)
             /\ s' = cache_store s (Some (cl, sl)) (snd xcs) (snd y)
       | None =>
           let xcs := conv_scan W (map fx hs)
                                (zeros2 (d_inner self) (d_conv self)) in
           let y := ssm_scan self W (fst xcs)
                             (zeros2 (d_inner self) (d_state self)) in
           (exists aux, r = Pair (gate_out W (fst y) (map fz hs)) aux)
           /\ s' = s
       end.
Proof.
  intros Hj Hc HW HK HE W fx fz.
  destruct ipo as [ip|].
  - destruct (Hc ltac:(discriminate)) as [Hkv Hsep].
    destruct (Nat.eqb_spec (length hs) 1) as [H1|H1].
    + destruct hs as [|h [|h' hs]]; try discriminate H1.
      rewrite (forward_cached_one self h si ip None gmu s cl sl Hkv Hsep).
      cbv zeta. do 2 eexists. split; [reflexivity|]. cbn [hd]. fold W.
      split; reflexivity.
    + rewrite (forward_cached_scan self hs si ip gmu s cl sl Hj Hkv Hsep HW
                 HK HE H1).
      cbv zeta. do 2 eexists. split; [reflexivity|]. fold W. cbv zeta.
      split; [eexists; reflexivity|reflexivity].
  - cbn [forward].
    rewrite (forward_full_run self _ None None gmu s
               (norms_present_off self Hj) I).
    cbv zeta. cbn [cache_store]. rewrite (norm_weights_off self _ Hj). fold W.
    destruct (fast_path self None) eqn:Hf.
    + rewrite (fast_path_output self W hs Hf).
      rewrite (forward_pure_scan self W hs None HW HK HE).
      cbv zeta. cbn [fst]. do 2 eexists. split; [reflexivity|].
      split; [eexists; reflexivity|reflexivity].
    + rewrite (forward_pure_scan self W hs gmu HW HK HE).
      cbv zeta. cbn [fst snd]. do 2 eexists. split; [reflexivity|].
      split; [eexists; reflexivity|reflexivity].
Qed.

Lemma ssm_scan_with_gmu_save b self W xs ss :
  ssm_scan (with_gmu_save b self) W xs ss = ssm_scan self W xs ss.
Proof.
  revert ss. induction xs as [|x xs IH]; intros ss; [reflexivity|].
  cbn [ssm_scan]. cbv zeta. rewrite IH. reflexivity.
Qed.

(** X8.  Building the layer with [gmu_save] changes no output and no cache
    content (on a layer without norms, called without a mask): the flag only
    adds the export of the pre-gate output. *)
Theorem gmu_save_keeps_outputs (self : Mamba) (hidden_states : list vec)
    (seq_idx : option (list nat)) (inference_params : option InferenceParams)
    (gmu_mems : option (list vec)) (s : store) (conv_state ssm_state : loc) :
  jamba_norm self = false ->
  (inference_params <> None ->
   kv s (layer_idx self) = Some (conv_state, ssm_state)
   /\ separate self conv_state ssm_state) ->
  shaped self (weights self (heap s)) ->
  (1 <= d_conv self)%nat -> (1 <= d_inner self)%nat ->
  exists r r' s',
    forward (with_gmu_save true self) hidden_states seq_idx inference_params
            None gmu_mems s = (inr r, s')
    /\ forward (with_gmu_save false self) hidden_states seq_idx
               inference_params None gmu_mems s = (inr r', s')
    /\ match r, r' with
       | Single out, Single out' | Pair out _, Pair out' _ => out = out'
       | _, _ => False
       end.
Proof.
  intros Hj Hc HW HK HE.
  destruct (forward_scan_any (with_gmu_save true self) hidden_states seq_idx
              inference_params gmu_mems s conv_state ssm_state Hj Hc
              (with_gmu_save_shaped true self _ HW) HK HE)
    as (r & s1 & Hr & H1).
  destruct (forward_scan_any (with_gmu_save false self) hidden_states seq_idx
              inference_params gmu_mems s conv_state ssm_state Hj Hc
              (with_gmu_save_shaped false self _ HW) HK HE)
    as (r' & s2 & Hr' & H2).
  exists r, r', s1. split; [exact Hr|].
  cbv zeta in H1, H2.
  change (weights (with_gmu_save true self) (heap s))
    with (weights self (heap s)) in H1.
  change (weights (with_gmu_save false self) (heap s))
    with (weights self (heap s)) in H2.
  cbn [with_gmu_save d_inner d_conv d_state] in H1, H2.
  rewrite ssm_scan_with_gmu_save in H1, H2.
  destruct inference_params as [ip|].
  - destruct (length hidden_states =? 1)%nat.
    + rewrite !step_pure_eq in H1, H2. cbv zeta in H1, H2.
      cbn [fst snd] in H1, H2.
      destruct H1 as [-> ->]. destruct H2 as [-> ->].
      split; [exact Hr'|reflexivity].
    + destruct H1 as [[aux ->] ->]. destruct H2 as [[aux' ->] ->].
      split; [exact Hr'|reflexivity].
  - destruct H1 as [[aux ->] ->]. destruct H2 as [[aux' ->] ->].
    split; [exact Hr'|reflexivity].
Qed.

(** *** The shapes of the cache after a prefill *)

Lemma pad_left_length (K : nat) (v : vec) :
  length (pad_left (Z.of_nat K - Z.of_nat (length v)) v) = K.
Proof.
  rewrite pad_left_ring, length_skipn, length_app, zeros_length. lia.
Qed.

Lemma in_proj_T_length (W : Weights) (hs : list vec) :
  opt_length (length (w_in W)) (b_in W) ->
  length (in_proj_T W hs) = length (w_in W)
  /\ rows (length hs) (in_proj_T W hs).
Proof.
  intros Hb. rewrite (in_proj_T_columns W hs Hb). split.
  - apply transpose_length.
  - rewrite <- (length_map (linear (w_in W) (b_in W)) hs).
    apply rows_transpose.
Qed.

Lemma apply_mask_shape (E L : nat) (mask : option vec) (x : mat) :
  length x = E -> rows L x ->
  match mask with Some m => length m = L | None => True end ->
  length (apply_mask mask x) = E /\ rows L (apply_mask mask x).
Proof.
  intros Hx Hr Hm. destruct mask as [m|]; cbn [apply_mask]; [|now split].
  split; [now rewrite length_map|].
  unfold rows. apply Forall_map. eapply Forall_impl; [|exact Hr].
  intros r Hl. cbn beta in *. rewrite mul_length. lia.
Qed.

Lemma recurrence_last_shape (E N : nat) A skip state xs deltas Bs Cs :
  length A = E -> rows N A -> length state = E -> rows N state ->
  rows E xs -> rows E deltas -> rows N Bs ->
  length (snd (recurrence A skip state xs deltas Bs Cs)) = E
  /\ rows N (snd (recurrence A skip state xs deltas Bs Cs)).
Proof.
  intros HA HAr Hs Hsr Hxs. revert state deltas Bs Cs Hs Hsr.
  induction Hxs as [|x xs Hx _ IH]; intros state deltas Bs Cs Hs Hsr Hd HB.
  - cbn [recurrence snd]. now split.
  - destruct Hd as [|dl deltas Hdl Hd]; [cbn [recurrence snd]; now split|].
    destruct HB as [|B Bs HBl HB]; [cbn [recurrence snd]; now split|].
    destruct Cs as [|C Cs]; [cbn [recurrence snd]; now split|].
    cbn [recurrence]. cbv zeta. rewrite recurrence_state_eq.
    set (state' := ssm_update A dl B x state).
    assert (Hs' : length state' = E) by (now apply ssm_update_length).
    assert (Hsr' : rows N state') by (now apply ssm_update_rows).
    specialize (IH state' deltas Bs Cs Hs' Hsr' Hd HB).
    destruct (recurrence A skip state' xs deltas Bs Cs) as [ys last].
    exact IH.
Qed.

Lemma selective_scan_last_shape (E N : nat) u delta A B C skip z db :
  length A = E -> rows N A -> length u = E -> length delta = E ->
  length db = E -> length B = N ->
  length (snd (selective_scan_fn u delta A B C skip z db)) = E
  /\ rows N (snd (selective_scan_fn u delta A B C skip z db)).
Proof.
  intros HA HAr Hu Hd Hdb HB. unfold selective_scan_fn. cbv zeta.
  set (L := length (hd [] u)).
  pose proof (recurrence_last_shape E N A skip
                (map (fun A_d => zeros (length A_d)) A)
                (transpose L u)
                (map (fun dl => map softplus (add dl db)) (transpose L delta))
                (transpose L B) (transpose L C) HA HAr) as H.
  destruct (recurrence _ _ _ _ _ _ _) as [ys last]. cbn [snd] in *.
  apply H.
  - now rewrite length_map.
  - unfold rows. apply Forall_map. eapply Forall_impl; [|exact HAr].
    intros r Hr. cbn beta in *. now rewrite zeros_length.
  - rewrite <- Hu. apply rows_transpose.
  - unfold rows. apply Forall_map.
    pose proof (rows_transpose L delta) as Hr. rewrite Hd in Hr.
    eapply Forall_impl; [|exact Hr]. intros r Hl. cbn beta in *.
    rewrite length_map, add_length. lia.
  - rewrite <- HB. apply rows_transpose.
Qed.

Lemma ssm_inputs_shape (E N : nat) jamba R L xw dw (x : mat) :
  length dw = E ->
  length (fst (fst (ssm_inputs jamba N R L xw dw x))) = E
  /\ length (snd (fst (ssm_inputs jamba N R L xw dw x))) = N.
Proof.
  intros Hd. unfold ssm_inputs. cbv zeta.
  destruct jamba as [[[wdt wb] wc]|]; cbn [fst snd]; unfold matmul_T;
    now rewrite length_map, transpose_length.
Qed.

Lemma reference_path_cache_shape self W jamba hs mask gmu :
  shaped self W ->
  match mask with Some m => length m = length hs | None => True end ->
  let r := forward_pure self W jamba hs mask gmu in
  let conv := map (pad_left (Z.of_nat (d_conv self) - Z.of_nat (length hs)))
                  (snd (fst (fst r))) in
  cache_shaped self conv (snd (fst r)).
Proof.
  intros HW Hm r conv.
  assert (Hb : opt_length (length (w_in W)) (b_in W))
    by (rewrite (sh_in _ _ HW); apply (sh_in_b _ _ HW)).
  destruct (in_proj_T_length W hs Hb) as [Hxl Hxr].
  rewrite (sh_in _ _ HW) in Hxl.
  assert (Hx : length (fst (chunk2 (in_proj_T W hs))) = d_inner self
               /\ rows (length hs) (fst (chunk2 (in_proj_T W hs)))).
  { unfold chunk2. cbn [fst]. rewrite Hxl, half_double. split.
    - rewrite length_firstn. lia.
    - now apply Forall_firstn. }
  destruct Hx as [Hx1 Hx2].
  destruct (apply_mask_shape (d_inner self) (length hs) mask _ Hx1 Hx2 Hm)
    as [Hox Hoxr].
  assert (Hlast : length (snd (fst r)) = d_inner self
                  /\ rows (d_state self) (snd (fst r))).
  { unfold r, forward_pure, reference_path.
    destruct (chunk2 (in_proj_T W hs)) as [x z]. cbn [fst] in *. cbv zeta.
    set (xm := apply_mask mask x) in *.
    set (xcm := apply_mask mask (conv_act _ _ _ _ xm)).
    assert (Hxcm : length xcm = d_inner self).
    { unfold xcm. destruct mask as [m|]; cbn [apply_mask];
        rewrite ?length_map; apply conv_act_length;
        try apply (sh_conv _ _ HW); try apply (sh_conv_b _ _ HW);
        assumption. }
    destruct (ssm_inputs_shape (d_inner self) (d_state self) jamba
                (dt_rank self) (length hs) (w_x W) (w_dt W) xcm
                (sh_dt _ _ HW)) as [Hdt HB].
    destruct (ssm_inputs _ _ _ _ _ _ xcm) as [[dt B] C]. cbn [fst snd] in *.
    assert (Hsc : forall zo,
              length (snd (selective_scan_fn xcm dt (neg_exp (a_log W)) B C
                             (w_skip W) zo (b_dt W))) = d_inner self
              /\ rows (d_state self)
                      (snd (selective_scan_fn xcm dt (neg_exp (a_log W)) B C
                              (w_skip W) zo (b_dt W)))).
    { intros zo. apply selective_scan_last_shape; try assumption.
      - unfold neg_exp. rewrite length_map. apply (sh_A _ _ HW).
      - apply neg_exp_rows, (sh_A_rows _ _ HW).
      - apply (sh_dt_b _ _ HW). }
    destruct (gmu_save self).
    - specialize (Hsc None).
      destruct (selective_scan_fn _ _ _ _ _ _ _ _) as [y last]. exact Hsc.
    - specialize (Hsc (Some z)).
      destruct (selective_scan_fn _ _ _ _ _ _ _ _) as [y last]. exact Hsc. }
  destruct Hlast as [Hl1 Hl2].
  assert (Hoxeq : snd (fst (fst r))
                  = apply_mask mask (fst (chunk2 (in_proj_T W hs))))
    by apply reference_path_ox.
  constructor; try assumption.
  - unfold conv. now rewrite length_map, Hoxeq.
  - unfold conv, rows. apply Forall_map. rewrite Hoxeq.
    eapply Forall_impl; [|exact Hoxr]. intros row Hrow. cbn beta in *.
    rewrite <- Hrow. apply pad_left_length.
Qed.

(** X11.  A [forward] call over a sequence of length other than one with the
    cache attached leaves a ring buffer [(E, K)] and a state [(E, N)],
    whatever the cache tensors held before. *)
Theorem forward_sets_cache_shapes (self : Mamba) (hidden_states : list vec)
    (seq_idx : option (list nat)) (ip : InferenceParams) (mask : option vec)
    (gmu_mems : option (list vec)) (s : store) (conv_state ssm_state : loc) :
  norms_present self ->
  kv s (layer_idx self) = Some (conv_state, ssm_state) ->
  separate self conv_state ssm_state ->
  shaped self (weights self (heap s)) ->
  length hidden_states <> 1%nat ->
  match mask with
  | Some m => length m = length hidden_states
  | None => True
  end ->
  exists out aux s',
    forward self hidden_states seq_idx (Some ip) mask gmu_mems s
    = (inr (Pair out aux), s')
    /\ cache_shaped self (as_mat (heap s' conv_state))
                    (as_mat (heap s' ssm_state)).
Proof.
  intros Hn Hkv Hsep HW H1 Hm.
  rewrite (forward_cached self hidden_states seq_idx ip mask gmu_mems s
             conv_state ssm_state Hkv H1).
  rewrite (forward_full_run self hidden_states (Some (conv_state, ssm_state))
             mask gmu_mems s Hn Hsep).
  cbv zeta. rewrite fast_path_cached.
  do 3 eexists. split; [reflexivity|].
  destruct Hsep as (Hne & _ & _).
  cbn [cache_store heap]. rewrite upd_neq, !upd_eq by assumption.
  cbn [as_mat].
  exact (reference_path_cache_shape self _ _ hidden_states mask gmu_mems HW Hm).
Qed.

(** *** The widths of the default configuration *)

(** X15.  With the defaults [expand = 2] and [dt_rank = "auto"], the inner width
    is twice the model width and the rank is the least integer [r] with
    [16 r >= d_model]. *)
Theorem default_widths (a : InitArgs) (rng : Draws) (s s' : store)
    (self : Mamba) :
  __init__ a rng s = (inr self, s') ->
  arg_expand a = PyInt 2 -> arg_dt_rank a = None ->
  d_inner self = (2 * d_model self)%nat
  /\ (d_model self <= 16 * dt_rank self < d_model self + 16)%nat.
Proof.
  intros H He Hr.
  pose proof (init_inversion _ _ _ _ _ H) as [Hm _ _ _ _ _ _ _ _ _].
  destruct (init_fields _ _ _ _ _ H) as (Hd & _ & _ & Hi & Hk & _).
  rewrite Hd, Hi, Hk. unfold init_d_inner, init_dt_rank. rewrite He, Hr.
  unfold ceil_div16. cbn [int_expand].
  split; [lia|].
  pose proof (Z.div_mod (- arg_d_model a) 16 ltac:(lia)) as Hdm.
  pose proof (Z.mod_pos_bound (- arg_d_model a) 16 ltac:(lia)) as Hb.
  lia.
Qed.

(* ================================================================== *)
(** ** The evaluation prompts *)
(* ================================================================== *)

Section Prompts.
Import EvalReason.
Local Open Scope string_scope.

Lemma append_empty_r (s : string) : s ++ "" = s.
Proof. induction s as [|c s IH]; simpl; [reflexivity|now rewrite IH]. Qed.

Lemma format_math (problem : string) :
  format MATH_QUERY_TEMPLATE [("Question", problem)]
  = inr ("Please reason step by step, and put your final answer within \boxed{}. "
         ++ problem).
Proof.
  rewrite <- (append_empty_r problem) at 2. vm_compute. reflexivity.
Qed.

Lemma format_gpqa (a b c d question : string) :
  format GPQA_QUERY_TEMPLATE
         [("A", a); ("B", b); ("C", c); ("D", d); ("Question", question)]
  = inr ("Please reason step by step, and put your final choice of one letter from A/B/C/D within \boxed{}. "
         ++ question ++ newline ++ newline
         ++ "A) " ++ a ++ newline
         ++ "B) " ++ b ++ newline
         ++ "C) " ++ c ++ newline
         ++ "D) " ++ d).
Proof.
  rewrite <- (append_empty_r d) at 2. vm_compute. reflexivity.
Qed.

(** X16.  [prompt_fn] and [aime_prompt_fn] put the problem text after the fixed
    instruction exactly as the row has it, braces included; the doubled
    braces of the template give the single pair of [\boxed{}]; the only
    choice, at gold index 0, is the row's solution (or answer). *)
Theorem math_prompts_keep_problem_verbatim (line : Row) (task : option string)
    (problem : string) :
  getitem line "problem" = inr problem ->
  let q := "Please reason step by step, and put your final answer within \boxed{}. "
           ++ problem in
  (forall solution, getitem line "solution" = inr solution ->
     prompt_fn line task = inr (mkDoc task q [solution] 0 None))
  /\ (forall answer, getitem line "answer" = inr answer ->
        aime_prompt_fn line task = inr (mkDoc task q [answer] 0 None)).
Proof.
  intros Hp q. split; intros x Hx.
  - unfold prompt_fn. rewrite Hp. cbn [bindE]. rewrite format_math.
    cbn [bindE]. rewrite Hx. reflexivity.
  - unfold aime_prompt_fn. rewrite Hp. cbn [bindE]. rewrite format_math.
    cbn [bindE]. rewrite Hx. reflexivity.
Qed.

Lemma insert_nth (g : nat) (x : string) (l : list string) :
  (g <= length l)%nat ->
  nth g (insert g x l) "" = x
  /\ (firstn g (insert g x l) ++ skipn (S g) (insert g x l))%list = l.
Proof.
  intros Hg. unfold insert.
  assert (Hl : length (firstn g l) = g) by (rewrite length_firstn; lia).
  split.
  - rewrite app_nth2 by lia. rewrite Hl, Nat.sub_diag. reflexivity.
  - rewrite firstn_app, Hl, Nat.sub_diag. cbn [firstn]. rewrite app_nil_r.
    rewrite firstn_firstn, Nat.min_id.
    rewrite skipn_app, Hl.
    replace (S g - g)%nat with 1%nat by lia.
    rewrite (skipn_all2 (firstn g l)) by lia. cbn [skipn app].
    apply firstn_skipn.
Qed.

(** X17.  Whatever index [random.randint(0, 3)] draws, [gpqa_prompt_fn] lists the
    four answers of the row under the letters A to D with the correct answer
    at the gold index and the three incorrect answers, in their order, at
    the other places; the choices are the four letters and the instruction
    is the query. *)
Theorem gpqa_gold_index_marks_correct_answer (randint : nat) (line : Row)
    (task : option string) (i1 i2 i3 correct question : string) :
  (randint <= 3)%nat ->
  getitem line "Incorrect Answer 1" = inr i1 ->
  getitem line "Incorrect Answer 2" = inr i2 ->
  getitem line "Incorrect Answer 3" = inr i3 ->
  getitem line "Correct Answer" = inr correct ->
  getitem line "Question" = inr question ->
  exists a b c d,
    let q := "Please reason step by step, and put your final choice of one letter from A/B/C/D within \boxed{}. "
             ++ question ++ newline ++ newline
             ++ "A) " ++ a ++ newline
             ++ "B) " ++ b ++ newline
             ++ "C) " ++ c ++ newline
             ++ "D) " ++ d in
    gpqa_prompt_fn randint line task
    = inr (mkDoc task q ["A"; "B"; "C"; "D"] randint (Some q))
    /\ nth randint [a; b; c; d] "" = correct
    /\ (firstn randint [a; b; c; d] ++ skipn (S randint) [a; b; c; d])%list
       = [i1; i2; i3].
Proof.
  intros Hg H1 H2 H3 Hc Hq.
  destruct (insert_nth randint correct [i1; i2; i3] Hg) as [Hn Hr].
  assert (Hcs : exists a b c d, insert randint correct [i1; i2; i3] = [a; b; c; d]).
  { destruct randint as [|[|[|[|g]]]]; [| | | |simpl in Hg; lia];
      do 4 eexists; reflexivity. }
  destruct Hcs as (a & b & c & d & Hcs). rewrite Hcs in Hn, Hr.
  exists a, b, c, d. cbv zeta. split; [|split; assumption].
  unfold gpqa_prompt_fn. cbv zeta. rewrite H1, H2, H3, Hc. cbn [bindE].
  rewrite Hcs. cbn [index nth_error bindE]. rewrite Hq. cbn [bindE].
  rewrite format_gpqa. reflexivity.
Qed.
End Prompts.

(* ================================================================== *)
(** ** The theorems at concrete layers *)
(* ================================================================== *)

Lemma tiny_shaped j : shaped (tiny_layer j) (weights (tiny_layer j) tiny_heap).
Proof.
  constructor; destruct j; simpl; try reflexivity; try exact I;
    repeat constructor.
Qed.

Lemma tiny_cache_shaped j :
  cache_shaped (tiny_layer j) (as_mat (tiny_heap 8%nat)) (as_mat (tiny_heap 9%nat)).
Proof. constructor; destruct j; simpl; try reflexivity; repeat constructor. Qed.

Lemma step_recurrence_witness :
  separate (tiny_layer false) 8%nat 9%nat
  /\ exists (y : vec) (s' : store),
       step (tiny_layer false) [[1]] 8%nat 9%nat tiny_store
       = (inr ([linear [[1]] None (mul y [silu 1])], 8%nat, 9%nat), s')
       /\ (forall d n, (d < 1)%nat -> (n < 1)%nat ->
             nth n (nth d (as_mat (heap s' 9%nat)) []) 0 =
             0 * exp (softplus 0 * - exp 0)
             + silu 1 * (softplus 0 * silu 1)).
Proof.
  split; [apply tiny_separate|].
  destruct (step_recurrence (tiny_layer false) [1] 8%nat 9%nat tiny_store
              (tiny_separate false) (tiny_shaped false)
              (tiny_cache_shaped false)) as (y & s' & Hstep & Hst & Hy).
  exists y, s'. split.
  - rewrite Hstep. unfold step_xz, weights. simpl. real_norm. reflexivity.
  - intros d n Hd Hn. rewrite (Hst d n Hd Hn).
    assert (d = 0%nat) by lia. assert (n = 0%nat) by lia. subst.
    unfold step_dt, step_B, conv_out, conv_update, step_xz, weights.
    simpl. real_norm. reflexivity.
Defined.

Lemma step_rejects_witness :
  length [[1]; [1]] <> 1%nat
  /\ step (tiny_layer false) [[1]; [1]] 8%nat 9%nat tiny_store
     = (inl (AssertionError
               "Only support decoding with 1 token at a time for now"),
        tiny_store).
Proof.
  assert (H : length [[1]; [1]] <> 1%nat) by (simpl; lia).
  split; [exact H|].
  exact (step_rejects_multi_token (tiny_layer false) [[1]; [1]] 8%nat 9%nat
           tiny_store H).
Defined.

Lemma construction_witness :
  (arg_dt_init fractional_args = "random"%string
   /\ 0 <= arg_dt_scale fractional_args)
  /\ exists self s',
       __init__ fractional_args small_draws empty_store = (inr self, s')
       /\ d_model self = 10%nat /\ d_state self = 1%nat
       /\ d_conv self = 2%nat /\ d_inner self = 7%nat
       /\ dt_rank self = 1%nat.
Proof.
  assert (Hs : arg_dt_init fractional_args = "random"%string
               /\ 0 <= arg_dt_scale fractional_args)
    by (split; [reflexivity|simpl; lra]).
  split; [exact Hs|].
  assert (Hi : (0 < init_d_inner fractional_args)%Z) by (vm_compute; reflexivity).
  assert (Hr : (0 < init_dt_rank fractional_args)%Z) by (vm_compute; reflexivity).
  assert (Hmin : 0 < arg_dt_min fractional_args) by (simpl; lra).
  assert (Hmax : 0 < arg_dt_max fractional_args) by (simpl; lra).
  exact (proj1 (construction_outcome fractional_args small_draws empty_store
                  ltac:(simpl; lia) Hi ltac:(simpl; lia) ltac:(simpl; lia)
                  Hr Hmin Hmax eq_refl) (or_intror Hs)).
Defined.

Lemma conv4_separate : separate conv4_layer 9%nat 10%nat.
Proof. unfold separate, parameters. simpl. intuition lia. Qed.

Lemma conv4_shaped : shaped conv4_layer (weights conv4_layer conv4_heap).
Proof. constructor; simpl; try reflexivity; repeat constructor. Qed.

Lemma conv4_cache_shaped :
  cache_shaped conv4_layer (as_mat (conv4_heap 9%nat))
               (as_mat (conv4_heap 10%nat)).
Proof. constructor; simpl; try reflexivity; repeat constructor. Qed.

Lemma ring_buffer_witness :
  (1 <= d_conv conv4_layer)%nat
  /\ length ([[1]; [2]; [3]] ++ [[5]]) = d_conv conv4_layer
  /\ exists outs s1 s2 out,
       decode conv4_layer [[1]; [2]; [3]] 9%nat 10%nat conv4_store
       = (inr outs, s1)
       /\ step conv4_layer [[5]] 9%nat 10%nat s1
          = (inr ([out], 9%nat, 10%nat), s2)
       /\ as_mat (heap s2 9%nat)
          = fst (chunk2 (in_proj_T (weights conv4_layer conv4_heap)
                                   conv4_tokens))
       /\ conv_out (weights conv4_layer conv4_heap) (as_mat (heap s2 9%nat))
          = column 3
              (conv_act [[1; 2; 3; 4]] (Some [1 / 2]) 4 4
                 (fst (chunk2 (in_proj_T (weights conv4_layer conv4_heap)
                                         conv4_tokens))))
       /\ as_mat (heap (snd (forward conv4_layer conv4_tokens None
                                     (Some KeyValueMemory) None None
                                     conv4_store)) 9%nat)
          = as_mat (heap s2 9%nat).
Proof.
  assert (HK : (1 <= d_conv conv4_layer)%nat) by (simpl; lia).
  assert (HL : length ([[1]; [2]; [3]] ++ [[5]]) = d_conv conv4_layer)
    by reflexivity.
  split; [exact HK|]. split; [exact HL|].
  destruct (step_ring_buffer_matches_causal_conv conv4_layer
              [[1]; [2]; [3]] [5] 9%nat 10%nat conv4_store conv4_separate
              conv4_shaped conv4_cache_shaped HK HL)
    as (outs & s1 & s2 & Hd & Hs & Hbuf & Hout & _ & Hfwd).
  exists outs, s1, s2. eexists.
  split; [exact Hd|]. split; [exact Hs|]. split; [exact Hbuf|].
  split; [exact Hout|].
  refine (Hfwd _ eq_refl _ None KeyValueMemory None); [|simpl; lia].
  intros Hj. discriminate Hj.
Defined.

Lemma mask_witness :
  kv tiny_store (layer_idx (tiny_layer false)) = Some (8%nat, 9%nat)
  /\ length [1; 0] = length [[1]; [1]]
  /\ length [[1]; [1]] <> 1%nat
  /\ forward (tiny_layer false) [[1]; [7]] None (Some KeyValueMemory)
             (Some [1; 0]) None tiny_store
     = forward (tiny_layer false) [[1]; [1]] (Some [0%nat; 1%nat])
               (Some KeyValueMemory) (Some [1; 0]) None tiny_store
  /\ exists out aux s',
       forward (tiny_layer false) [[1]; [1]] (Some [0%nat; 1%nat])
               (Some KeyValueMemory) (Some [1; 0]) None tiny_store
       = (inr (Pair out aux), s')
       /\ as_mat (heap s' 8%nat)
          = snd (conv_scan (weights (tiny_layer false) tiny_heap)
                           (scale_tokens (Some [1; 0])
                              (map (fun h => fst (step_xz (weights (tiny_layer false) tiny_heap) h))
                                   [[1]; [1]]))
                           (zeros2 1 1)).
Proof.
  assert (Hkv : Some KeyValueMemory <> None ->
                kv tiny_store (layer_idx (tiny_layer false))
                = Some (8%nat, 9%nat)
                /\ separate (tiny_layer false) 8%nat 9%nat)
    by (intros _; split; [reflexivity|apply tiny_separate]).
  assert (Hm : length [1; 0] = length [[1]; [1]]) by reflexivity.
  assert (Hl : length [[1]; [1]] <> 1%nat) by (simpl; lia).
  split; [reflexivity|]. split; [exact Hm|]. split; [exact Hl|].
  destruct (proj1 (mask_zeroes_conv_input (tiny_layer false) [[1]; [1]]
              (Some [0%nat; 1%nat]) (Some KeyValueMemory) [1; 0] None
              tiny_store 8%nat 9%nat (tiny_norms false) Hkv Hm)
              (or_intror Hl)) as (Hinv & _ & Hscan).
  split.
  - apply (Hinv [[1]; [7]] None eq_refl).
    intros [|[|t]] Ht; simpl in Ht; try reflexivity;
      exfalso; apply Ht; try reflexivity; now destruct t.
  - destruct (Hscan eq_refl (tiny_shaped false) (le_n 1) (le_n 1))
      as [aux Hf].
    do 3 eexists. split; [exact Hf|].
    cbn [cache_store heap]. rewrite upd_neq, upd_eq by discriminate.
    reflexivity.
Defined.

Lemma A_log_init_witness :
  exists self s',
    __init__ (small_args 3) small_draws empty_store = (inr self, s')
    /\ forall d n, (d < d_inner self)%nat -> (n < d_state self)%nat ->
         decay_rate self s' d n = - INR (n + 1).
Proof.
  destruct (init_succeeds (small_args 3) small_draws empty_store
              (small_args_constructible 3 ltac:(lia)))
    as (self & s' & H & _).
  exists self, s'. split; [exact H|].
  intros d n Hd Hn.
  exact (proj1 (A_log_init_arithmetic (small_args 3) small_draws empty_store
                  s' self H d n Hd Hn)).
Defined.

Lemma frame_witness :
  5%nat <> 8%nat /\ 5%nat <> 9%nat
  /\ heap (snd (step (tiny_layer false) [[1]] 8%nat 9%nat tiny_store)) 5%nat
     = T2 [[0]]
  /\ heap (snd (forward (tiny_layer false) [[1]; [1]] None
                        (Some KeyValueMemory) None None tiny_store)) 5%nat
     = T2 [[0]].
Proof.
  assert (H8 : 5%nat <> 8%nat) by lia. assert (H9 : 5%nat <> 9%nat) by lia.
  split; [exact H8|]. split; [exact H9|].
  destruct (parameters_are_not_mutated (tiny_layer false) [[1]] 8%nat 9%nat
              None (Some KeyValueMemory) None None tiny_store 5%nat H8 H9)
    as (Hstep & _ & _).
  destruct (parameters_are_not_mutated (tiny_layer false) [[1]; [1]] 8%nat
              9%nat None (Some KeyValueMemory) None None tiny_store 5%nat
              H8 H9) as (_ & Hfwd & _).
  split; [exact Hstep|]. exact (Hfwd eq_refl).
Defined.

Lemma forward_single_witness :
  _get_states_from_cache (tiny_layer true) tiny_store
  = (inr (8%nat, 9%nat), tiny_store)
  /\ exists out s',
       step (tiny_layer true) [[1]] 8%nat 9%nat tiny_store
       = (inr (out, 8%nat, 9%nat), s')
       /\ forward (tiny_layer true) [[1]] None (Some KeyValueMemory) None
                  (Some [[7]]) tiny_store
          = (inr (Single out), s').
Proof.
  assert (H : _get_states_from_cache (tiny_layer true) tiny_store
              = (inr (8%nat, 9%nat), tiny_store)) by reflexivity.
  split; [exact H|].
  exact (proj1 (forward_single_token_delegates (tiny_layer true) [1] None
                  KeyValueMemory None (Some [[7]]) tiny_store tiny_store
                  8%nat 9%nat H (tiny_separate true))).
Defined.

Lemma forward_matches_decode_witness :
  exists out aux s',
    decode (tiny_layer false) [[1]; [1]] 8%nat 9%nat tiny_store = (inr out, s')
    /\ forward (tiny_layer false) [[1]; [1]] None (Some KeyValueMemory) None
               None tiny_store
       = (inr (Pair out aux), s').
Proof.
  exact (forward_matches_decode (tiny_layer false) [[1]; [1]] None
           KeyValueMemory None tiny_store 8%nat 9%nat eq_refl eq_refl
           (tiny_separate false) (tiny_shaped false)
           (le_n 1) (le_n 1) eq_refl eq_refl).
Defined.

Lemma stateless_forward_witness :
  exists outs aux s',
    forward (tiny_layer false) [[1]; [1]] None None None None tiny_store
    = (inr (Pair outs aux), tiny_store)
    /\ decode (tiny_layer false) [[1]; [1]] 8%nat 9%nat tiny_store
       = (inr outs, s').
Proof.
  exact (stateless_forward_matches_decode (tiny_layer false) [[1]; [1]] None
           None tiny_store 8%nat 9%nat eq_refl (tiny_separate false)
           (tiny_shaped false) (le_n 1) (le_n 1) eq_refl eq_refl).
Defined.

Lemma prefill_then_step_witness :
  exists outs aux out s1 s2 aux',
    forward (tiny_layer false) [[1]; [2]] None (Some KeyValueMemory) None None
            tiny_store = (inr (Pair outs aux), s1)
    /\ step (tiny_layer false) [[3]] 8%nat 9%nat s1
       = (inr ([out], 8%nat, 9%nat), s2)
    /\ forward (tiny_layer false) [[1]; [2]; [3]] None (Some KeyValueMemory)
               None None tiny_store = (inr (Pair (outs ++ [out]) aux'), s2).
Proof.
  exact (prefill_then_step (tiny_layer false) [[1]; [2]] [3] None
           KeyValueMemory None tiny_store 8%nat 9%nat eq_refl eq_refl
           (tiny_separate false) (tiny_shaped false) (le_n 1) (le_n 1)
           (le_n 2)).
Defined.

Lemma prefill_overwrites_witness :
  forward (tiny_layer true) [[1]; [2]] None (Some KeyValueMemory) None None
    (mkStore (upd (upd tiny_heap 8%nat (T2 [[5]])) 9%nat (T2 [[7]])) 13%nat
             (kv tiny_store))
  = forward (tiny_layer true) [[1]; [2]] None (Some KeyValueMemory) None None
            tiny_store.
Proof.
  exact (prefill_overwrites_cache (tiny_layer true) [[1]; [2]] None
           KeyValueMemory None None tiny_store 8%nat 9%nat (T2 [[5]])
           (T2 [[7]]) (tiny_norms true) eq_refl (tiny_separate true)
           ltac:(discriminate)).
Defined.

Lemma forward_causal_witness :
  exists outs aux aux',
    forward (tiny_layer false) [[1]; [2]; [3]] None None None None tiny_store
    = (inr (Pair outs aux), tiny_store)
    /\ forward (tiny_layer false) [[1]; [2]] None None None None tiny_store
       = (inr (Pair (firstn 2 outs) aux'), tiny_store).
Proof.
  exact (forward_is_causal (tiny_layer false) [[1]; [2]; [3]] 2 None None
           tiny_store eq_refl (tiny_shaped false) (le_n 1) (le_n 1)).
Defined.

Lemma masked_tokens_witness :
  forward (tiny_layer true) [[1]; [2]] None None (Some [1; 0]) None tiny_store
  = forward (tiny_layer true) [[1]; [3]] None None (Some [1; 0]) None
            tiny_store.
Proof.
  apply (masked_tokens_are_ignored (tiny_layer true) [[1]; [2]] [[1]; [3]]
           None None [1; 0] None tiny_store 8%nat 9%nat (tiny_norms true)).
  - intros H. now contradiction H.
  - reflexivity.
  - reflexivity.
  - intros [|[|t]] Ht; simpl in *; try reflexivity.
    now contradiction Ht.
Defined.

Lemma gmu_save_witness :
  exists r r' s',
    forward (with_gmu_save true (tiny_layer false)) [[1]; [2]] None
            (Some KeyValueMemory) None None tiny_store = (inr r, s')
    /\ forward (with_gmu_save false (tiny_layer false)) [[1]; [2]] None
               (Some KeyValueMemory) None None tiny_store = (inr r', s')
    /\ match r, r' with
       | Single out, Single out' | Pair out _, Pair out' _ => out = out'
       | _, _ => False
       end.
Proof.
  exact (gmu_save_keeps_outputs (tiny_layer false) [[1]; [2]] None
           (Some KeyValueMemory) None tiny_store 8%nat 9%nat eq_refl
           (fun _ => conj eq_refl (tiny_separate false))
           (tiny_shaped false) (le_n 1) (le_n 1)).
Defined.

Lemma forward_output_shape_witness :
  exists r s',
    forward (tiny_layer true) [[1]; [2]] None (Some KeyValueMemory)
            (Some [1; 0]) None tiny_store = (inr r, s')
    /\ match r with
       | Single out | Pair out _ =>
           length out = 2%nat /\ rows 1 out
       end.
Proof.
  exact (forward_output_shape (tiny_layer true) [[1]; [2]] None
           (Some KeyValueMemory) (Some [1; 0]) None tiny_store 8%nat 9%nat
           (tiny_norms true)
           (fun _ => conj eq_refl (tiny_separate true)) eq_refl I).
Defined.

Lemma step_shapes_witness :
  exists out s',
    step (tiny_layer false) [[1]] 8%nat 9%nat tiny_store
    = (inr ([out], 8%nat, 9%nat), s')
    /\ length out = 1%nat
    /\ cache_shaped (tiny_layer false) (as_mat (heap s' 8%nat))
                    (as_mat (heap s' 9%nat)).
Proof.
  exact (step_keeps_cache_shapes (tiny_layer false) [1] 8%nat 9%nat tiny_store
           (tiny_separate false) (tiny_shaped false) eq_refl I
           (tiny_cache_shaped false) (le_n 1)).
Defined.

Lemma forward_cache_shapes_witness :
  exists out aux s',
    forward (tiny_layer true) [[1]; [2]; [3]] None (Some KeyValueMemory)
            (Some [1; 0; 1]) None tiny_store = (inr (Pair out aux), s')
    /\ cache_shaped (tiny_layer true) (as_mat (heap s' 8%nat))
                    (as_mat (heap s' 9%nat)).
Proof.
  exact (forward_sets_cache_shapes (tiny_layer true) [[1]; [2]; [3]] None
           KeyValueMemory (Some [1; 0; 1]) None tiny_store 8%nat 9%nat
           (tiny_norms true) eq_refl (tiny_separate true) (tiny_shaped true)
           ltac:(discriminate) eq_refl).
Defined.

Lemma init_fresh_witness :
  exists self s',
    __init__ (small_args 3) small_draws tiny_store = (inr self, s')
    /\ extends tiny_store s' /\ kv s' = kv tiny_store
    /\ NoDup (parameters self)
    /\ Forall (fun l => (13 <= l < next s')%nat) (parameters self)
    /\ norms_present self
    /\ (forall conv_state ssm_state,
          (next s' <= conv_state)%nat -> (next s' <= ssm_state)%nat ->
          conv_state <> ssm_state -> separate self conv_state ssm_state).
Proof.
  destruct (init_succeeds (small_args 3) small_draws tiny_store
              (small_args_constructible 3 ltac:(lia)))
    as (self & s' & H & _).
  exists self, s'. split; [exact H|].
  exact (init_allocates_fresh (small_args 3) small_draws tiny_store s' self H).
Defined.

Lemma init_shapes_witness :
  exists self s',
    __init__ (small_args 1) small_draws empty_store = (inr self, s')
    /\ shaped self (weights self (heap s'))
    /\ rows (d_model self) (w_in (weights self (heap s')))
    /\ rows (d_inner self) (w_x (weights self (heap s')))
    /\ rows (dt_rank self) (w_dt (weights self (heap s')))
    /\ length (w_out (weights self (heap s'))) = d_model self
    /\ rows (d_inner self) (w_out (weights self (heap s')))
    /\ opt_length (d_model self) (b_out (weights self (heap s'))).
Proof.
  destruct (init_succeeds (small_args 1) small_draws empty_store
              (small_args_constructible 1 ltac:(lia)))
    as (self & s' & H & _).
  exists self, s'. split; [exact H|].
  exact (init_establishes_shapes (small_args 1) small_draws empty_store s'
           self H).
Defined.

Lemma dt_bias_witness :
  exists self s',
    __init__ (small_args 3) small_draws empty_store = (inr self, s')
    /\ 1 / 1000 <= softplus (nth 0 (as_vec (heap s' (dt_proj_bias self))) 0)
       <= 1 / 10.
Proof.
  destruct (init_succeeds (small_args 3) small_draws empty_store
              (small_args_constructible 3 ltac:(lia)))
    as (self & s' & H & _).
  exists self, s'. split; [exact H|].
  assert (Hi : (0 < d_inner self)%nat).
  { destruct (init_fields _ _ _ _ _ H) as (_ & _ & _ & HE & _).
    rewrite HE. simpl. lia. }
  assert (Hu : 0 <= dt_rand small_draws 0 <= 1) by (simpl; lra).
  assert (H1 : arg_dt_min (small_args 3) <= arg_dt_max (small_args 3))
    by (simpl; lra).
  assert (H2 : arg_dt_max (small_args 3) <= 20) by (simpl; lra).
  assert (H3 : arg_dt_init_floor (small_args 3) <= arg_dt_max (small_args 3))
    by (simpl; lra).
  destruct (dt_bias_inverts_softplus (small_args 3) small_draws empty_store s'
              self 0%nat H Hi Hu H1 H2 H3) as [_ [Hlo Hhi]].
  split; [|exact Hhi].
  apply Rle_trans with (2 := Hlo). simpl. apply Rmax_l.
Defined.

Lemma default_widths_witness :
  exists self s',
    __init__ (mkInitArgs 40 16 4 (PyInt 2) None (1 / 1000) (1 / 10) "random" 1
                         (1 / 10000) false true false true 0 false false)
             small_draws empty_store = (inr self, s')
    /\ d_inner self = (2 * d_model self)%nat
    /\ (d_model self <= 16 * dt_rank self < d_model self + 16)%nat.
Proof.
  set (a := mkInitArgs 40 16 4 (PyInt 2) None (1 / 1000) (1 / 10) "random" 1
                       (1 / 10000) false true false true 0 false false).
  assert (Hc : constructible a).
  { constructor; unfold a; simpl; try lia; try lra; try reflexivity.
    now right. }
  destruct (init_succeeds a small_draws empty_store Hc) as (self & s' & H & _).
  exists self, s'. split; [exact H|].
  exact (default_widths a small_draws empty_store s' self H eq_refl eq_refl).
Defined.

Lemma math_prompts_witness :
  EvalReason.prompt_fn
    [("problem", "Find x{1}."); ("solution", "2"); ("answer", "3")]%string
    (Some "math_500"%string)
  = inr (EvalReason.mkDoc (Some "math_500")
           "Please reason step by step, and put your final answer within \boxed{}. Find x{1}."
           ["2"] 0 None)%string
  /\ EvalReason.aime_prompt_fn
       [("problem", "Find x{1}."); ("solution", "2"); ("answer", "3")]%string
       (Some "aime24"%string)
     = inr (EvalReason.mkDoc (Some "aime24")
              "Please reason step by step, and put your final answer within \boxed{}. Find x{1}."
              ["3"] 0 None)%string.
Proof.
  split.
  - exact (proj1 (math_prompts_keep_problem_verbatim
                    [("problem", "Find x{1}."); ("solution", "2");
                     ("answer", "3")]%string
                    (Some "math_500"%string) "Find x{1}."%string eq_refl)
                 "2"%string eq_refl).
  - exact (proj2 (math_prompts_keep_problem_verbatim
                    [("problem", "Find x{1}."); ("solution", "2");
                     ("answer", "3")]%string
                    (Some "aime24"%string) "Find x{1}."%string eq_refl)
                 "3"%string eq_refl).
Defined.

Lemma gpqa_witness :
  exists a b c d : string,
    let q := ("Please reason step by step, and put your final choice of one letter from A/B/C/D within \boxed{}. "
              ++ "Which?" ++ EvalReason.newline ++ EvalReason.newline
              ++ "A) " ++ a ++ EvalReason.newline
              ++ "B) " ++ b ++ EvalReason.newline
              ++ "C) " ++ c ++ EvalReason.newline
              ++ "D) " ++ d)%string in
    EvalReason.gpqa_prompt_fn 2
      [("Question", "Which?"); ("Correct Answer", "yes");
       ("Incorrect Answer 1", "no"); ("Incorrect Answer 2", "maybe");
       ("Incorrect Answer 3", "never")]%string None
    = inr (EvalReason.mkDoc None q ["A"; "B"; "C"; "D"]%string 2 (Some q))
    /\ nth 2 [a; b; c; d] ""%string = "yes"%string
    /\ firstn 2 [a; b; c; d] ++ skipn 3 [a; b; c; d]
       = ["no"; "maybe"; "never"]%string.
Proof.
  exact (gpqa_gold_index_marks_correct_answer 2
           [("Question", "Which?"); ("Correct Answer", "yes");
            ("Incorrect Answer 1", "no"); ("Incorrect Answer 2", "maybe");
            ("Incorrect Answer 3", "never")]%string None
           "no"%string "maybe"%string "never"%string "yes"%string
           "Which?"%string ltac:(lia) eq_refl eq_refl eq_refl eq_refl
           eq_refl).
Defined.
